(** * google-workspace-sync: group reconciliation between Google Workspace
      and Coder

    A shallow embedding of the Go sources ([gcsync/request.go], the
    [gcsync] package files defining [SyncGroups] and the paginated
    directory listings, and the standalone [main.go] script), with the
    properties of the reconciliation engine proved over it.

    Conventions of the embedding:
    - Go strings are [string]s (sequences of bytes);
    - [uuid.UUID] is represented by its canonical text form, so that
      [id.String()] is the identity and [uuid.Parse] of such a text always
      succeeds;
    - Go maps with string keys are [gmap string _]; the order in which a
      [range] statement visits the keys is a parameter of the model;
    - calls to the Coder and Google clients act on an explicit [World]
      that also records every call and every log line in a trace. *)

From Stdlib Require Import Ascii.
From Stdlib Require Import ZArith.
From stdpp Require Import gmap strings list fin_maps.

Set Default Proof Using "Type".
Open Scope string_scope.
Open Scope list_scope.

(* ===================================================================== *)
(** * Part I: the program                                                 *)
(* ===================================================================== *)

(** ** Packages [unicode/utf8], [unicode] and [strings] of the Go standard
       library (the functions used)

    A Go string is a sequence of bytes.  [strings.ToLower] reads it as
    UTF-8: it decodes the runes, maps each through [unicode.ToLower] and
    encodes the results.  The case tables of the [unicode] package are
    data of the Go distribution; the embedding takes the lower-case
    mapping of the runes above U+007F as a parameter, so what is proved
    holds for every table. *)

Module utf8.
Local Open Scope Z_scope.

Definition RuneError : Z := 65533.   (* U+FFFD *)
Definition RuneSelf : Z := 128.
Definition MaxRune : Z := 1114111.   (* U+10FFFF *)
Definition UTFMax : nat := 4.

(** The bytes of a string, and back. *)
Definition bytes (s : string) : list Z :=
  map (fun c => Z.of_N (N_of_ascii c)) (String.list_ascii_of_string s).

Definition of_bytes (p : list Z) : string :=
  String.string_of_list_ascii (map (fun b => ascii_of_N (Z.to_N b)) p).

(** The table [first] together with [acceptRanges]: for a byte that
    starts an encoding of two to four bytes, the size of the encoding and
    the range its second byte must be in; [None] for a byte that starts
    none (the entries [xx]).  The bytes below [RuneSelf] (the entries
    [as]) are tested for apart. *)
Definition first (s0 : Z) : option (nat * Z * Z) :=
  if (194 <=? s0) && (s0 <=? 223) then Some (2%nat, 128, 191)       (* s1 *)
  else if s0 =? 224 then Some (3%nat, 160, 191)                     (* s2 *)
  else if (225 <=? s0) && (s0 <=? 236) then Some (3%nat, 128, 191)  (* s3 *)
  else if s0 =? 237 then Some (3%nat, 128, 159)                     (* s4 *)
  else if (238 <=? s0) && (s0 <=? 239) then Some (3%nat, 128, 191)  (* s3 *)
  else if s0 =? 240 then Some (4%nat, 144, 191)                     (* s5 *)
  else if (241 <=? s0) && (s0 <=? 243) then Some (4%nat, 128, 191)  (* s6 *)
  else if s0 =? 244 then Some (4%nat, 128, 143)                     (* s7 *)
  else None.                                                        (* xx *)

(** [utf8.DecodeRuneInString]: the first rune of [p] and its width in
    bytes; [(RuneError, 1)] when [p] does not start with a well-formed
    encoding, [(RuneError, 0)] when [p] is empty. *)
Definition DecodeRune (p : list Z) : Z * nat :=
  match p with
  | [] => (RuneError, 0%nat)
  | s0 :: _ =>
      if s0 <? RuneSelf then (s0, 1%nat)
      else
        match first s0 with
        | None => (RuneError, 1%nat)
        | Some (sz, lo, hi) =>
            if (length p <? sz)%nat then (RuneError, 1%nat)
            else
              let s1 := nth 1 p 0 in
              if (s1 <? lo) || (hi <? s1) then (RuneError, 1%nat)
              else if (sz <=? 2)%nat then
                (Z.lor (Z.shiftl (Z.land s0 31) 6) (Z.land s1 63), 2%nat)
              else
                let s2 := nth 2 p 0 in
                if (s2 <? 128) || (191 <? s2) then (RuneError, 1%nat)
                else if (sz <=? 3)%nat then
                  (Z.lor (Z.lor (Z.shiftl (Z.land s0 15) 12)
                                (Z.shiftl (Z.land s1 63) 6))
                         (Z.land s2 63), 3%nat)
                else
                  let s3 := nth 3 p 0 in
                  if (s3 <? 128) || (191 <? s3) then (RuneError, 1%nat)
                  else
                    (Z.lor (Z.lor (Z.lor (Z.shiftl (Z.land s0 7) 18)
                                         (Z.shiftl (Z.land s1 63) 12))
                                  (Z.shiftl (Z.land s2 63) 6))
                           (Z.land s3 63), 4%nat)
        end
  end.

(** [byte(x)] *)
Definition byte (x : Z) : Z := x mod 256.

(** [utf8.AppendRune] to an empty buffer: the encoding of the rune [r];
    a rune out of range or a surrogate half is written as
    [RuneError]. *)
Definition AppendRune (r : Z) : list Z :=
  let i := r mod 4294967296 in                         (* uint32(r) *)
  let three (r : Z) :=
    [Z.lor 224 (byte (Z.shiftr r 12));
     Z.lor 128 (Z.land (byte (Z.shiftr r 6)) 63);
     Z.lor 128 (Z.land (byte r) 63)] in
  if i <=? 127 then [byte r]
  else if i <=? 2047 then
    [Z.lor 192 (byte (Z.shiftr r 6)); Z.lor 128 (Z.land (byte r) 63)]
  else if (MaxRune <? i) || ((55296 <=? i) && (i <=? 57343)) then
    three RuneError
  else if i <=? 65535 then three r
  else
    [Z.lor 240 (byte (Z.shiftr r 18));
     Z.lor 128 (Z.land (byte (Z.shiftr r 12)) 63);
     Z.lor 128 (Z.land (byte (Z.shiftr r 6)) 63);
     Z.lor 128 (Z.land (byte r) 63)].

End utf8.

Module unicode.
Local Open Scope Z_scope.

(** [unicode.To(unicode.LowerCase, r)]: the lower-case mapping of the
    case tables ([unicode.CaseRanges]). *)
Class CaseTables := To_LowerCase : Z -> Z.

Definition MaxASCII : Z := 127.

(** [unicode.ToLower] *)
Definition ToLower `{CaseTables} (r : Z) : Z :=
  if r <=? MaxASCII then
    if (65 <=? r) && (r <=? 90) then r + 32 else r
  else To_LowerCase r.

End unicode.

Module Strings.

(** The loop of [strings.ToLower] for a string of ASCII bytes: the
    letters [A] to [Z] are moved to lower case, every other byte is
    kept. *)
Definition lower_byte (c : ascii) : ascii :=
  let n := nat_of_ascii c in
  if (65 <=? n)%nat && (n <=? 90)%nat then ascii_of_nat (n + 32) else c.

Fixpoint lower_ascii (s : string) : string :=
  match s with
  | EmptyString => EmptyString
  | String c r => String (lower_byte c) (lower_ascii r)
  end.

(** The second loop of [strings.Map], after the first rune that the
    mapping changes: every rune is mapped and written, but a rune mapped
    to a negative value, which is dropped. *)
Fixpoint Map_rest (turns : nat) (mapping : Z -> Z) (s : list Z) : list Z :=
  match turns, s with
  | S turns', _ :: _ =>
      let '(c, width) := utf8.DecodeRune s in
      let r := mapping c in
      (if (0 <=? r)%Z then utf8.AppendRune r else [])
      ++ Map_rest turns' mapping (drop width s)
  | _, _ => []
  end.

(** The first loop of [strings.Map]: the bytes of the runes that the
    mapping keeps are kept as they are, up to the first rune it changes;
    a byte that is no encoding counts as changed (it is read as
    [RuneError] with width 1 and written as the three bytes of
    U+FFFD). *)
Fixpoint Map_loop (turns : nat) (mapping : Z -> Z) (s : list Z) : list Z :=
  match turns, s with
  | S turns', _ :: _ =>
      let '(c, width) := utf8.DecodeRune s in
      let r := mapping c in
      if (r =? c)%Z
         && (negb (c =? utf8.RuneError)%Z || negb (width =? 1)%nat)
      then take width s ++ Map_loop turns' mapping (drop width s)
      else
        (if (0 <=? r)%Z then utf8.AppendRune r else [])
        ++ Map_rest turns' mapping (drop width s)
  | _, _ => []
  end.

(** [strings.Map]; a [range] over a string makes at most one turn per
    byte. *)
Definition Map (mapping : Z -> Z) (s : string) : string :=
  utf8.of_bytes (Map_loop (String.length s) mapping (utf8.bytes s)).

(** [strings.ToLower] *)
Definition ToLower `{unicode.CaseTables} (s : string) : string :=
  let isASCII := forallb (fun c => (c <? utf8.RuneSelf)%Z) (utf8.bytes s) in
  let hasUpper :=
    existsb (fun c => (65 <=? c)%Z && (c <=? 90)%Z) (utf8.bytes s) in
  if isASCII then
    (* optimize for ASCII-only strings. *)
    if negb hasUpper then s else lower_ascii s
  else Map unicode.ToLower s.

(** [strings.ReplaceAll s old new] for a pattern [old] of one byte,
    the only form the program uses. *)
Fixpoint ReplaceAll (s : string) (old : ascii) (new : string) : string :=
  match s with
  | EmptyString => EmptyString
  | String c r =>
      if Ascii.eqb c old then new +:+ ReplaceAll r old new
      else String c (ReplaceAll r old new)
  end.

Definition HasSuffix (s suffix : string) : bool :=
  let n := String.length s in
  let m := String.length suffix in
  (m <=? n)%nat && String.eqb (String.substring (n - m) m s) suffix.

End Strings.

(** ** Package [slice] of coder/coder *)

Module slice.

(** Modelled from the spec: [slice.SymmetricDifference] is imported from
    [github.com/coder/coder/v2/coderd/util/slice]; its source is not part
    of this repository.  The specification describes what the engine
    gets from it: [toAdd = Expected - Actual] and
    [toRemove = Actual - Expected] as set subtraction, with duplicates
    within a set collapsing.  [SymmetricDifference a b] returns first the
    elements to add and then the elements to remove to get from the set
    [a] to the set [b]. *)
Definition Difference (a b : list string) : list string :=
  remove_dups (list_difference a b).

Definition SymmetricDifference (a b : list string)
  : list string * list string :=
  (Difference b a, Difference a b).

End slice.

(** ** Package [codersdk]: the data the program reads and sends *)

Module codersdk.

Abbreviation UUID := string (only parsing).

(** [uuid.Nil.String()], the ID of a zero-valued struct. *)
Definition uuid_Nil : UUID := "00000000-0000-0000-0000-000000000000".

Abbreviation LoginType := string (only parsing).
Definition LoginTypeOIDC : LoginType := "oidc".

Record Organization := {
  Organization_ID : UUID;
  Organization_IsDefault : bool
}.

(** [codersdk.Organization{}] *)
Definition Organization_zero : Organization :=
  {| Organization_ID := uuid_Nil; Organization_IsDefault := false |}.

(** A group; its members are kept by user ID. *)
Record Group := {
  Group_ID : UUID;
  Group_Name : string;
  Group_OrganizationID : UUID;
  Group_Members : list UUID
}.

Record User := {
  User_ID : UUID;
  User_Username : string;
  User_Email : string;
  User_LoginType : LoginType
}.

Record GroupArguments := {
  GroupArguments_Organization : string;
  GroupArguments_HasMember : string
}.

Record CreateGroupRequest := {
  CreateGroupRequest_Name : string;
  CreateGroupRequest_DisplayName : string;
  CreateGroupRequest_AvatarURL : string;
  CreateGroupRequest_QuotaAllowance : Z
}.

Record PatchGroupRequest := {
  AddUsers : list string;
  RemoveUsers : list string
}.

(** [codersdk.PatchGroupRequest{}] *)
Definition PatchGroupRequest_zero : PatchGroupRequest :=
  {| AddUsers := []; RemoveUsers := [] |}.

#[global] Instance Organization_eq_dec : EqDecision Organization.
Proof. solve_decision. Defined.
#[global] Instance Group_eq_dec : EqDecision Group.
Proof. solve_decision. Defined.
#[global] Instance User_eq_dec : EqDecision User.
Proof. solve_decision. Defined.
#[global] Instance GroupArguments_eq_dec : EqDecision GroupArguments.
Proof. solve_decision. Defined.
#[global] Instance CreateGroupRequest_eq_dec : EqDecision CreateGroupRequest.
Proof. solve_decision. Defined.
#[global] Instance PatchGroupRequest_eq_dec : EqDecision PatchGroupRequest.
Proof. solve_decision. Defined.

End codersdk.

(** ** Package [admin] (Google Workspace directory) *)

Module admin.

Record Group := {
  Group_Name : string;
  Group_Email : string
}.

#[global] Instance Group_eq_dec : EqDecision Group.
Proof. solve_decision. Defined.

End admin.

(** ** [gcsync/request.go]: the change set *)

Module request.
Import codersdk.

(** [type ChangeGroupRequests map[string]codersdk.PatchGroupRequest] *)
Abbreviation ChangeGroupRequests :=
  (gmap string PatchGroupRequest) (only parsing).

(** [c[group]] read as an r-value: the zero value when the key is
    absent. *)
Definition index (c : ChangeGroupRequests) (group : string)
  : PatchGroupRequest :=
  default PatchGroupRequest_zero (c !! group).

Definition AddUser (c : ChangeGroupRequests) (group user : string)
  : ChangeGroupRequests :=
  let c :=
    match c !! group with
    | Some _ => c
    | None => <[group := PatchGroupRequest_zero]> c
    end in
  let req := index c group in
  let req := {| AddUsers := AddUsers req ++ [user];
                RemoveUsers := RemoveUsers req |} in
  <[group := req]> c.

Definition RemoveUser (c : ChangeGroupRequests) (group user : string)
  : ChangeGroupRequests :=
  let c :=
    match c !! group with
    | Some _ => c
    | None => <[group := PatchGroupRequest_zero]> c
    end in
  let req := index c group in
  let req := {| AddUsers := AddUsers req;
                RemoveUsers := RemoveUsers req ++ [user] |} in
  <[group := req]> c.

(** The [range] statements over a change set: the loop of
    [createMissingGroups] (in [main.go], the loop creating the missing
    groups) and the loop of [applyGroupChanges] (in [main.go], the loop
    patching the groups).  Go leaves the order of a [range] over a map
    open and draws it anew at every statement, so each statement has an
    order of its own. *)
Inductive RangeStmt := InCreateMissingGroups | InApplyGroupChanges.

(** The order in which each [range] statement visits the keys of the
    map it is given. *)
Definition RangeOrder : Type :=
  RangeStmt -> ChangeGroupRequests -> list string.

End request.

(** ** The two remote systems and the effects of the program *)

Module world.
Import codersdk.

(** Go [error] values: what a client call returns on failure, and what
    [fmt.Errorf] builds ([Wrap] is the [%w] form). *)
Inductive error :=
| ApiError (call : string)
| Errorf (msg : string)
| Wrap (msg : string) (cause : error).

(** The lines the program writes with [log.Printf] and [log.Println],
    by format string, with their arguments. *)
Inductive LogLine :=
| LogNoGroupName (email : string)
    (* "Google Group %s has no groupname, skipping" *)
| LogNoChanges (oidcUserCount : nat)
    (* "No changes to make, all %d OIDC users in your Google domain are
       in the correct groups" *)
| LogCreateFailed (group : string) (err : error)
    (* "failed to create group %q, users in this group will not be
       assigned: %v" *)
| LogCreated (createdGroups : list Group)
    (* "Created %d groups" and one line "\t%s :: %s" per group *)
| LogChangesMade
    (* "Changes made:" *)
| LogChangesToMemberships
    (* "Changes to group memberships:" *)
| LogGroupPatched (group : string) (added removed : list string).
    (* "\tGroup %s: %d added, %d removed", "\t\tAdded: %v",
       "\t\tRemoved: %v" *)

Inductive Event :=
| CallOrganizations
| CallGroups (args : GroupArguments)
| CallUsers
| CallGoogleGroups (email : string)
| CallCreateGroup (org : UUID) (req : CreateGroupRequest)
| CallPatchGroup (group : UUID) (req : PatchGroupRequest)
| Log (line : LogLine).

(** The state of the Coder deployment and of the Google directory, the
    calls that fail, and the trace of what the program has done. *)
Record World := {
  organizations : list Organization;
  organizations_err : bool;
  groups : list Group;                      (* of every organization *)
  groups_err : GroupArguments -> bool;
  users : list User;
  users_err : bool;
  (* the ID the server gives a new group, [None] when it refuses *)
  create_group : UUID -> string -> option UUID;
  patch_err : UUID -> bool;
  (* the groups of a user by email, all pages; [None] on failure *)
  google_groups : string -> option (list admin.Group);
  trace : list Event
}.

Definition emit (e : Event) (w : World) : World :=
  {| organizations := organizations w;
     organizations_err := organizations_err w;
     groups := groups w;
     groups_err := groups_err w;
     users := users w;
     users_err := users_err w;
     create_group := create_group w;
     patch_err := patch_err w;
     google_groups := google_groups w;
     trace := trace w ++ [e] |}.

Definition set_groups (gs : list Group) (w : World) : World :=
  {| organizations := organizations w;
     organizations_err := organizations_err w;
     groups := gs;
     groups_err := groups_err w;
     users := users w;
     users_err := users_err w;
     create_group := create_group w;
     patch_err := patch_err w;
     google_groups := google_groups w;
     trace := trace w |}.

(** How a run ends: a value, a returned [error], or [log.Fatalf]. *)
Inductive Outcome (A : Type) :=
| Ok (a : A)
| Err (e : error)
| Fatal (msg : string).
Arguments Ok {A} a.
Arguments Err {A} e.
Arguments Fatal {A} msg.

Definition M (A : Type) : Type := World -> Outcome A * World.

Definition ret {A} (a : A) : M A := fun w => (Ok a, w).

Definition bind {A B} (m : M A) (f : A -> M B) : M B :=
  fun w =>
    match m w with
    | (Ok a, w') => f a w'
    | (Err e, w') => (Err e, w')
    | (Fatal msg, w') => (Fatal msg, w')
    end.

Definition throw {A} (e : error) : M A := fun w => (Err e, w).

(** [if err != nil { return fmt.Errorf(msg+": %w", err) }] *)
Definition wrap {A} (msg : string) (m : M A) : M A :=
  fun w =>
    match m w with
    | (Err e, w') => (Err (Wrap msg e), w')
    | r => r
    end.

(** [if err != nil { log.Fatalf(msg, ...) }] *)
Definition or_fatal {A} (msg : string) (m : M A) : M A :=
  fun w =>
    match m w with
    | (Err e, w') => (Fatal msg, w')
    | r => r
    end.

(** [v, err := call(...)] with both results kept. *)
Definition catch {A} (m : M A) : M (error + A) :=
  fun w =>
    match m w with
    | (Ok a, w') => (Ok (inr a), w')
    | (Err e, w') => (Ok (inl e), w')
    | (Fatal msg, w') => (Fatal msg, w')
    end.

Definition log (l : LogLine) : M unit := fun w => (Ok tt, emit (Log l) w).

(** [for _, x := range xs { st = body(st, x) }] *)
Fixpoint for_each {A S} (xs : list A) (body : S -> A -> M S) (st : S)
  : M S :=
  match xs with
  | [] => ret st
  | x :: xs' => bind (body st x) (for_each xs' body)
  end.

Declare Scope go_scope.
Delimit Scope go_scope with go.
Notation "x <- m ;; k" := (bind m (fun x => k))
  (at level 100, m at next level, right associativity) : go_scope.
Notation "m ;;; k" := (bind m (fun _ => k))
  (at level 100, right associativity) : go_scope.

(** *** The Coder client

    Modelled from the spec: the client is the imported package
    [codersdk]; the specification lists its operations (section 6, Target
    Adapter) and the program fixes their arguments.  A listing returns
    the groups that pass every filter that is set in [GroupArguments], an
    empty field being no filter; a creation adds a group without members
    under the ID the server chooses; a patch adds the users of [AddUsers]
    to the members of the group and removes those of [RemoveUsers].  Any
    call may fail. *)

Definition is_member (w : World) (handle : string) (g : Group) : Prop :=
  Exists (fun u => User_Username u = handle /\ User_ID u ∈ Group_Members g)
         (users w).

(** A group answers a listing when it passes every filter that is
    set. *)
Definition group_matches (w : World) (args : GroupArguments) (g : Group)
  : Prop :=
  (GroupArguments_Organization args = ""
   \/ Group_OrganizationID g = GroupArguments_Organization args)
  /\ (GroupArguments_HasMember args = ""
      \/ is_member w (GroupArguments_HasMember args) g).

#[global] Instance is_member_dec w h g : Decision (is_member w h g).
Proof. unfold is_member. apply _. Defined.

#[global] Instance group_matches_dec w args g :
  Decision (group_matches w args g).
Proof. unfold group_matches. apply _. Defined.

Definition Organizations : M (list Organization) :=
  fun w =>
    let w := emit CallOrganizations w in
    if organizations_err w then (Err (ApiError "Organizations"), w)
    else (Ok (organizations w), w).

Definition Groups (args : GroupArguments) : M (list Group) :=
  fun w =>
    let w := emit (CallGroups args) w in
    if groups_err w args then (Err (ApiError "Groups"), w)
    else (Ok (filter (group_matches w args) (groups w)), w).

Definition Users : M (list User) :=
  fun w =>
    let w := emit CallUsers w in
    if users_err w then (Err (ApiError "Users"), w)
    else (Ok (users w), w).

Definition CreateGroup (org : UUID) (req : CreateGroupRequest) : M Group :=
  fun w =>
    let w := emit (CallCreateGroup org req) w in
    match create_group w org (CreateGroupRequest_Name req) with
    | None => (Err (ApiError "CreateGroup"), w)
    | Some id =>
        let g := {| Group_ID := id;
                    Group_Name := CreateGroupRequest_Name req;
                    Group_OrganizationID := org;
                    Group_Members := [] |} in
        (Ok g, set_groups (groups w ++ [g]) w)
    end.

Definition patch_members (req : PatchGroupRequest) (g : Group) : Group :=
  {| Group_ID := Group_ID g;
     Group_Name := Group_Name g;
     Group_OrganizationID := Group_OrganizationID g;
     Group_Members :=
       list_difference (Group_Members g ++ AddUsers req)
                       (RemoveUsers req) |}.

Definition PatchGroup (group : UUID) (req : PatchGroupRequest) : M Group :=
  fun w =>
    let w := emit (CallPatchGroup group req) w in
    if patch_err w group then (Err (ApiError "PatchGroup"), w)
    else
      match List.find (fun g => bool_decide (Group_ID g = group))
                      (groups w) with
      | None => (Err (ApiError "PatchGroup"), w)
      | Some g =>
          (Ok (patch_members req g),
           set_groups
             (map (fun g => if decide (Group_ID g = group)
                            then patch_members req g else g)
                  (groups w))
             w)
      end.

(** *** The Google directory client

    [GoogleGroups] as its callers see it: the groups of every page, or
    the error of the first page that fails. *)

Definition GoogleGroups (email : string) : M (list admin.Group) :=
  fun w =>
    let w := emit (CallGoogleGroups email) w in
    match google_groups w email with
    | None => (Err (Wrap "failed to list groups" (ApiError "Groups.List")), w)
    | Some gs => (Ok gs, w)
    end.

End world.

(** ** Package [gcsync]: the reconciliation engine *)

Module gcsync.
Import codersdk request world.
Local Open Scope go_scope.

(** The [Sync] struct; its two clients are the [World]. *)
Record Sync := { EmailDomain : string }.

(** What the per-user loop of [SyncGroups] updates. *)
Record LoopState := {
  userByID : gmap UUID User;
  coderGroupChanges : ChangeGroupRequests;
  oidcUserCount : nat
}.

(** [ExpectedCoderGroups]: the names, and the lines it logs. *)
Fixpoint ExpectedCoderGroups_loop `{unicode.CaseTables}
    (groups : list admin.Group)
    (expected : list string) : M (list string) :=
  match groups with
  | [] => ret expected
  | group :: rest =>
      if decide (admin.Group_Name group = "") then
        log (LogNoGroupName (admin.Group_Email group)) ;;;
        ExpectedCoderGroups_loop rest expected
      else
        (* normalize names to lowercase and remove spaces *)
        let normalizedName :=
          Strings.ToLower
            (Strings.ReplaceAll (admin.Group_Name group) " " "") in
        ExpectedCoderGroups_loop rest (expected ++ [normalizedName])
  end.

Definition ExpectedCoderGroups `{unicode.CaseTables}
    (groups : list admin.Group)
  : M (list string) :=
  ExpectedCoderGroups_loop groups [].

(** The loop of [SyncGroups] over [cGroups]: the names of the user's
    groups and the name of the Everyone group. *)
Definition cGroups_loop (defaultOrg : Organization) (cGroups : list Group)
  : string * list string :=
  foldl (fun '(everyoneGroup, cGroupNames) group =>
           let cGroupNames := cGroupNames ++ [Group_Name group] in
           if decide (Group_ID group = Organization_ID defaultOrg)
           then (Group_Name group, cGroupNames)
           else (everyoneGroup, cGroupNames))
        ("Everyone", []) cGroups.

(** The two lists the loop hands to [AddUser] and [RemoveUser]. *)
Definition user_diff (defaultOrg : Organization) (cGroups : list Group)
    (expected : list string) : list string * list string :=
  let '(everyoneGroup, cGroupNames) := cGroups_loop defaultOrg cGroups in
  slice.SymmetricDifference cGroupNames (expected ++ [everyoneGroup]).

Definition record_diff (user : User) (add remove : list string)
    (changes : ChangeGroupRequests) : ChangeGroupRequests :=
  let changes :=
    foldl (fun c group => AddUser c group (User_ID user)) changes add in
  foldl (fun c group => RemoveUser c group (User_ID user)) changes remove.

Definition eligible (s : Sync) (user : User) : bool :=
  bool_decide (User_LoginType user = LoginTypeOIDC)
  && Strings.HasSuffix (User_Email user) ("@" +:+ EmailDomain s).

(** The body of the loop over [coderUsers.Users]. *)
Definition user_step `{unicode.CaseTables} (s : Sync)
    (defaultOrg : Organization)
    (st : LoopState) (user : User) : M LoopState :=
  let userByID := <[User_ID user := user]> (userByID st) in
  if negb (bool_decide (User_LoginType user = LoginTypeOIDC)) then
    (* Not a Google Workspace user *)
    ret {| userByID := userByID;
           coderGroupChanges := coderGroupChanges st;
           oidcUserCount := oidcUserCount st |}
  else if negb (Strings.HasSuffix (User_Email user)
                                  ("@" +:+ EmailDomain s)) then
    ret {| userByID := userByID;
           coderGroupChanges := coderGroupChanges st;
           oidcUserCount := oidcUserCount st |}
  else
    let oidcUserCount := S (oidcUserCount st) in
    gGroups <- or_fatal "failed to get Google Groups"
                 (GoogleGroups (User_Email user)) ;;
    cGroups <- or_fatal "failed to get coder groups for user"
                 (Groups {| GroupArguments_Organization := "";
                            GroupArguments_HasMember :=
                              User_Username user |}) ;;
    expected <- ExpectedCoderGroups gGroups ;;
    let '(add, remove) := user_diff defaultOrg cGroups expected in
    ret {| userByID := userByID;
           coderGroupChanges :=
             record_diff user add remove (coderGroupChanges st);
           oidcUserCount := oidcUserCount |}.

Definition defaultOrganization : M Organization :=
  coderOrganizations <- wrap "failed to get coder organizations"
                          Organizations ;;
  match List.find Organization_IsDefault coderOrganizations with
  | Some org => ret org
  | None => throw (Errorf "default organization not found")
  end.

Definition coderGroups (orgID : UUID) : M (gmap string Group) :=
  coderGroupsResp <- wrap "failed to get coder groups"
                       (Groups {| GroupArguments_Organization := orgID;
                                  GroupArguments_HasMember := "" |}) ;;
  ret (foldl (fun groupMap group => <[Group_Name group := group]> groupMap)
             ∅ coderGroupsResp).

(** [uuid.Parse] succeeds on every ID the change set holds, each being
    the text of a user ID. *)
Definition UserIDsToNames (lookup : gmap UUID User) (ids : list string)
  : list string :=
  foldl (fun names idStr =>
           match lookup !! idStr with
           | Some user => names ++ [User_Email user]
           | None => names ++ [idStr]
           end)
        [] ids.

Section Range.
(** The keys of a map in the order a [range] statement visits them.
    Go leaves the order open; it is a permutation of the keys. *)
Variable range_order : RangeOrder.

Definition createMissingGroups_step (org : UUID)
    (st : gmap string Group * ChangeGroupRequests * list Group)
    (group : string)
  : M (gmap string Group * ChangeGroupRequests * list Group) :=
  let '(coderGroups, changes, createdGroups) := st in
  match coderGroups !! group with
  | Some _ => ret st
  | None =>
      (* Group is missing and must be created. *)
      r <- catch (CreateGroup org
                    {| CreateGroupRequest_Name := group;
                       CreateGroupRequest_DisplayName := "";
                       CreateGroupRequest_AvatarURL := "/emojis/1f195.png";
                       CreateGroupRequest_QuotaAllowance := 0 |}) ;;
      match r with
      | inl err =>
          let changes := delete group changes in
          log (LogCreateFailed group err) ;;;
          ret (coderGroups, changes, createdGroups)
      | inr newGroup =>
          ret (<[group := newGroup]> coderGroups, changes,
               createdGroups ++ [newGroup])
      end
  end.

Definition createMissingGroups (org : UUID)
    (coderGroups : gmap string Group) (changes : ChangeGroupRequests)
  : M (gmap string Group * ChangeGroupRequests) :=
  st <- for_each (range_order InCreateMissingGroups changes)
          (createMissingGroups_step org)
          (coderGroups, changes, []) ;;
  let '(coderGroups, changes, createdGroups) := st in
  (if decide (0 < length createdGroups)%nat
   then log (LogCreated createdGroups) else ret tt) ;;;
  ret (coderGroups, changes).

Definition applyGroupChanges_step (lookupUser : gmap UUID User)
    (coderGroups : gmap string Group) (changes : ChangeGroupRequests)
    (_ : unit) (group : string) : M unit :=
  match changes !! group with
  | None => ret tt
  | Some req =>
      match coderGroups !! group with
      | None =>
          throw (Errorf ("group " +:+ group
                         +:+ " not found, unable to apply group sync"))
      | Some coderGroup =>
          _ <- wrap ("failed to patch group " +:+ group)
                 (PatchGroup (Group_ID coderGroup) req) ;;
          log (LogGroupPatched group
                 (UserIDsToNames lookupUser (AddUsers req))
                 (UserIDsToNames lookupUser (RemoveUsers req)))
      end
  end.

Definition applyGroupChanges (org : UUID) (lookupUser : gmap UUID User)
    (coderGroups : gmap string Group) (changes : ChangeGroupRequests)
  : M unit :=
  for_each (range_order InApplyGroupChanges changes)
           (applyGroupChanges_step lookupUser coderGroups changes) tt.

(** The loop of [SyncGroups] over the users, from empty maps. *)
Definition users_loop `{unicode.CaseTables} (s : Sync)
    (defaultOrg : Organization)
    (coderUsers : list User) : M LoopState :=
  for_each coderUsers (user_step s defaultOrg)
           {| userByID := ∅; coderGroupChanges := ∅; oidcUserCount := 0 |}.

Definition SyncGroups `{unicode.CaseTables} (s : Sync) : M unit :=
  defaultOrg <- defaultOrganization ;;
  coderGroups0 <- coderGroups (Organization_ID defaultOrg) ;;
  (* Find all users on Coder *)
  coderUsers <- wrap "failed to get coder users" Users ;;
  st <- users_loop s defaultOrg coderUsers ;;
  if decide (size (coderGroupChanges st) = 0%nat) then
    log (LogNoChanges (oidcUserCount st))
  else
    (* Create missing groups and update our coderGroups map *)
    r <- wrap "failed to create missing groups"
           (createMissingGroups (Organization_ID defaultOrg)
              coderGroups0 (coderGroupChanges st)) ;;
    let '(coderGroups1, coderGroupChanges1) := r in
    (* Apply the changes to the groups *)
    wrap "failed to apply group changes"
      (applyGroupChanges (Organization_ID defaultOrg) (userByID st)
         coderGroups1 coderGroupChanges1).

End Range.

End gcsync.

(** ** The standalone script [main.go]

    The script carries its own copies of [ChangeGroupRequests],
    [ExpectedCoderGroups] and [UserIDsToNames]; they are the same text as
    in [gcsync], and so are the body of its loop over the users and the
    body of its loop creating the missing groups.  What differs is the
    code around them, embedded here. *)

Module script.
Import codersdk request world.
Local Open Scope go_scope.

Section Range.
Variable range_order : RangeOrder.

Definition apply_step (userByID : gmap UUID User)
    (coderGroups : gmap string Group)
    (coderGroupChanges : ChangeGroupRequests)
    (_ : unit) (group : string) : M unit :=
  match coderGroupChanges !! group with
  | None => ret tt
  | Some req =>
      match coderGroups !! group with
      | None =>
          fun w => (Fatal ("group " +:+ group
                           +:+ " not found, does it exist in Coder?"), w)
      | Some coderGroup =>
          _ <- or_fatal ("failed to patch group " +:+ group)
                 (PatchGroup (Group_ID coderGroup) req) ;;
          log (LogGroupPatched group
                 (gcsync.UserIDsToNames userByID (AddUsers req))
                 (gcsync.UserIDsToNames userByID (RemoveUsers req)))
      end
  end.

(** [main], from [client.Organizations] on; [googleWorkspaceDomain] is
    the package variable read from the environment. *)
Definition main `{unicode.CaseTables} (googleWorkspaceDomain : string)
  : M unit :=
  coderOrganizations <- or_fatal "failed to get coder organizations"
                          Organizations ;;
  (* Only syncing groups into the default organization *)
  let defaultOrg :=
    match List.find Organization_IsDefault coderOrganizations with
    | Some org => org
    | None => Organization_zero
    end in
  coderGroupsResp <- or_fatal "failed to get coder groups"
                       (Groups {| GroupArguments_Organization :=
                                    Organization_ID defaultOrg;
                                  GroupArguments_HasMember := "" |}) ;;
  let coderGroups :=
    foldl (fun m group => <[Group_Name group := group]> m)
          ∅ coderGroupsResp in
  (* Find all users on Coder *)
  coderUsers <- or_fatal "failed to get coder users" Users ;;
  st <- gcsync.users_loop
          {| gcsync.EmailDomain := googleWorkspaceDomain |}
          defaultOrg coderUsers ;;
  (* Create missing groups *)
  r <- for_each (range_order InCreateMissingGroups
                   (gcsync.coderGroupChanges st))
         (gcsync.createMissingGroups_step (Organization_ID defaultOrg))
         (coderGroups, gcsync.coderGroupChanges st, []) ;;
  let '(coderGroups, coderGroupChanges, createdGroups) := r in
  if decide (size coderGroupChanges = 0%nat) then
    log (LogNoChanges (gcsync.oidcUserCount st))
  else
    log LogChangesMade ;;;
    (if decide (0 < length createdGroups)%nat
     then log (LogCreated createdGroups) else ret tt) ;;;
    (if decide (0 < size coderGroupChanges)%nat
     then log LogChangesToMemberships else ret tt) ;;;
    (* Add/Remove all the users *)
    for_each (range_order InApplyGroupChanges coderGroupChanges)
      (apply_step (gcsync.userByID st) coderGroups coderGroupChanges) tt.

End Range.

End script.

(** ** Reading a run *)

Module run.
Import codersdk request world.

(** A [range] order that visits every key once. *)
Definition fair (range_order : RangeOrder) : Prop :=
  forall stmt m, range_order stmt m ≡ₚ (map_to_list m).*1.

(** The order of stdpp's [map_to_list], one of the fair orders. *)
Definition key_order : RangeOrder :=
  fun _ m => (map_to_list m).*1.

Definition is_mutation (e : Event) : bool :=
  match e with
  | CallCreateGroup _ _ | CallPatchGroup _ _ => true
  | _ => false
  end.

Definition is_group_listing (e : Event) : bool :=
  match e with
  | CallGroups _ => true
  | _ => false
  end.

Definition mutations (t : list Event) : list Event :=
  List.filter is_mutation t.

(** A world with an empty trace and no failing call. *)
Definition quiet (orgs : list Organization) (gs : list Group)
    (us : list User) (create : UUID -> string -> option UUID)
    (google : string -> option (list admin.Group)) : World :=
  {| organizations := orgs;
     organizations_err := false;
     groups := gs;
     groups_err := fun _ => false;
     users := us;
     users_err := false;
     create_group := create;
     patch_err := fun _ => false;
     google_groups := google;
     trace := [] |}.

End run.

(** ** Package [gcsync], the directory file: reading every page

    [GoogleGroups] and [GoogleUsers] call the directory until a page
    comes without a token for the next one.  The call
    [srv.Groups.List().PageToken(t).UserKey(email).Do()] is the function
    [Groups_List email t], and [srv.Users.List().Customer(id).PageToken(t).Do()]
    is [Users_List id t].  A [for] without condition need not end: the
    loops take the number of turns they may make, and return [None] when
    it is used up. *)

Module directory.
Import world.

(** [admin.User], by its primary email. *)
Record User := { User_PrimaryEmail : string }.

(** [admin.Groups] and [admin.Users]: one page of a listing. *)
Record Groups := {
  Groups_Groups : list admin.Group;
  Groups_NextPageToken : string
}.

Record Users := {
  Users_Users : list User;
  Users_NextPageToken : string
}.

Section Service.

Variable Groups_List : string -> string -> error + Groups.
Variable Users_List : string -> string -> error + Users.

Fixpoint GoogleGroups_loop (turns : nat) (email : string)
    (allGroups : list admin.Group) (pageToken : string)
  : option (error + list admin.Group) :=
  match turns with
  | O => None
  | S turns' =>
      match Groups_List email pageToken with
      | inl err => Some (inl (Wrap "failed to list groups" err))
      | inr googleGroups =>
          let allGroups := allGroups ++ Groups_Groups googleGroups in
          if decide (Groups_NextPageToken googleGroups = "") then
            Some (inr allGroups)
          else
            GoogleGroups_loop turns' email allGroups
              (Groups_NextPageToken googleGroups)
      end
  end.

Definition GoogleGroups (turns : nat) (email : string)
  : option (error + list admin.Group) :=
  GoogleGroups_loop turns email [] "".

Fixpoint GoogleUsers_loop (turns : nat) (customerID : string)
    (allUsers : list User) (pageToken : string)
  : option (error + list User) :=
  match turns with
  | O => None
  | S turns' =>
      match Users_List customerID pageToken with
      | inl err => Some (inl (Wrap "failed to list users" err))
      | inr googleUsers =>
          let allUsers := allUsers ++ Users_Users googleUsers in
          if decide (Users_NextPageToken googleUsers = "") then
            Some (inr allUsers)
          else
            GoogleUsers_loop turns' customerID allUsers
              (Users_NextPageToken googleUsers)
      end
  end.

Definition GoogleUsers (turns : nat) (customerID : string)
  : option (error + list User) :=
  GoogleUsers_loop turns customerID [] "".

End Service.

End directory.

(* ===================================================================== *)
(** * Part II: the vocabulary of the properties                           *)
(* ===================================================================== *)

Module props.
Import codersdk request world gcsync run.

(** The canonical name of a source group. *)
Definition normalize `{unicode.CaseTables} (name : string) : string :=
  Strings.ToLower (Strings.ReplaceAll name " " "").

(** The canonical names of the source groups that have a name. *)
Definition expected_names `{unicode.CaseTables}
    (gGroups : list admin.Group) : list string :=
  map (fun g => normalize (admin.Group_Name g))
      (filter (fun g => admin.Group_Name g <> "") gGroups).

(** The diagnostics for the source groups that have none. *)
Definition skipped_lines (gGroups : list admin.Group) : list Event :=
  map (fun g => Log (LogNoGroupName (admin.Group_Email g)))
      (filter (fun g => admin.Group_Name g = "") gGroups).

(** The world after the events [es] were recorded. *)
Definition emits (es : list Event) (w : World) : World :=
  foldl (fun w e => emit e w) w es.

(** The name of the Everyone group among a user's current groups: the
    (last) group whose ID is the ID of the default organization. *)
Definition everyone_name (defaultOrg : Organization) (cGroups : list Group)
  : string :=
  match last (filter (fun g => Group_ID g = Organization_ID defaultOrg)
                     cGroups) with
  | Some g => Group_Name g
  | None => "Everyone"
  end.

(** The Expected and the Actual set of a user. *)
Definition Expected `{unicode.CaseTables} (defaultOrg : Organization) (cGroups : list Group)
    (gGroups : list admin.Group) : list string :=
  expected_names gGroups ++ [everyone_name defaultOrg cGroups].

Definition Actual (cGroups : list Group) : list string :=
  map Group_Name cGroups.

(** Two lists with the same elements, whatever their order and
    multiplicities. *)
Definition same_set (l k : list string) : Prop :=
  forall x, x ∈ l <-> x ∈ k.

(** The arguments of the listing of a user's current groups. *)
Definition member_args (user : User) : GroupArguments :=
  {| GroupArguments_Organization := "";
     GroupArguments_HasMember := User_Username user |}.

(** The groups that listing returns in the world [w]. *)
Definition cGroups_of (w : World) (user : User) : list Group :=
  filter (group_matches w (member_args user)) (groups w).

(** What the loop keeps of its state besides the lookup table used for
    the log lines. *)
Definition progress (st : LoopState) : gmap string PatchGroupRequest * nat :=
  (coderGroupChanges st, oidcUserCount st).

Definition outcome_map {A B} (f : A -> B) (o : Outcome A) : Outcome B :=
  match o with
  | Ok a => Ok (f a)
  | Err e => Err e
  | Fatal msg => Fatal msg
  end.

(** The state of the loop after an eligible user whose source groups
    are [gGroups] and whose current groups are [cGroups]. *)
Definition after_user `{unicode.CaseTables} (defaultOrg : Organization) (st : LoopState)
    (user : User) (gGroups : list admin.Group) (cGroups : list Group)
  : LoopState :=
  {| userByID := <[User_ID user := user]> (userByID st);
     coderGroupChanges :=
       record_diff user
         (slice.Difference (Expected defaultOrg cGroups gGroups)
                           (Actual cGroups))
         (slice.Difference (Actual cGroups)
                           (Expected defaultOrg cGroups gGroups))
         (coderGroupChanges st);
     oidcUserCount := S (oidcUserCount st) |}.

(** The state of the loop after a user that is not eligible. *)
Definition after_skipped (st : LoopState) (user : User) : LoopState :=
  {| userByID := <[User_ID user := user]> (userByID st);
     coderGroupChanges := coderGroupChanges st;
     oidcUserCount := oidcUserCount st |}.

(** The request [createMissingGroups] sends for a missing group. *)
Definition create_request (group : string) : CreateGroupRequest :=
  {| CreateGroupRequest_Name := group;
     CreateGroupRequest_DisplayName := "";
     CreateGroupRequest_AvatarURL := "/emojis/1f195.png";
     CreateGroupRequest_QuotaAllowance := 0 |}.

(** The group the server answers with. *)
Definition created_group (org : UUID) (group : string) (id : UUID) : Group :=
  {| Group_ID := id; Group_Name := group;
     Group_OrganizationID := org; Group_Members := [] |}.

(** The group [group] is missing from the snapshot and the server
    refuses to create it. *)
Definition creation_fails (w : World) (org : UUID)
    (coderGroups : gmap string Group) (group : string) : Prop :=
  coderGroups !! group = None /\ create_group w org group = None.

#[global] Instance creation_fails_dec w org coderGroups group :
  Decision (creation_fails w org coderGroups group).
Proof. unfold creation_fails. apply _. Defined.

(** What one turn of the creation loop records for the key [group]. *)
Definition create_events (w : World) (org : UUID)
    (coderGroups : gmap string Group) (group : string) : list Event :=
  match coderGroups !! group with
  | Some _ => []
  | None =>
      match create_group w org group with
      | None => [CallCreateGroup org (create_request group);
                 Log (LogCreateFailed group (ApiError "CreateGroup"))]
      | Some _ => [CallCreateGroup org (create_request group)]
      end
  end.

(** The groups one turn of the creation loop creates. *)
Definition create_groups (w : World) (org : UUID)
    (coderGroups : gmap string Group) (group : string) : list Group :=
  match coderGroups !! group with
  | Some _ => []
  | None =>
      match create_group w org group with
      | None => []
      | Some id => [created_group org group id]
      end
  end.

(** What one turn of the loop of [applyGroupChanges] records when the
    patch succeeds. *)
Definition patch_events (lookupUser : gmap UUID User)
    (coderGroups : gmap string Group) (changes : gmap string PatchGroupRequest)
    (group : string) : list Event :=
  match changes !! group, coderGroups !! group with
  | Some req, Some coderGroup =>
      [CallPatchGroup (Group_ID coderGroup) req;
       Log (LogGroupPatched group
              (UserIDsToNames lookupUser (AddUsers req))
              (UserIDsToNames lookupUser (RemoveUsers req)))]
  | _, _ => []
  end.

(** The services of two worlds answer alike: they may differ in the
    groups and in the trace only. *)
Definition same_services (w w' : World) : Prop :=
  organizations w' = organizations w
  /\ organizations_err w' = organizations_err w
  /\ groups_err w' = groups_err w
  /\ users w' = users w
  /\ users_err w' = users_err w
  /\ create_group w' = create_group w
  /\ patch_err w' = patch_err w
  /\ google_groups w' = google_groups w.

(** The server accepts a patch of the group [id]: the call does not
    fail and the group exists. *)
Definition patch_accepted (w : World) (id : UUID) : bool :=
  negb (patch_err w id)
  && bool_decide (is_Some (List.find (fun g => bool_decide (Group_ID g = id))
                                     (groups w))).

(** The groups after an accepted patch of the group [id]. *)
Definition patched_groups (id : UUID) (req : PatchGroupRequest)
    (gs : list Group) : list Group :=
  map (fun g => if decide (Group_ID g = id) then patch_members req g else g)
      gs.

(** The error [applyGroupChanges] returns when a patch is refused. *)
Definition patch_error (group : string) : error :=
  Wrap ("failed to patch group " +:+ group) (ApiError "PatchGroup").

(** The groups [createMissingGroups] creates. *)
Definition created_groups
    (range_order : RangeOrder)
    (w : World) (org : UUID) (coderGroups : gmap string Group)
    (changes : gmap string PatchGroupRequest) : list Group :=
  flat_map (create_groups w org coderGroups)
           (range_order InCreateMissingGroups changes).

(** What [createMissingGroups] records. *)
Definition creation_trace
    (range_order : RangeOrder)
    (w : World) (org : UUID) (coderGroups : gmap string Group)
    (changes : gmap string PatchGroupRequest) : list Event :=
  flat_map (create_events w org coderGroups)
           (range_order InCreateMissingGroups changes)
  ++ match created_groups range_order w org coderGroups changes with
     | [] => []
     | createdGroups => [Log (LogCreated createdGroups)]
     end.

(** The worlds [w] and [w'] differ in their traces only. *)
Definition same_state (w w' : World) : Prop :=
  same_services w w' /\ groups w' = groups w.

(** The source groups of a user (none when the directory fails). *)
Definition source_groups (w : World) (user : User) : list admin.Group :=
  default [] (google_groups w (User_Email user)).

(** The two fetches for a user succeed. *)
Definition fetch_ok (w : World) (user : User) : Prop :=
  is_Some (google_groups w (User_Email user))
  /\ groups_err w (member_args user) = false.

(** The lists to add and to remove of a user in the world [w]. *)
Definition toAdd `{unicode.CaseTables} (defaultOrg : Organization) (w : World) (user : User)
  : list string :=
  slice.Difference
    (Expected defaultOrg (cGroups_of w user) (source_groups w user))
    (Actual (cGroups_of w user)).

Definition toRemove `{unicode.CaseTables} (defaultOrg : Organization) (w : World) (user : User)
  : list string :=
  slice.Difference
    (Actual (cGroups_of w user))
    (Expected defaultOrg (cGroups_of w user) (source_groups w user)).

(** What the turn of the loop for a user records. *)
Definition user_events (s : Sync) (w : World) (user : User) : list Event :=
  if eligible s user then
    [CallGoogleGroups (User_Email user); CallGroups (member_args user)]
    ++ skipped_lines (source_groups w user)
  else [].

(** The state of the loop after the users [coderUsers], all fetches
    succeeding. *)
Definition loop_state `{unicode.CaseTables} (s : Sync) (defaultOrg : Organization) (w : World)
    (coderUsers : list User) (st : LoopState) : LoopState :=
  foldl (fun st user =>
           if eligible s user
           then after_user defaultOrg st user (source_groups w user)
                           (cGroups_of w user)
           else after_skipped st user)
        st coderUsers.

(** The state the loop starts from. *)
Definition loop_init : LoopState :=
  {| userByID := ∅; coderGroupChanges := ∅; oidcUserCount := 0 |}.

(** An event of the loop over the users, or of the calls before it. *)
Definition is_read (e : Event) : bool :=
  match e with
  | CallOrganizations | CallGroups _ | CallUsers | CallGoogleGroups _
  | Log (LogNoGroupName _) => true
  | _ => false
  end.

(** The arguments of the listing of the groups of an organization. *)
Definition org_args (orgID : UUID) : GroupArguments :=
  {| GroupArguments_Organization := orgID; GroupArguments_HasMember := "" |}.

(** The groups that listing returns in the world [w]. *)
Definition org_groups (w : World) (orgID : UUID) : list Group :=
  filter (group_matches w (org_args orgID)) (groups w).

(** The map from names to groups that [coderGroups] builds. *)
Definition snapshot (gs : list Group) : gmap string Group :=
  foldl (fun groupMap group => <[Group_Name group := group]> groupMap) ∅ gs.

(** What a run records up to the end of the loop over the users. *)
Definition read_events (s : Sync) (defaultOrg : Organization) (w : World)
  : list Event :=
  [CallOrganizations; CallGroups (org_args (Organization_ID defaultOrg));
   CallUsers]
  ++ flat_map (user_events s w) (users w).

(** Every read of a run succeeds in the world [w], whose default
    organization is [defaultOrg]. *)
Definition reads_ok (s : Sync) (defaultOrg : Organization) (w : World)
  : Prop :=
  organizations_err w = false
  /\ List.find Organization_IsDefault (organizations w) = Some defaultOrg
  /\ groups_err w (org_args (Organization_ID defaultOrg)) = false
  /\ users_err w = false
  /\ (forall u, u ∈ users w -> eligible s u = true -> fetch_ok w u).

(** The change set at the end of the loop over the users. *)
Definition loop_changes `{unicode.CaseTables} (s : Sync) (defaultOrg : Organization) (w : World)
  : gmap string PatchGroupRequest :=
  coderGroupChanges (loop_state s defaultOrg w (users w) loop_init).

(** An event of [createMissingGroups]. *)
Definition is_creation (e : Event) : bool :=
  match e with
  | CallCreateGroup _ _ | Log (LogCreateFailed _ _) | Log (LogCreated _) => true
  | _ => false
  end.

(** An event of [applyGroupChanges]. *)
Definition is_application (e : Event) : bool :=
  match e with
  | CallPatchGroup _ _ | Log (LogGroupPatched _ _ _) => true
  | _ => false
  end.

(** The map [cg] from names to groups and the list [gs] of groups agree,
    and neither a name nor an ID occurs twice in [gs]. *)
Definition registry (cg : gmap string Group) (gs : list Group) : Prop :=
  NoDup (map Group_Name gs)
  /\ NoDup (map Group_ID gs)
  /\ (forall n g, cg !! n = Some g <-> g ∈ gs /\ Group_Name g = n).

(** One turn of the loop of [applyGroupChanges] on the groups of the
    server, when the patch is accepted. *)
Definition patch_step (cg : gmap string Group)
    (ch : gmap string PatchGroupRequest) (gs : list Group) (k : string)
  : list Group :=
  match ch !! k, cg !! k with
  | Some req, Some g => patched_groups (Group_ID g) req gs
  | _, _ => gs
  end.

(** A group after the entry of its name in the change set [ch] has been
    applied to it. *)
Definition patch_by_name (ch : gmap string PatchGroupRequest) (g : Group)
  : Group :=
  patch_members (index ch (Group_Name g)) g.

(** A deployment on which a run converges: the groups all belong to the
    default organization [defaultOrg] and have distinct names and IDs, the
    users have distinct IDs and distinct, non-empty handles, every
    eligible user is a member of the Everyone group of the organization
    when that group exists, and the server accepts to create any group
    whose name is not taken, under a new ID. *)
Record well_formed (s : Sync) (defaultOrg : Organization) (w : World)
  : Prop := {
  wf_default :
    List.find Organization_IsDefault (organizations w) = Some defaultOrg;
  wf_scope :
    forall g, g ∈ groups w ->
      Group_OrganizationID g = Organization_ID defaultOrg;
  wf_names : NoDup (map Group_Name (groups w));
  wf_ids : NoDup (map Group_ID (groups w));
  wf_user_ids : NoDup (map User_ID (users w));
  wf_handles : NoDup (map User_Username (users w));
  wf_handle : forall u, u ∈ users w -> User_Username u <> "";
  wf_everyone :
    forall g u, g ∈ groups w ->
      Group_ID g = Organization_ID defaultOrg ->
      u ∈ users w -> eligible s u = true ->
      User_ID u ∈ Group_Members g;
  wf_create :
    forall name, name ∉ map Group_Name (groups w) ->
      exists id,
        create_group w (Organization_ID defaultOrg) name = Some id
        /\ id <> Organization_ID defaultOrg
        /\ id ∉ map Group_ID (groups w);
  wf_create_inj :
    forall n1 n2 id,
      create_group w (Organization_ID defaultOrg) n1 = Some id ->
      create_group w (Organization_ID defaultOrg) n2 = Some id ->
      n1 = n2
}.

(** The events a run adds to the trace of the world it starts in. *)
Definition new_events (w : World) (r : Outcome unit * World) : list Event :=
  drop (length (trace w)) (trace r.2).


(** The pages the directory returns for [email] from the token [t] on,
    up to the first page without a next token. *)
Inductive group_pages (Groups_List : string -> string -> error + directory.Groups)
    (email : string) : string -> list directory.Groups -> Prop :=
| group_pages_last t p :
    Groups_List email t = inr p ->
    directory.Groups_NextPageToken p = "" ->
    group_pages Groups_List email t [p]
| group_pages_more t p ps :
    Groups_List email t = inr p ->
    directory.Groups_NextPageToken p <> "" ->
    group_pages Groups_List email (directory.Groups_NextPageToken p) ps ->
    group_pages Groups_List email t (p :: ps).

Inductive user_pages (Users_List : string -> string -> error + directory.Users)
    (customerID : string) : string -> list directory.Users -> Prop :=
| user_pages_last t p :
    Users_List customerID t = inr p ->
    directory.Users_NextPageToken p = "" ->
    user_pages Users_List customerID t [p]
| user_pages_more t p ps :
    Users_List customerID t = inr p ->
    directory.Users_NextPageToken p <> "" ->
    user_pages Users_List customerID (directory.Users_NextPageToken p) ps ->
    user_pages Users_List customerID t (p :: ps).

(** The pages from the token [t] on, the last of which fails with
    [err]: pages that each announce a next one, then the failure. *)
Inductive group_pages_fail
    (Groups_List : string -> string -> error + directory.Groups)
    (email : string) (err : error) : string -> list directory.Groups -> Prop :=
| group_pages_fail_now t :
    Groups_List email t = inl err ->
    group_pages_fail Groups_List email err t []
| group_pages_fail_later t p ps :
    Groups_List email t = inr p ->
    directory.Groups_NextPageToken p <> "" ->
    group_pages_fail Groups_List email err
      (directory.Groups_NextPageToken p) ps ->
    group_pages_fail Groups_List email err t (p :: ps).


(** The worlds [w] and [w'] hold the same state and the same requests
    that change it have been sent, in the same order; their traces may
    differ in the reads and in the log lines. *)
Definition same_effects (w w' : World) : Prop :=
  same_state w w' /\ mutations (trace w') = mutations (trace w).

(** A string of ASCII bytes. *)
Definition ascii_only (s : string) : Prop :=
  forall c, c ∈ String.list_ascii_of_string s -> (nat_of_ascii c < 128)%nat.

(** The runes that have a UTF-8 encoding: the Unicode scalar values, from
    U+0000 to U+10FFFF without the surrogate halves U+D800 to U+DFFF. *)
Definition scalar (r : Z) : Prop :=
  (0 <= r < 55296 \/ 57343 < r <= 1114111)%Z.

(** The UTF-8 encoding of a scalar value, in one to four bytes. *)
Definition encoding (r : Z) : list Z :=
  if (r <? 128)%Z then [r]
  else if (r <? 2048)%Z then [192 + r / 64; 128 + r mod 64]%Z
  else if (r <? 65536)%Z then
    [224 + r / 4096; 128 + (r / 64) mod 64; 128 + r mod 64]%Z
  else
    [240 + r / 262144; 128 + (r / 4096) mod 64;
     128 + (r / 64) mod 64; 128 + r mod 64]%Z.

(** The string that is the UTF-8 text of the runes [rs]. *)
Definition text (rs : list Z) : string :=
  utf8.of_bytes (flat_map encoding rs).

End props.

(** ** Deployments used as witnesses and as failing inputs *)

Module examples.
Import codersdk request world gcsync run props.

(** The deployment of the README: one organization, its Everyone group,
    [catlovers], and alice, who signs in through Google. *)
Definition org_default : Organization :=
  {| Organization_ID := "org-default"; Organization_IsDefault := true |}.

Definition alice : User :=
  {| User_ID := "id-alice"; User_Username := "alice";
     User_Email := "alice@example.com"; User_LoginType := "oidc" |}.

(** A user with a password login and a user of another domain. *)
Definition bob : User :=
  {| User_ID := "id-bob"; User_Username := "bob";
     User_Email := "bob@example.com"; User_LoginType := "password" |}.

Definition carol : User :=
  {| User_ID := "id-carol"; User_Username := "carol";
     User_Email := "carol@elsewhere.org"; User_LoginType := "oidc" |}.

Definition group_everyone : Group :=
  {| Group_ID := "org-default"; Group_Name := "Everyone";
     Group_OrganizationID := "org-default";
     Group_Members := ["id-alice"; "id-bob"; "id-carol"] |}.

Definition group_catlovers : Group :=
  {| Group_ID := "id-catlovers"; Group_Name := "catlovers";
     Group_OrganizationID := "org-default";
     Group_Members := ["id-alice"] |}.

Definition dog_lovers : admin.Group :=
  {| admin.Group_Name := "Dog Lovers";
     admin.Group_Email := "dog-lovers@example.com" |}.

Definition cat_lovers : admin.Group :=
  {| admin.Group_Name := "Cat Lovers";
     admin.Group_Email := "cat-lovers@example.com" |}.

(** In the directory alice belongs to "Dog Lovers". *)
Definition directory_dogs (email : string) : option (list admin.Group) :=
  if String.eqb email "alice@example.com" then Some [dog_lovers] else Some [].

(** In the directory alice belongs to "Cat Lovers". *)
Definition directory_cats (email : string) : option (list admin.Group) :=
  if String.eqb email "alice@example.com" then Some [cat_lovers] else Some [].

(** A server that accepts every new group and gives it the ID
    ["id-" ++ name]. *)
Definition create_any (org : UUID) (name : string) : option UUID :=
  Some ("id-" +:+ name).

(** A server that refuses every new group. *)
Definition create_none (org : UUID) (name : string) : option UUID := None.

Definition sync_example : Sync := {| EmailDomain := "example.com" |}.

Definition state0 : LoopState :=
  {| userByID := ∅; coderGroupChanges := ∅; oidcUserCount := 0 |}.

(** The README run: alice moves from [catlovers] to [doglovers]. *)
Definition world_readme : World :=
  quiet [org_default] [group_everyone; group_catlovers] [alice; bob; carol]
        create_any directory_dogs.

(** The change set that one entry for the directory group "Dog Lovers"
    and one for [catlovers] make. *)
Definition changes_example : gmap string PatchGroupRequest :=
  RemoveUser (AddUser ∅ "doglovers" "id-alice") "catlovers" "id-alice".

(** The snapshot of the groups of the README deployment. *)
Definition snapshot_example : gmap string Group :=
  <["catlovers" := group_catlovers]>
    (<["Everyone" := group_everyone]> ∅).

(** The README deployment with a server that refuses to create
    groups. *)
Definition world_refusing : World :=
  quiet [org_default]
        [group_everyone; group_catlovers]
        [alice; bob; carol]
        create_none directory_dogs.

(** A deployment whose only organization is not marked default. *)
Definition org_unmarked : Organization :=
  {| Organization_ID := "org-default"; Organization_IsDefault := false |}.

Definition world_no_default : World :=
  quiet [org_unmarked] [group_everyone; group_catlovers] [alice]
        create_none directory_dogs.

(** alice is in the Everyone group only, the directory has her in
    "Dog Lovers", and the server refuses to create groups. *)
Definition world_dogs_refused : World :=
  quiet [org_default] [group_everyone] [alice] create_none directory_dogs.

(** A deployment with a second organization; alice belongs to its group
    [secret], and to no group of the directory. *)
Definition org_other : Organization :=
  {| Organization_ID := "org-other"; Organization_IsDefault := false |}.

Definition group_secret : Group :=
  {| Group_ID := "id-other-secret"; Group_Name := "secret";
     Group_OrganizationID := "org-other"; Group_Members := ["id-alice"] |}.

Definition directory_empty (email : string) : option (list admin.Group) :=
  Some [].

Definition world_two_orgs : World :=
  quiet [org_default; org_other] [group_everyone; group_secret] [alice]
        create_any directory_empty.

(** The README deployment after the move: alice is in [doglovers]. *)
Definition group_doglovers : Group :=
  {| Group_ID := "id-doglovers"; Group_Name := "doglovers";
     Group_OrganizationID := "org-default";
     Group_Members := ["id-alice"] |}.

Definition world_steady : World :=
  quiet [org_default] [group_everyone; group_doglovers] [alice; bob; carol]
        create_any directory_dogs.


(** A directory that answers every call for the groups of a user with an
    empty page and the same token for a next page. *)
Definition service_looping (email pageToken : string)
  : error + directory.Groups :=
  inr {| directory.Groups_Groups := [];
         directory.Groups_NextPageToken := "again" |}.

(** An order that creates the missing groups in the order of
    [key_order] and patches the groups in the reverse order. *)
Definition creating_then_reversed : RangeOrder :=
  fun stmt m =>
    match stmt with
    | InCreateMissingGroups => key_order stmt m
    | InApplyGroupChanges => rev (key_order stmt m)
    end.

(** The lower-case mapping of the Latin-1 Supplement, an excerpt of the
    case tables: the letters U+00C0 to U+00DE, but for the sign U+00D7,
    are moved by 32; it keeps every other rune. *)
Definition latin1_tables : unicode.CaseTables :=
  fun r =>
    if ((192 <=? r) && (r <=? 222) && negb (r =? 215))%Z then (r + 32)%Z
    else r.

(** The name "ÉCOLE Des Arts"; its first letter, U+00C9, is the two
    bytes 195 and 137. *)
Definition ecole_des_arts : string :=
  String "195" (String "137" "COLE Des Arts").

End examples.

(* ===================================================================== *)
(** * Part III: properties                                                *)
(* ===================================================================== *)

Import codersdk request world gcsync run props examples.

Section Properties.

(** The lower-case mapping of the case tables: everything below holds
    for every such mapping. *)
Context {tables : unicode.CaseTables}.

(** ** The change set ([request.go]) *)

Lemma AddUser_lookup (c : gmap string PatchGroupRequest) (g u : string) :
  AddUser c g u !! g =
    Some {| AddUsers := AddUsers (index c g) ++ [u];
            RemoveUsers := RemoveUsers (index c g) |}.
Proof.
  unfold AddUser, index.
  destruct (c !! g) as [req|] eqn:E.
  - rewrite lookup_insert_eq, E. done.
  - rewrite lookup_insert_eq. rewrite lookup_insert_eq. done.
Qed.

Lemma AddUser_lookup_ne (c : gmap string PatchGroupRequest) (g g' u : string) :
  g' <> g -> AddUser c g u !! g' = c !! g'.
Proof.
  intros Hne. unfold AddUser.
  destruct (c !! g); rewrite !lookup_insert_ne by congruence; done.
Qed.

Lemma RemoveUser_lookup (c : gmap string PatchGroupRequest) (g u : string) :
  RemoveUser c g u !! g =
    Some {| AddUsers := AddUsers (index c g);
            RemoveUsers := RemoveUsers (index c g) ++ [u] |}.
Proof.
  unfold RemoveUser, index.
  destruct (c !! g) as [req|] eqn:E.
  - rewrite lookup_insert_eq, E. done.
  - rewrite lookup_insert_eq. rewrite lookup_insert_eq. done.
Qed.

Lemma RemoveUser_lookup_ne (c : gmap string PatchGroupRequest)
    (g g' u : string) :
  g' <> g -> RemoveUser c g u !! g' = c !! g'.
Proof.
  intros Hne. unfold RemoveUser.
  destruct (c !! g); rewrite !lookup_insert_ne by congruence; done.
Qed.

(** C10.  [AddUser c g u] appends [u] to the [AddUsers] list of the entry
    of [g] (the entry is the empty request when [g] was absent), keeps the
    [RemoveUsers] list of that entry and keeps the entry of every other
    group; [RemoveUser c g u] appends [u] to the [RemoveUsers] list of the
    entry of [g], keeps its [AddUsers] list and keeps every other
    entry. *)
Theorem AddUser_RemoveUser_frame
    (c : gmap string PatchGroupRequest) (g u : string) :
  (AddUsers (index (AddUser c g u) g) = AddUsers (index c g) ++ [u]
   /\ RemoveUsers (index (AddUser c g u) g) = RemoveUsers (index c g)
   /\ (c !! g = None ->
       AddUser c g u !! g = Some {| AddUsers := [u]; RemoveUsers := [] |})
   /\ (forall g', g' <> g -> AddUser c g u !! g' = c !! g'))
  /\
  (RemoveUsers (index (RemoveUser c g u) g) = RemoveUsers (index c g) ++ [u]
   /\ AddUsers (index (RemoveUser c g u) g) = AddUsers (index c g)
   /\ (c !! g = None ->
       RemoveUser c g u !! g = Some {| AddUsers := []; RemoveUsers := [u] |})
   /\ (forall g', g' <> g -> RemoveUser c g u !! g' = c !! g')).
Proof.
  split.
  - unfold index at 1 3. rewrite AddUser_lookup. simpl.
    repeat split; try done.
    + intros E. unfold index. rewrite E. done.
    + intros g'. apply AddUser_lookup_ne.
  - unfold index at 1 3. rewrite RemoveUser_lookup. simpl.
    repeat split; try done.
    + intros E. unfold index. rewrite E. done.
    + intros g'. apply RemoveUser_lookup_ne.
Qed.

(** ** Recording events *)

Lemma emits_nil w : emits [] w = w.
Proof. done. Qed.

Lemma emits_cons e es w : emits (e :: es) w = emits es (emit e w).
Proof. done. Qed.

Lemma emits_app es1 es2 w : emits (es1 ++ es2) w = emits es2 (emits es1 w).
Proof. unfold emits. apply foldl_app. Qed.

Lemma trace_emits es w : trace (emits es w) = trace w ++ es.
Proof.
  revert w. induction es as [|e es IH]; intros w.
  - simpl. by rewrite app_nil_r.
  - rewrite emits_cons, IH. simpl. by rewrite <- app_assoc.
Qed.

(** ** Name normalisation and the expected names *)

Lemma ascii_only_nil : ascii_only "".
Proof. intros c Hc. by apply elem_of_nil in Hc. Qed.

Lemma ascii_only_cons (c : ascii) (r : string) :
  ascii_only (String c r) <-> (nat_of_ascii c < 128)%nat /\ ascii_only r.
Proof.
  unfold ascii_only. cbn [String.list_ascii_of_string]. split.
  - intros H. split; [apply H, list_elem_of_here|].
    intros c' Hc'. apply H. by apply list_elem_of_further.
  - intros [Hc Hr] c' Hc'. apply elem_of_cons in Hc' as [->|Hc']; auto.
Qed.

Lemma ascii_only_app (a b : string) :
  ascii_only (a +:+ b) <-> ascii_only a /\ ascii_only b.
Proof.
  induction a as [|c r IH].
  - split; [|by intros [_ ?]]. intros H. split; [apply ascii_only_nil|done].
  - change (String c r +:+ b) with (String c (r +:+ b)).
    rewrite !ascii_only_cons, IH. tauto.
Qed.

(** The test [isASCII] of [strings.ToLower]. *)
Lemma isASCII_iff (s : string) :
  forallb (fun c => (c <? utf8.RuneSelf)%Z) (utf8.bytes s) = true
  <-> ascii_only s.
Proof.
  induction s as [|c r IH]; [by split; [intros _; apply ascii_only_nil|]|].
  rewrite ascii_only_cons, <- IH.
  unfold utf8.bytes. cbn [String.list_ascii_of_string map forallb].
  rewrite andb_true_iff, Z.ltb_lt.
  unfold nat_of_ascii, utf8.RuneSelf. split; intros [? ?]; split; try done; lia.
Qed.

Lemma lower_ascii_no_upper (s : string) :
  existsb (fun c => (65 <=? c)%Z && (c <=? 90)%Z) (utf8.bytes s) = false ->
  Strings.lower_ascii s = s.
Proof.
  induction s as [|c r IH]; [done|].
  unfold utf8.bytes. cbn [String.list_ascii_of_string map existsb].
  intros H. apply orb_false_iff in H as [Hc Hr].
  cbn [Strings.lower_ascii]. rewrite (IH Hr). f_equal.
  unfold Strings.lower_byte. cbv zeta.
  destruct ((65 <=? nat_of_ascii c)%nat && (nat_of_ascii c <=? 90)%nat)
    eqn:E; [|done].
  apply andb_true_iff in E as [E1 E2].
  apply Nat.leb_le in E1. apply Nat.leb_le in E2.
  apply andb_false_iff in Hc as [Hc|Hc]; apply Z.leb_gt in Hc;
    unfold nat_of_ascii in *; lia.
Qed.

(** On a string of ASCII bytes [strings.ToLower] takes its fast path. *)
Lemma ToLower_ascii (s : string) :
  ascii_only s -> Strings.ToLower s = Strings.lower_ascii s.
Proof.
  intros Hs. unfold Strings.ToLower.
  rewrite (proj2 (isASCII_iff s) Hs).
  destruct (existsb _ _) eqn:E; [done|].
  simpl. symmetry. by apply lower_ascii_no_upper.
Qed.

Lemma ToLower_not_ascii (s : string) :
  ~ ascii_only s -> Strings.ToLower s = Strings.Map unicode.ToLower s.
Proof.
  intros Hs. unfold Strings.ToLower.
  destruct (forallb _ _) eqn:E; [|done].
  by apply isASCII_iff in E.
Qed.

Lemma ReplaceAll_bytes (name : string) :
  String.list_ascii_of_string (Strings.ReplaceAll name " " "")
  = List.filter (fun c => negb (Ascii.eqb c " "))
                (String.list_ascii_of_string name).
Proof.
  induction name as [|c r IH]; [done|].
  simpl. destruct (Ascii.eqb c " ") eqn:E; simpl.
  - exact IH.
  - by rewrite IH.
Qed.

Lemma ascii_only_ReplaceAll (name : string) :
  ascii_only (Strings.ReplaceAll name " " "") <-> ascii_only name.
Proof.
  unfold ascii_only. rewrite ReplaceAll_bytes. split.
  - intros H c Hc. destruct (Ascii.eqb c " ") eqn:E.
    + apply Ascii.eqb_eq in E. subst c.
      change (nat_of_ascii " ") with 32%nat. lia.
    + apply H. apply list_elem_of_In, filter_In. split.
      * by apply list_elem_of_In.
      * by rewrite E.
  - intros H c Hc. apply list_elem_of_In, filter_In in Hc as [Hc _].
    by apply H, list_elem_of_In.
Qed.

Lemma lower_ascii_bytes (s : string) :
  String.list_ascii_of_string (Strings.lower_ascii s)
  = map Strings.lower_byte (String.list_ascii_of_string s).
Proof. induction s as [|c r IH]; [done|]. simpl. by rewrite IH. Qed.

Lemma normalize_ascii (name : string) :
  ascii_only name ->
  normalize name = Strings.lower_ascii (Strings.ReplaceAll name " " "").
Proof.
  intros H. unfold normalize. apply ToLower_ascii.
  by apply ascii_only_ReplaceAll.
Qed.

Lemma normalize_bytes (name : string) :
  ascii_only name ->
  String.list_ascii_of_string (normalize name) =
    map Strings.lower_byte
        (List.filter (fun c => negb (Ascii.eqb c " "))
                     (String.list_ascii_of_string name)).
Proof.
  intros H. by rewrite normalize_ascii, lower_ascii_bytes, ReplaceAll_bytes.
Qed.

Lemma lower_byte_not_space c :
  c <> " "%char -> Strings.lower_byte c <> " "%char.
Proof.
  intros Hc. unfold Strings.lower_byte.
  destruct (_ && _) eqn:E; [|done].
  apply andb_true_iff in E as [E1 E2].
  apply Nat.leb_le in E1. apply Nat.leb_le in E2.
  intros H. apply (f_equal nat_of_ascii) in H.
  rewrite nat_ascii_embedding in H by lia.
  change (nat_of_ascii " ") with 32%nat in H. lia.
Qed.

Lemma normalize_no_space (name : string) :
  ascii_only name ->
  " "%char ∉ String.list_ascii_of_string (normalize name).
Proof.
  intros Ha. rewrite normalize_bytes by done. intros H.
  apply list_elem_of_fmap in H as (c & Hc & Hin).
  apply list_elem_of_In, filter_In in Hin as [_ Hne].
  apply negb_true_iff, Ascii.eqb_neq in Hne.
  by apply (lower_byte_not_space c).
Qed.

Lemma ExpectedCoderGroups_loop_run (gGroups : list admin.Group)
    (expected : list string) (w : World) :
  ExpectedCoderGroups_loop gGroups expected w =
    (Ok (expected ++ expected_names gGroups),
     emits (skipped_lines gGroups) w).
Proof.
  revert expected w.
  induction gGroups as [|g gs IH]; intros expected w.
  - simpl. by rewrite app_nil_r.
  - simpl. unfold expected_names, skipped_lines.
    destruct (decide (admin.Group_Name g = "")) as [E|E].
    + unfold bind, log. rewrite IH.
      rewrite filter_cons_False by (intros H; by apply H).
      rewrite filter_cons_True by done.
      done.
    + rewrite IH.
      rewrite filter_cons_True by done.
      rewrite filter_cons_False by done.
      simpl. by rewrite <- app_assoc.
Qed.

(** ** UTF-8: the encoder and the decoder on scalar values *)

Section utf8_facts.
Local Open Scope Z_scope.

Ltac zbool :=
  repeat match goal with
  | H : (_ <? _)%Z = true |- _ => apply Z.ltb_lt in H
  | H : (_ <? _)%Z = false |- _ => apply Z.ltb_ge in H
  | H : (_ <=? _)%Z = true |- _ => apply Z.leb_le in H
  | H : (_ <=? _)%Z = false |- _ => apply Z.leb_gt in H
  | H : (_ =? _)%Z = true |- _ => apply Z.eqb_eq in H
  | H : (_ =? _)%Z = false |- _ => apply Z.eqb_neq in H
  | H : (_ && _) = true |- _ => apply andb_true_iff in H as [? ?]
  | H : (_ && _) = false |- _ => apply andb_false_iff in H as [?|?]
  | H : (_ || _) = true |- _ => apply orb_true_iff in H as [?|?]
  | H : (_ || _) = false |- _ => apply orb_false_iff in H as [? ?]
  end.

Ltac zcases := repeat (case_match; zbool; try lia).

Ltac euclid := Z.to_euclidean_division_equations; lia.
Lemma lor_add (hi lo n : Z) :
  0 <= n -> 0 <= lo < 2 ^ n -> Z.lor (hi * 2 ^ n) lo = hi * 2 ^ n + lo.
Proof.
  intros Hn Hlo.
  assert (Z.land (hi * 2 ^ n) lo = 0) as Hland.
  { apply Z.bits_inj'. intros i Hi.
    rewrite Z.land_spec, Z.bits_0.
    destruct (Z.lt_ge_cases i n) as [Hlt|Hge].
    - by rewrite Z.mul_pow2_bits_low.
    - rewrite <- (Z.mod_small lo (2 ^ n)) by done.
      rewrite Z.mod_pow2_bits_high by lia. apply andb_false_r. }
  rewrite <- Z.lxor_lor by done. symmetry. by apply Z.add_nocarry_lxor.
Qed.

Lemma land_low (x n : Z) : 0 <= n -> Z.land x (2 ^ n - 1) = x mod 2 ^ n.
Proof.
  intros Hn. rewrite <- Z.land_ones by done.
  by rewrite Z.ones_equiv, <- Z.sub_1_r.
Qed.

Lemma AppendRune_1 (r : Z) :
  0 <= r <= 127 -> utf8.AppendRune r = [r].
Proof.
  intros Hr. unfold utf8.AppendRune, utf8.byte. cbv zeta.
  rewrite (Z.mod_small r 4294967296) by lia.
  rewrite (proj2 (Z.leb_le r 127)) by lia.
  by rewrite Z.mod_small by lia.
Qed.

Lemma AppendRune_2 (r : Z) :
  128 <= r <= 2047 ->
  utf8.AppendRune r = [192 + r / 64; 128 + r mod 64].
Proof.
  intros Hr. unfold utf8.AppendRune, utf8.byte. cbv zeta.
  rewrite (Z.mod_small r 4294967296) by lia.
  rewrite (proj2 (Z.leb_gt r 127)) by lia.
  rewrite (proj2 (Z.leb_le r 2047)) by lia.
  rewrite Z.shiftr_div_pow2 by lia.
  change 63 with (2 ^ 6 - 1). rewrite land_low by lia.
  change 192 with (3 * 2 ^ 6). change 128 with (2 * 2 ^ 6).
  rewrite !lor_add; change (2 ^ 6) with 64;
    try (Z.to_euclidean_division_equations; lia).
  f_equal; [|f_equal]; Z.to_euclidean_division_equations; lia.
Qed.

Lemma AppendRune_3 (r : Z) :
  2048 <= r <= 65535 -> ~ (55296 <= r <= 57343) ->
  utf8.AppendRune r
  = [224 + r / 4096; 128 + (r / 64) mod 64; 128 + r mod 64].
Proof.
  intros Hr Hs. unfold utf8.AppendRune, utf8.byte, utf8.MaxRune. cbv zeta.
  rewrite (Z.mod_small r 4294967296) by lia.
  zcases.
  all: rewrite !Z.shiftr_div_pow2 by lia.
  all: change 63 with (2 ^ 6 - 1); rewrite !land_low by lia.
  all: change 224 with (14 * 2 ^ 4); change 128 with (2 * 2 ^ 6).
  all: rewrite !lor_add; change (2 ^ 6) with 64; change (2 ^ 4) with 16;
    change (2 ^ 12) with 4096;
    try (Z.to_euclidean_division_equations; lia).
  all: f_equal; [|f_equal; [|f_equal]];
    Z.to_euclidean_division_equations; lia.
Qed.

Lemma AppendRune_4 (r : Z) :
  65536 <= r <= utf8.MaxRune ->
  utf8.AppendRune r
  = [240 + r / 262144; 128 + (r / 4096) mod 64;
     128 + (r / 64) mod 64; 128 + r mod 64].
Proof.
  unfold utf8.MaxRune.
  intros Hr. unfold utf8.AppendRune, utf8.byte, utf8.MaxRune. cbv zeta.
  rewrite (Z.mod_small r 4294967296) by lia.
  zcases.
  all: rewrite !Z.shiftr_div_pow2 by lia.
  all: change 63 with (2 ^ 6 - 1); rewrite !land_low by lia.
  all: change 240 with (30 * 2 ^ 3); change 128 with (2 * 2 ^ 6).
  all: rewrite !lor_add; change (2 ^ 6) with 64; change (2 ^ 3) with 8;
    change (2 ^ 12) with 4096; change (2 ^ 18) with 262144;
    try (Z.to_euclidean_division_equations; lia).
  all: f_equal; [|f_equal; [|f_equal; [|f_equal]]];
    Z.to_euclidean_division_equations; lia.
Qed.

Lemma DecodeRune_1 (b : Z) (rest : list Z) :
  0 <= b < 128 -> utf8.DecodeRune (b :: rest) = (b, 1%nat).
Proof.
  intros Hb. unfold utf8.DecodeRune, utf8.RuneSelf.
  by rewrite (proj2 (Z.ltb_lt b 128)) by lia.
Qed.

Lemma DecodeRune_2 (a b : Z) (rest : list Z) :
  2 <= a < 32 -> 0 <= b < 64 ->
  utf8.DecodeRune (192 + a :: 128 + b :: rest) = (a * 64 + b, 2%nat).
Proof.
  intros Ha Hb.
  unfold utf8.DecodeRune, utf8.first, utf8.RuneSelf. cbv zeta.
  cbn [length nth Nat.ltb Nat.leb].
  zcases; simplify_eq; try lia.
  f_equal.
  rewrite Z.shiftl_mul_pow2 by lia.
  change 31 with (2 ^ 5 - 1). change 63 with (2 ^ 6 - 1).
  rewrite !land_low by lia.
  rewrite lor_add; change (2 ^ 6) with 64; change (2 ^ 5) with 32;
    Z.to_euclidean_division_equations; lia.
Qed.

Lemma lor_2 (a b : Z) :
  0 <= b < 64 -> Z.lor (Z.shiftl a 6) b = a * 64 + b.
Proof.
  intros Hb. rewrite Z.shiftl_mul_pow2 by lia.
  rewrite lor_add; change (2 ^ 6) with 64; lia.
Qed.

Lemma lor_3 (a b c : Z) :
  0 <= b < 64 -> 0 <= c < 64 ->
  Z.lor (Z.lor (Z.shiftl a 12) (Z.shiftl b 6)) c
  = a * 4096 + b * 64 + c.
Proof.
  intros Hb Hc. rewrite !Z.shiftl_mul_pow2 by lia.
  rewrite (lor_add a (b * 2 ^ 6) 12)
    by (change (2 ^ 6) with 64; change (2 ^ 12) with 4096; lia).
  replace (a * 2 ^ 12 + b * 2 ^ 6) with ((a * 64 + b) * 2 ^ 6)
    by (change (2 ^ 6) with 64; change (2 ^ 12) with 4096; lia).
  rewrite lor_add by (change (2 ^ 6) with 64; lia).
  change (2 ^ 6) with 64. lia.
Qed.

Lemma lor_4 (a b c d : Z) :
  0 <= b < 64 -> 0 <= c < 64 -> 0 <= d < 64 ->
  Z.lor (Z.lor (Z.lor (Z.shiftl a 18) (Z.shiftl b 12)) (Z.shiftl c 6)) d
  = a * 262144 + b * 4096 + c * 64 + d.
Proof.
  intros Hb Hc Hd.
  assert (Z.lor (Z.shiftl a 18) (Z.shiftl b 12)
          = Z.shiftl (a * 64 + b) 12) as ->.
  { rewrite !Z.shiftl_mul_pow2 by lia.
    rewrite lor_add; change (2 ^ 18) with 262144;
      change (2 ^ 12) with 4096; lia. }
  rewrite lor_3 by done. lia.
Qed.

Lemma DecodeRune_3 (a b c : Z) (rest : list Z) :
  0 <= a < 16 -> 0 <= b < 64 -> 0 <= c < 64 ->
  2048 <= a * 4096 + b * 64 + c ->
  ~ (55296 <= a * 4096 + b * 64 + c <= 57343) ->
  utf8.DecodeRune (224 + a :: 128 + b :: 128 + c :: rest)
  = (a * 4096 + b * 64 + c, 3%nat).
Proof.
  intros Ha Hb Hc Hlo Hs.
  unfold utf8.DecodeRune, utf8.first, utf8.RuneSelf. cbv zeta.
  cbn [length nth Nat.ltb Nat.leb].
  zcases; simplify_eq; try lia.
  all: f_equal.
  all: change 15 with (2 ^ 4 - 1); change 63 with (2 ^ 6 - 1).
  all: rewrite !land_low by lia.
  all: change (2 ^ 4) with 16; change (2 ^ 6) with 64.
  all: replace ((224 + a) mod 16) with a
         by (Z.to_euclidean_division_equations; lia).
  all: replace ((128 + b) mod 64) with b
         by (Z.to_euclidean_division_equations; lia).
  all: replace ((128 + c) mod 64) with c
         by (Z.to_euclidean_division_equations; lia).
  all: by rewrite lor_3.
Qed.

Lemma DecodeRune_4 (a b c d : Z) (rest : list Z) :
  0 <= a < 8 -> 0 <= b < 64 -> 0 <= c < 64 -> 0 <= d < 64 ->
  65536 <= a * 262144 + b * 4096 + c * 64 + d <= utf8.MaxRune ->
  utf8.DecodeRune (240 + a :: 128 + b :: 128 + c :: 128 + d :: rest)
  = (a * 262144 + b * 4096 + c * 64 + d, 4%nat).
Proof.
  unfold utf8.MaxRune. intros Ha Hb Hc Hd Hr.
  unfold utf8.DecodeRune, utf8.first, utf8.RuneSelf. cbv zeta.
  cbn [length nth Nat.ltb Nat.leb].
  zcases; simplify_eq; try lia.
  all: f_equal.
  all: change 7 with (2 ^ 3 - 1); change 63 with (2 ^ 6 - 1).
  all: rewrite !land_low by lia.
  all: change (2 ^ 3) with 8; change (2 ^ 6) with 64.
  all: replace ((240 + a) mod 8) with a
         by (Z.to_euclidean_division_equations; lia).
  all: replace ((128 + b) mod 64) with b
         by (Z.to_euclidean_division_equations; lia).
  all: replace ((128 + c) mod 64) with c
         by (Z.to_euclidean_division_equations; lia).
  all: replace ((128 + d) mod 64) with d
         by (Z.to_euclidean_division_equations; lia).
  all: by rewrite lor_4.
Qed.

Lemma AppendRune_scalar (r : Z) :
  scalar r -> utf8.AppendRune r = encoding r.
Proof.
  unfold scalar, encoding. intros Hr.
  destruct (Z.ltb_spec r 128); [apply AppendRune_1; lia|].
  destruct (Z.ltb_spec r 2048); [apply AppendRune_2; lia|].
  destruct (Z.ltb_spec r 65536); [apply AppendRune_3; lia|].
  apply AppendRune_4. unfold utf8.MaxRune. lia.
Qed.

(** The decoder reads back what the encoder wrote. *)
Lemma DecodeRune_encoding (r : Z) (rest : list Z) :
  scalar r ->
  utf8.DecodeRune (encoding r ++ rest) = (r, length (encoding r)).
Proof.
  unfold scalar, encoding. intros Hr.
  destruct (Z.ltb_spec r 128); [apply DecodeRune_1; lia|].
  destruct (Z.ltb_spec r 2048).
  { cbn [app length]. rewrite DecodeRune_2 by euclid. f_equal. euclid. }
  destruct (Z.ltb_spec r 65536).
  { cbn [app length].
    assert (r / 4096 * 4096 + (r / 64) mod 64 * 64 + r mod 64 = r) as E
      by euclid.
    rewrite DecodeRune_3; rewrite ?E; try done; euclid. }
  cbn [app length].
  assert (r / 262144 * 262144 + (r / 4096) mod 64 * 4096
          + (r / 64) mod 64 * 64 + r mod 64 = r) as E by euclid.
  rewrite DecodeRune_4; rewrite ?E; try done; try euclid.
  unfold utf8.MaxRune. lia.
Qed.

Lemma encoding_length (r : Z) : (1 <= length (encoding r))%nat.
Proof. unfold encoding. repeat case_match; simpl; lia. Qed.

Lemma encoding_range (r : Z) :
  scalar r -> Forall (fun b => 0 <= b < 256) (encoding r).
Proof.
  unfold scalar, encoding. intros Hr.
  repeat case_match; zbool; repeat constructor; euclid.
Qed.

Lemma encoding_low (r : Z) : r < 128 -> encoding r = [r].
Proof.
  intros Hr. unfold encoding. by rewrite (proj2 (Z.ltb_lt r 128)).
Qed.

Lemma encoding_high (r : Z) :
  scalar r -> 128 <= r -> Forall (fun b => 128 <= b) (encoding r).
Proof.
  unfold scalar, encoding. intros Hr Hhi.
  repeat case_match; zbool; repeat constructor; euclid.
Qed.

Lemma flat_map_encoding_range (rs : list Z) :
  Forall scalar rs -> Forall (fun b => 0 <= b < 256) (flat_map encoding rs).
Proof.
  induction 1 as [|r rs Hr Hrs IH]; [constructor|].
  cbn [flat_map]. apply Forall_app. split; [by apply encoding_range|done].
Qed.

Lemma filter_keeps_all {A} (f : A -> bool) (l : list A) :
  Forall (fun x => f x = true) l -> List.filter f l = l.
Proof.
  induction 1 as [|x l Hx Hl IH]; [done|].
  simpl. by rewrite Hx, IH.
Qed.

(** Removing the bytes 32 from a text removes its runes U+0020. *)
Lemma filter_flat_map_encoding (rs : list Z) :
  Forall scalar rs ->
  List.filter (fun b => negb (b =? 32)) (flat_map encoding rs)
  = flat_map encoding (List.filter (fun r => negb (r =? 32)) rs).
Proof.
  induction 1 as [|r rs Hr Hrs IH]; [done|].
  cbn [flat_map List.filter]. rewrite List.filter_app, IH.
  destruct (Z.ltb_spec r 128) as [Hlo|Hhi].
  - rewrite encoding_low by done. cbn [List.filter].
    destruct (negb (r =? 32)); [|done].
    cbn [flat_map app]. by rewrite encoding_low.
  - rewrite filter_keeps_all.
    + rewrite (proj2 (Z.eqb_neq r 32)) by lia. done.
    + eapply Forall_impl; [by apply encoding_high|].
      intros b Hb. cbv beta in Hb.
      rewrite (proj2 (Z.eqb_neq b 32)) by lia. done.
Qed.

(** A text of ASCII bytes is a text of ASCII runes. *)
Lemma flat_map_encoding_ascii (rs : list Z) :
  Forall scalar rs ->
  forallb (fun c => c <? utf8.RuneSelf) (flat_map encoding rs) = true ->
  Forall (fun r => 0 <= r < 128) rs /\ flat_map encoding rs = rs.
Proof.
  unfold utf8.RuneSelf.
  induction 1 as [|r rs Hr Hrs IH]; [done|].
  cbn [flat_map]. rewrite forallb_app, andb_true_iff. intros [H1 H2].
  destruct (IH H2) as [IH1 IH2]. rewrite IH2.
  destruct (Z.ltb_spec r 128) as [Hlo|Hhi].
  - rewrite encoding_low by done. split; [|done].
    constructor; [|done]. unfold scalar in Hr. lia.
  - exfalso. pose proof (encoding_high r Hr Hhi) as Hh.
    pose proof (encoding_length r) as Hl.
    destruct (encoding r) as [|b bs]; [simpl in Hl; lia|].
    apply Forall_cons in Hh as [Hb _].
    cbn [forallb] in H1. apply andb_true_iff in H1 as [H1 _].
    apply Z.ltb_lt in H1. lia.
Qed.

(** *** Strings and their bytes *)

Lemma of_bytes_cons (b : Z) (l : list Z) :
  utf8.of_bytes (b :: l)
  = String (ascii_of_N (Z.to_N b)) (utf8.of_bytes l).
Proof. done. Qed.

Lemma bytes_of_bytes (l : list Z) :
  Forall (fun b => 0 <= b < 256) l -> utf8.bytes (utf8.of_bytes l) = l.
Proof.
  induction 1 as [|b l Hb Hl IH]; [done|].
  rewrite of_bytes_cons. unfold utf8.bytes in *.
  cbn [String.list_ascii_of_string map]. rewrite IH. f_equal.
  rewrite N_ascii_embedding by lia. lia.
Qed.

Lemma length_of_bytes (l : list Z) :
  String.length (utf8.of_bytes l) = length l.
Proof.
  induction l as [|b l IH]; [done|].
  rewrite of_bytes_cons. simpl. by rewrite IH.
Qed.

Lemma eqb_space (b : Z) :
  0 <= b < 256 -> Ascii.eqb (ascii_of_N (Z.to_N b)) " " = (b =? 32).
Proof.
  intros Hb. destruct (Z.eqb_spec b 32) as [->|Hne]; [done|].
  apply Ascii.eqb_neq. intros E. apply (f_equal N_of_ascii) in E.
  rewrite N_ascii_embedding in E by lia.
  change (N_of_ascii " ") with 32%N in E. lia.
Qed.

Lemma ReplaceAll_of_bytes (l : list Z) :
  Forall (fun b => 0 <= b < 256) l ->
  Strings.ReplaceAll (utf8.of_bytes l) " " ""
  = utf8.of_bytes (List.filter (fun b => negb (b =? 32)) l).
Proof.
  induction 1 as [|b l Hb Hl IH]; [done|].
  rewrite of_bytes_cons. cbn [Strings.ReplaceAll List.filter].
  rewrite eqb_space by done. destruct (b =? 32); cbn [negb].
  - exact IH.
  - by rewrite of_bytes_cons, IH.
Qed.

Lemma lower_byte_of_byte (b : Z) :
  0 <= b < 128 ->
  Strings.lower_byte (ascii_of_N (Z.to_N b))
  = ascii_of_N (Z.to_N (unicode.ToLower b)).
Proof.
  intros Hb. unfold Strings.lower_byte, unicode.ToLower, unicode.MaxASCII.
  cbv zeta. rewrite (proj2 (Z.leb_le b 127)) by lia.
  assert (nat_of_ascii (ascii_of_N (Z.to_N b)) = Z.to_nat b) as ->.
  { unfold nat_of_ascii. rewrite N_ascii_embedding by lia. lia. }
  destruct ((65 <=? b) && (b <=? 90)) eqn:E; zbool.
  - rewrite (proj2 (Nat.leb_le 65 (Z.to_nat b))) by lia.
    rewrite (proj2 (Nat.leb_le (Z.to_nat b) 90)) by lia.
    cbn [andb]. unfold ascii_of_nat. f_equal. lia.
  - rewrite (proj2 (Nat.leb_gt 65 (Z.to_nat b))) by lia. done.
  - rewrite (proj2 (Nat.leb_gt (Z.to_nat b) 90)) by lia.
    by rewrite andb_false_r.
Qed.

Lemma lower_ascii_of_bytes (l : list Z) :
  Forall (fun b => 0 <= b < 128) l ->
  Strings.lower_ascii (utf8.of_bytes l)
  = utf8.of_bytes (map unicode.ToLower l).
Proof.
  induction 1 as [|b l Hb Hl IH]; [done|].
  cbn [map]. rewrite !of_bytes_cons. cbn [Strings.lower_ascii].
  by rewrite lower_byte_of_byte, IH.
Qed.

Lemma ToLower_low (r : Z) :
  0 <= r < 128 -> 0 <= unicode.ToLower r < 128.
Proof.
  intros Hr. unfold unicode.ToLower, unicode.MaxASCII.
  rewrite (proj2 (Z.leb_le r 127)) by lia. zcases.
Qed.

Lemma ToLower_scalar (r : Z) :
  (forall r, scalar r -> scalar (unicode.To_LowerCase r)) ->
  scalar r -> scalar (unicode.ToLower r).
Proof.
  intros Ht Hr. unfold unicode.ToLower, unicode.MaxASCII.
  destruct (Z.leb_spec r 127); [|by apply Ht].
  unfold scalar in *. zcases.
Qed.

(** *** [strings.Map] on a text *)

Lemma Map_rest_cons (turns : nat) (mapping : Z -> Z) (s : list Z) :
  s <> [] ->
  Strings.Map_rest (S turns) mapping s
  = (if 0 <=? mapping (utf8.DecodeRune s).1
     then utf8.AppendRune (mapping (utf8.DecodeRune s).1) else [])
    ++ Strings.Map_rest turns mapping (drop (utf8.DecodeRune s).2 s).
Proof.
  intros Hs. destruct s as [|b s]; [done|].
  cbn [Strings.Map_rest]. by destruct (utf8.DecodeRune (b :: s)).
Qed.

Lemma Map_loop_cons (turns : nat) (mapping : Z -> Z) (s : list Z) :
  s <> [] ->
  Strings.Map_loop (S turns) mapping s
  = let c := (utf8.DecodeRune s).1 in
    let width := (utf8.DecodeRune s).2 in
    if (mapping c =? c)
       && (negb (c =? utf8.RuneError) || negb (width =? 1)%nat)
    then take width s ++ Strings.Map_loop turns mapping (drop width s)
    else (if 0 <=? mapping c then utf8.AppendRune (mapping c) else [])
         ++ Strings.Map_rest turns mapping (drop width s).
Proof.
  intros Hs. destruct s as [|b s]; [done|].
  cbn [Strings.Map_loop]. by destruct (utf8.DecodeRune (b :: s)).
Qed.

Lemma encoding_app_not_nil (r : Z) (rest : list Z) :
  encoding r ++ rest <> [].
Proof.
  pose proof (encoding_length r) as H.
  destruct (encoding r); [simpl in H; lia|done].
Qed.

Lemma Map_rest_text (mapping : Z -> Z) (rs : list Z) :
  (forall r, scalar r -> scalar (mapping r)) ->
  Forall scalar rs ->
  forall turns, (length rs <= turns)%nat ->
  Strings.Map_rest turns mapping (flat_map encoding rs)
  = flat_map encoding (map mapping rs).
Proof.
  intros Hm. induction 1 as [|r rs Hr Hrs IH]; intros turns Hlen.
  - by destruct turns.
  - destruct turns as [|turns]; [simpl in Hlen; lia|].
    cbn [flat_map map].
    rewrite Map_rest_cons by apply encoding_app_not_nil.
    rewrite DecodeRune_encoding by done. cbn [fst snd].
    rewrite drop_app_length, IH by (simpl in Hlen; lia).
    pose proof (Hm r Hr) as Hs.
    rewrite AppendRune_scalar by done.
    rewrite (proj2 (Z.leb_le 0 (mapping r))); [done|].
    unfold scalar in Hs. lia.
Qed.

Lemma Map_loop_text (mapping : Z -> Z) (rs : list Z) :
  (forall r, scalar r -> scalar (mapping r)) ->
  Forall scalar rs ->
  forall turns, (length rs <= turns)%nat ->
  Strings.Map_loop turns mapping (flat_map encoding rs)
  = flat_map encoding (map mapping rs).
Proof.
  intros Hm. induction 1 as [|r rs Hr Hrs IH]; intros turns Hlen.
  - by destruct turns.
  - destruct turns as [|turns]; [simpl in Hlen; lia|].
    cbn [flat_map map].
    rewrite Map_loop_cons by apply encoding_app_not_nil.
    rewrite DecodeRune_encoding by done. cbn [fst snd]. cbv zeta.
    rewrite drop_app_length, take_app_length.
    pose proof (Hm r Hr) as Hs.
    destruct (_ && _) eqn:E.
    + apply andb_true_iff in E as [E _]. apply Z.eqb_eq in E.
      rewrite IH by (simpl in Hlen; lia). by rewrite E.
    + rewrite Map_rest_text by (done || simpl in Hlen; lia).
      rewrite AppendRune_scalar by done.
      rewrite (proj2 (Z.leb_le 0 (mapping r))); [done|].
      unfold scalar in Hs. lia.
Qed.

Lemma length_flat_map_encoding (rs : list Z) :
  (length rs <= length (flat_map encoding rs))%nat.
Proof.
  induction rs as [|r rs IH]; [done|].
  cbn [flat_map]. rewrite length_app. pose proof (encoding_length r).
  simpl. lia.
Qed.

End utf8_facts.

(** The canonical name of a UTF-8 text: the runes U+0020 are removed and
    every other rune is mapped through [unicode.ToLower]. *)
Lemma normalize_text (rs : list Z) :
  (forall r, scalar r -> scalar (unicode.To_LowerCase r)) ->
  Forall scalar rs ->
  normalize (text rs)
  = text (map unicode.ToLower
              (List.filter (fun r => negb (r =? 32)%Z) rs)).
Proof.
  intros Ht Hrs. unfold normalize, text.
  rewrite ReplaceAll_of_bytes by by apply flat_map_encoding_range.
  rewrite filter_flat_map_encoding by done.
  assert (Forall scalar (List.filter (fun r => negb (r =? 32)%Z) rs))
    as Hrs'.
  { apply Forall_forall. intros r Hr.
    apply list_elem_of_In, filter_In in Hr as [Hr _].
    apply list_elem_of_In in Hr. by eapply Forall_forall in Hrs. }
  generalize dependent (List.filter (fun r => negb (r =? 32)%Z) rs).
  clear rs Hrs. intros rs Hrs.
  pose proof (flat_map_encoding_range rs Hrs) as Hrange.
  destruct (forallb (fun c => (c <? utf8.RuneSelf)%Z)
              (utf8.bytes (utf8.of_bytes (flat_map encoding rs)))) eqn:E.
  - rewrite ToLower_ascii by by apply isASCII_iff.
    rewrite bytes_of_bytes in E by done.
    destruct (flat_map_encoding_ascii rs Hrs E) as [Hlow ->].
    rewrite lower_ascii_of_bytes by done. f_equal.
    clear -Hlow. induction Hlow as [|r rs Hr Hrs IH]; [done|].
    cbn [map flat_map]. rewrite <- IH.
    rewrite encoding_low by (pose proof (ToLower_low r Hr); lia). done.
  - rewrite ToLower_not_ascii.
    2:{ intros Ha%isASCII_iff. congruence. }
    unfold Strings.Map. rewrite bytes_of_bytes by done.
    rewrite length_of_bytes. f_equal.
    apply Map_loop_text; [|done|apply length_flat_map_encoding].
    intros r. by apply ToLower_scalar.
Qed.

(** [unicode.ToLower], case by case. *)
Lemma ToLower_cases (r : Z) :
  unicode.ToLower r
  = (if (65 <=? r) && (r <=? 90) then r + 32
     else if r <=? 127 then r else unicode.To_LowerCase r)%Z.
Proof.
  unfold unicode.ToLower, unicode.MaxASCII.
  destruct (Z.leb_spec r 127) as [Hr|Hr].
  - by destruct (_ && _).
  - rewrite (proj2 (Z.leb_gt r 90)) by lia. by rewrite andb_false_r.
Qed.

(** A name that is not ASCII: the first rune, U+00C9, goes through the
    case tables, the other runes through the ASCII rule. *)
Lemma normalize_ecole_des_arts :
  unicode.To_LowerCase 201 = 233%Z ->
  normalize ecole_des_arts = String "195" (String "169" "coledesarts").
Proof.
  intros Htable. unfold normalize.
  assert (Strings.ReplaceAll ecole_des_arts " " ""
          = String "195" (String "137" "COLEDesArts")) as ->
    by (vm_compute; reflexivity).
  rewrite ToLower_not_ascii.
  2:{ intros H%isASCII_iff. vm_compute in H. discriminate H. }
  unfold Strings.Map.
  assert (utf8.bytes (String "195" (String "137" "COLEDesArts"))
          = [195; 137; 67; 79; 76; 69; 68; 101; 115; 65; 114; 116; 115]%Z)
    as -> by (vm_compute; reflexivity).
  assert (String.length (String "195" (String "137" "COLEDesArts")) = 13%nat)
    as -> by (vm_compute; reflexivity).
  cbn [Strings.Map_loop].
  assert (utf8.DecodeRune
            [195; 137; 67; 79; 76; 69; 68; 101; 115; 65; 114; 116; 115]%Z
          = (201%Z, 2%nat)) as -> by (vm_compute; reflexivity).
  cbv beta iota zeta.
  assert (unicode.ToLower 201 = 233%Z) as ->.
  { unfold unicode.ToLower. exact Htable. }
  vm_compute. reflexivity.
Qed.

(** C3.  [ExpectedCoderGroups] never fails; it returns, in order, the
    name of every source group that has one, lower-cased by
    [strings.ToLower] after the spaces have been removed ("Cat Lovers"
    gives "catlovers"), it returns nothing for a group whose name is
    empty, and it logs one diagnostic line for each such group and
    nothing else.  Removing the spaces drops the bytes 32 and keeps the
    other bytes in their order.  In a name of ASCII bytes the letters A
    to Z are then moved by 32 and every other byte is kept; in any other
    name every rune of the UTF-8 text is mapped through
    [unicode.ToLower], so that with the case tables of Unicode, which
    send U+00C9 to U+00E9, the name of "ÉCOLE Des Arts" is
    "écoledesarts".  In terms of runes: when the case tables send scalar
    values to scalar values, the canonical name of the UTF-8 text of the
    runes [rs] is the UTF-8 text of the runes of [rs] other than U+0020,
    the letters A to Z moved by 32, the other ASCII runes kept, and the
    runes above U+007F sent through the case tables. *)
Theorem ExpectedCoderGroups_normalizes (gGroups : list admin.Group)
    (w : World) :
  ExpectedCoderGroups gGroups w =
    (Ok (map (fun g =>
                Strings.ToLower
                  (Strings.ReplaceAll (admin.Group_Name g) " " ""))
             (filter (fun g => admin.Group_Name g <> "") gGroups)),
     emits (map (fun g => Log (LogNoGroupName (admin.Group_Email g)))
                (filter (fun g => admin.Group_Name g = "") gGroups)) w)
  /\ length (expected_names gGroups) =
       length (filter (fun g => admin.Group_Name g <> "") gGroups)
  /\ (forall name,
        String.list_ascii_of_string (Strings.ReplaceAll name " " "")
        = List.filter (fun c => negb (Ascii.eqb c " "))
                      (String.list_ascii_of_string name))
  /\ (forall name,
        (forall c, c ∈ String.list_ascii_of_string name ->
                   (nat_of_ascii c < 128)%nat) ->
        String.list_ascii_of_string (normalize name) =
          map (fun c =>
                 if (65 <=? nat_of_ascii c)%nat && (nat_of_ascii c <=? 90)%nat
                 then ascii_of_nat (nat_of_ascii c + 32) else c)
              (List.filter (fun c => negb (Ascii.eqb c " "))
                           (String.list_ascii_of_string name)))
  /\ (forall name,
        ~ (forall c, c ∈ String.list_ascii_of_string name ->
                     (nat_of_ascii c < 128)%nat) ->
        normalize name
        = Strings.Map unicode.ToLower (Strings.ReplaceAll name " " ""))
  /\ normalize "Cat Lovers" = "catlovers"
  /\ (unicode.To_LowerCase 201 = 233%Z ->
      normalize ecole_des_arts
      = String "195" (String "169" "coledesarts"))
  /\ ((forall r, scalar r -> scalar (unicode.To_LowerCase r)) ->
      forall rs, Forall scalar rs ->
        normalize (text rs)
        = text (map (fun r =>
                       if (65 <=? r) && (r <=? 90) then r + 32
                       else if r <=? 127 then r
                       else unicode.To_LowerCase r)%Z
                    (List.filter (fun r => negb (r =? 32)%Z) rs)))
  /\ ExpectedCoderGroups
       [{| admin.Group_Name := ""; admin.Group_Email := "x@example.com" |};
        {| admin.Group_Name := "Cat Lovers";
           admin.Group_Email := "cats@example.com" |}] w =
       (Ok ["catlovers"], emit (Log (LogNoGroupName "x@example.com")) w).
Proof.
  split; [|split; [|split; [|split; [|split; [|split; [|split; [|split]]]]]]].
  - unfold ExpectedCoderGroups. by rewrite ExpectedCoderGroups_loop_run.
  - unfold expected_names. by rewrite length_map.
  - apply ReplaceAll_bytes.
  - intros name Hname. by apply normalize_bytes.
  - intros name Hname. unfold normalize. apply ToLower_not_ascii.
    by rewrite ascii_only_ReplaceAll.
  - reflexivity.
  - apply normalize_ecole_des_arts.
  - intros Htables rs Hrs. rewrite normalize_text by done.
    f_equal. apply map_ext. intros r. apply ToLower_cases.
  - unfold ExpectedCoderGroups. by rewrite ExpectedCoderGroups_loop_run.
Qed.

(** ** The per-user diff *)

Lemma elem_of_Difference (a b : list string) (x : string) :
  x ∈ slice.Difference a b <-> x ∈ a /\ x ∉ b.
Proof.
  unfold slice.Difference.
  rewrite elem_of_remove_dups, list_elem_of_difference. done.
Qed.

Lemma NoDup_Difference (a b : list string) : NoDup (slice.Difference a b).
Proof. apply NoDup_remove_dups. Qed.

Lemma Difference_same_set (a a' b b' : list string) :
  same_set a a' -> same_set b b' ->
  slice.Difference a b ≡ₚ slice.Difference a' b'.
Proof.
  intros Ha Hb.
  apply NoDup_Permutation; try apply NoDup_Difference.
  intros x. rewrite !elem_of_Difference.
  unfold same_set in *. rewrite Ha, Hb. done.
Qed.

Lemma cGroups_loop_from (defaultOrg : Organization) (cGroups : list Group)
    (everyone : string) (names : list string) :
  foldl (fun '(everyoneGroup, cGroupNames) group =>
           let cGroupNames := cGroupNames ++ [Group_Name group] in
           if decide (Group_ID group = Organization_ID defaultOrg)
           then (Group_Name group, cGroupNames)
           else (everyoneGroup, cGroupNames))
        (everyone, names) cGroups
  = (match last (filter (fun g => Group_ID g = Organization_ID defaultOrg)
                        cGroups) with
     | Some g => Group_Name g
     | None => everyone
     end,
     names ++ map Group_Name cGroups).
Proof.
  induction cGroups as [|g gs IH] using rev_ind.
  - simpl. by rewrite app_nil_r.
  - rewrite foldl_app, IH. simpl.
    rewrite filter_app, map_app, app_assoc. simpl.
    destruct (decide (Group_ID g = Organization_ID defaultOrg)) as [E|E].
    + rewrite filter_cons_True by done.
      rewrite filter_nil, last_snoc. done.
    + rewrite filter_cons_False by done.
      rewrite filter_nil, app_nil_r. done.
Qed.

Lemma cGroups_loop_eq (defaultOrg : Organization) (cGroups : list Group) :
  cGroups_loop defaultOrg cGroups =
    (everyone_name defaultOrg cGroups, Actual cGroups).
Proof. unfold cGroups_loop. by rewrite cGroups_loop_from. Qed.

Lemma user_diff_eq (defaultOrg : Organization) (cGroups : list Group)
    (gGroups : list admin.Group) :
  user_diff defaultOrg cGroups (expected_names gGroups) =
    (slice.Difference (Expected defaultOrg cGroups gGroups) (Actual cGroups),
     slice.Difference (Actual cGroups) (Expected defaultOrg cGroups gGroups)).
Proof. unfold user_diff. by rewrite cGroups_loop_eq. Qed.

(** ** Recording a user's diff in the change set *)

Lemma index_AddUser (c : gmap string PatchGroupRequest) (x u g : string) :
  index (AddUser c x u) g =
    if decide (g = x)
    then {| AddUsers := AddUsers (index c x) ++ [u];
            RemoveUsers := RemoveUsers (index c x) |}
    else index c g.
Proof.
  destruct (decide (g = x)) as [->|Hne].
  - unfold index at 1. by rewrite AddUser_lookup.
  - unfold index. by rewrite AddUser_lookup_ne.
Qed.

Lemma index_RemoveUser (c : gmap string PatchGroupRequest) (x u g : string) :
  index (RemoveUser c x u) g =
    if decide (g = x)
    then {| AddUsers := AddUsers (index c x);
            RemoveUsers := RemoveUsers (index c x) ++ [u] |}
    else index c g.
Proof.
  destruct (decide (g = x)) as [->|Hne].
  - unfold index at 1. by rewrite RemoveUser_lookup.
  - unfold index. by rewrite RemoveUser_lookup_ne.
Qed.

Lemma foldl_AddUser_index (l : list string) (c : gmap string PatchGroupRequest)
    (u g : string) :
  NoDup l ->
  index (foldl (fun c group => AddUser c group u) c l) g =
    {| AddUsers := AddUsers (index c g)
                   ++ (if decide (g ∈ l) then [u] else []);
       RemoveUsers := RemoveUsers (index c g) |}.
Proof.
  revert c. induction l as [|x l IH]; intros c Hnd.
  - cbn [foldl]. case_decide; [set_solver|].
    rewrite app_nil_r. by destruct (index c g).
  - apply NoDup_cons in Hnd as [Hx Hnd]. cbn [foldl].
    rewrite IH by done. rewrite index_AddUser.
    destruct (decide (g = x)) as [Heq|Hne].
    + subst g. rewrite decide_False by done.
      rewrite decide_True by apply list_elem_of_here.
      simpl. by rewrite app_nil_r.
    + destruct (decide (g ∈ l)) as [Hin|Hin].
      * by rewrite decide_True by (by apply list_elem_of_further).
      * rewrite decide_False; [done|].
        intros [?|?]%elem_of_cons; done.
Qed.

Lemma foldl_RemoveUser_index (l : list string)
    (c : gmap string PatchGroupRequest) (u g : string) :
  NoDup l ->
  index (foldl (fun c group => RemoveUser c group u) c l) g =
    {| AddUsers := AddUsers (index c g);
       RemoveUsers := RemoveUsers (index c g)
                      ++ (if decide (g ∈ l) then [u] else []) |}.
Proof.
  revert c. induction l as [|x l IH]; intros c Hnd.
  - cbn [foldl]. case_decide; [set_solver|].
    rewrite app_nil_r. by destruct (index c g).
  - apply NoDup_cons in Hnd as [Hx Hnd]. cbn [foldl].
    rewrite IH by done. rewrite index_RemoveUser.
    destruct (decide (g = x)) as [Heq|Hne].
    + subst g. rewrite decide_False by done.
      rewrite decide_True by apply list_elem_of_here.
      simpl. by rewrite app_nil_r.
    + destruct (decide (g ∈ l)) as [Hin|Hin].
      * by rewrite decide_True by (by apply list_elem_of_further).
      * rewrite decide_False; [done|].
        intros [?|?]%elem_of_cons; done.
Qed.

Lemma record_diff_index (user : User) (add remove : list string)
    (changes : gmap string PatchGroupRequest) (g : string) :
  NoDup add -> NoDup remove ->
  index (record_diff user add remove changes) g =
    {| AddUsers := AddUsers (index changes g)
                   ++ (if decide (g ∈ add) then [User_ID user] else []);
       RemoveUsers := RemoveUsers (index changes g)
                      ++ (if decide (g ∈ remove) then [User_ID user] else []) |}.
Proof.
  intros Ha Hr. unfold record_diff.
  rewrite foldl_RemoveUser_index by done.
  rewrite foldl_AddUser_index by done. done.
Qed.

Lemma foldl_AddUser_dom (l : list string) (c : gmap string PatchGroupRequest)
    (u g : string) :
  is_Some (foldl (fun c group => AddUser c group u) c l !! g)
  <-> is_Some (c !! g) \/ g ∈ l.
Proof.
  revert c. induction l as [|x l IH]; intros c; simpl.
  - rewrite elem_of_nil. tauto.
  - rewrite IH, elem_of_cons.
    destruct (decide (g = x)) as [->|Hne].
    + rewrite AddUser_lookup. split; [auto|eauto].
    + rewrite AddUser_lookup_ne by done. tauto.
Qed.

Lemma foldl_RemoveUser_dom (l : list string)
    (c : gmap string PatchGroupRequest) (u g : string) :
  is_Some (foldl (fun c group => RemoveUser c group u) c l !! g)
  <-> is_Some (c !! g) \/ g ∈ l.
Proof.
  revert c. induction l as [|x l IH]; intros c; simpl.
  - rewrite elem_of_nil. tauto.
  - rewrite IH, elem_of_cons.
    destruct (decide (g = x)) as [->|Hne].
    + rewrite RemoveUser_lookup. split; [auto|eauto].
    + rewrite RemoveUser_lookup_ne by done. tauto.
Qed.

Lemma record_diff_dom (user : User) (add remove : list string)
    (changes : gmap string PatchGroupRequest) (g : string) :
  is_Some (record_diff user add remove changes !! g)
  <-> is_Some (changes !! g) \/ g ∈ add \/ g ∈ remove.
Proof.
  unfold record_diff.
  rewrite foldl_RemoveUser_dom, foldl_AddUser_dom. tauto.
Qed.

(** ** One turn of the loop over the users *)

Lemma user_step_skip (s : Sync) (defaultOrg : Organization) (st : LoopState)
    (user : User) (w : World) :
  eligible s user = false ->
  user_step s defaultOrg st user w = (Ok (after_skipped st user), w).
Proof.
  unfold eligible, user_step, after_skipped. intros H.
  destruct (bool_decide (User_LoginType user = LoginTypeOIDC)); [|done].
  simpl in H. rewrite H. done.
Qed.

Lemma user_step_eligible (s : Sync) (defaultOrg : Organization)
    (st : LoopState) (user : User) (w : World) :
  eligible s user = true ->
  user_step s defaultOrg st user w =
    match google_groups w (User_Email user) with
    | None =>
        (Fatal "failed to get Google Groups",
         emit (CallGoogleGroups (User_Email user)) w)
    | Some gGroups =>
        if groups_err w (member_args user) then
          (Fatal "failed to get coder groups for user",
           emits [CallGoogleGroups (User_Email user);
                  CallGroups (member_args user)] w)
        else
          (Ok (after_user defaultOrg st user gGroups (cGroups_of w user)),
           emits ([CallGoogleGroups (User_Email user);
                   CallGroups (member_args user)]
                  ++ skipped_lines gGroups) w)
    end.
Proof.
  unfold eligible, user_step. intros H.
  apply andb_true_iff in H as [H1 H2]. rewrite H1, H2. simpl.
  unfold bind, or_fatal, GoogleGroups. simpl.
  destruct (google_groups w (User_Email user)) as [gGroups|]; [|done].
  unfold Groups. simpl. fold (member_args user).
  destruct (groups_err w (member_args user)); [done|].
  unfold ExpectedCoderGroups. rewrite ExpectedCoderGroups_loop_run. simpl.
  change (filter _ (groups w)) with (cGroups_of w user).
  rewrite user_diff_eq. reflexivity.
Qed.

(** C1.  For the groups [cGroups] a user is in and the source groups
    [gGroups] of that user, the lists the loop records are set
    differences: a name is to add exactly when it is in Expected and not
    in Actual, to remove exactly when it is in Actual and not in Expected;
    neither list repeats a name; a name in both sets is in neither list;
    inputs with the same elements, in any order and with any repetition,
    give the same lists up to order; actual {A, B} with expected {B, C}
    gives toAdd = {C} and toRemove = {A}; and the turn of the loop for an
    eligible user whose two listings succeed records exactly these two
    lists for the user. *)
Theorem user_diff_set_subtraction (defaultOrg : Organization)
    (cGroups : list Group) (gGroups : list admin.Group) :
  let E := Expected defaultOrg cGroups gGroups in
  let A := Actual cGroups in
  let toAdd := (user_diff defaultOrg cGroups (expected_names gGroups)).1 in
  let toRemove := (user_diff defaultOrg cGroups (expected_names gGroups)).2 in
  (forall g, g ∈ toAdd <-> g ∈ E /\ g ∉ A)
  /\ (forall g, g ∈ toRemove <-> g ∈ A /\ g ∉ E)
  /\ NoDup toAdd /\ NoDup toRemove
  /\ (forall g, g ∈ E -> g ∈ A -> (g ∉ toAdd) /\ (g ∉ toRemove))
  /\ (forall a a' e e',
        same_set a a' -> same_set e e' ->
        (slice.SymmetricDifference a e).1 ≡ₚ (slice.SymmetricDifference a' e').1
        /\ (slice.SymmetricDifference a e).2
             ≡ₚ (slice.SymmetricDifference a' e').2)
  /\ slice.SymmetricDifference ["A"; "B"] ["B"; "C"] = (["C"], ["A"])
  /\ slice.SymmetricDifference ["B"; "A"; "B"] ["C"; "C"; "B"] = (["C"], ["A"])
  /\ (forall s st user w,
        eligible s user = true ->
        google_groups w (User_Email user) = Some gGroups ->
        groups_err w (member_args user) = false ->
        cGroups = cGroups_of w user ->
        exists w',
          user_step s defaultOrg st user w =
            (Ok {| userByID := <[User_ID user := user]> (userByID st);
                   coderGroupChanges :=
                     record_diff user toAdd toRemove (coderGroupChanges st);
                   oidcUserCount := S (oidcUserCount st) |}, w')).
Proof.
  intros E A toAdd toRemove. subst toAdd toRemove.
  rewrite user_diff_eq. simpl. fold E A.
  split; [|split; [|split; [|split; [|split; [|split; [|split; [|split]]]]]]].
  - intros g. apply elem_of_Difference.
  - intros g. apply elem_of_Difference.
  - apply NoDup_Difference.
  - apply NoDup_Difference.
  - intros g HE HA. rewrite !elem_of_Difference. tauto.
  - intros a a' e e' Ha He. unfold slice.SymmetricDifference. simpl.
    split; by apply Difference_same_set.
  - reflexivity.
  - reflexivity.
  - intros s st user w He Hg Herr Hc.
    rewrite user_step_eligible by done. rewrite Hg, Herr.
    eexists. unfold after_user. subst E A. by rewrite Hc.
Qed.

Lemma user_step_progress (s : Sync) (defaultOrg : Organization)
    (st1 st2 : LoopState) (user : User) (w : World) :
  progress st1 = progress st2 ->
  outcome_map progress (user_step s defaultOrg st1 user w).1
    = outcome_map progress (user_step s defaultOrg st2 user w).1
  /\ (user_step s defaultOrg st1 user w).2
     = (user_step s defaultOrg st2 user w).2.
Proof.
  unfold progress. intros [= Hc Hn].
  destruct (eligible s user) eqn:E.
  - rewrite !user_step_eligible by done.
    destruct (google_groups w (User_Email user)); [|done].
    destruct (groups_err w (member_args user)); [done|].
    simpl. unfold progress. simpl. by rewrite Hc, Hn.
  - rewrite !user_step_skip by done. simpl. unfold progress. simpl.
    by rewrite Hc, Hn.
Qed.

Lemma for_each_user_step_filter (s : Sync) (defaultOrg : Organization)
    (coderUsers : list User) (st1 st2 : LoopState) (w : World) :
  progress st1 = progress st2 ->
  outcome_map progress
    (for_each coderUsers (user_step s defaultOrg) st1 w).1
  = outcome_map progress
      (for_each (List.filter (eligible s) coderUsers)
                (user_step s defaultOrg) st2 w).1
  /\ (for_each coderUsers (user_step s defaultOrg) st1 w).2
     = (for_each (List.filter (eligible s) coderUsers)
                 (user_step s defaultOrg) st2 w).2.
Proof.
  revert st1 st2 w.
  induction coderUsers as [|u us IH]; intros st1 st2 w Hp.
  - simpl. by rewrite Hp.
  - simpl. destruct (eligible s u) eqn:E.
    + simpl. unfold bind.
      rewrite !user_step_eligible by done.
      destruct (google_groups w (User_Email u)); [|done].
      destruct (groups_err w (member_args u)); [done|].
      apply IH. unfold progress in *. simpl.
      injection Hp as Hc Hn. by rewrite Hc, Hn.
    + unfold bind. rewrite user_step_skip by done.
      apply IH. by rewrite <- Hp.
Qed.

Lemma for_each_user_step_count (s : Sync) (defaultOrg : Organization)
    (coderUsers : list User) (st st' : LoopState) (w w' : World) :
  for_each coderUsers (user_step s defaultOrg) st w = (Ok st', w') ->
  oidcUserCount st' =
    (oidcUserCount st + length (List.filter (eligible s) coderUsers))%nat.
Proof.
  revert st w.
  induction coderUsers as [|u us IH]; intros st w H.
  - simpl in *. injection H as <- _. lia.
  - simpl in H. unfold bind in H. destruct (eligible s u) eqn:E.
    + rewrite user_step_eligible in H by done.
      destruct (google_groups w (User_Email u)); [|done].
      destruct (groups_err w (member_args u)); [done|].
      apply IH in H. rewrite H. simpl. rewrite E. simpl. lia.
    + rewrite user_step_skip in H by done.
      apply IH in H. rewrite H. simpl. rewrite E. done.
Qed.

(** C9.  A user whose login type is not OIDC, or whose email does not end
    with "@" followed by the configured domain, is skipped by the loop
    without error: the turn of the loop returns normally in the same
    world (no call to the directory or to Coder is made and nothing is
    logged), the change set and the count of eligible users are what they
    were; and the whole loop ends in the same world, with the same change
    set and the same count, as the loop over the eligible users alone,
    the count being their number. *)
Theorem ineligible_user_skipped (s : Sync) (defaultOrg : Organization)
    (st : LoopState) (user : User) (w : World) :
  User_LoginType user <> LoginTypeOIDC
  \/ Strings.HasSuffix (User_Email user) ("@" +:+ EmailDomain s) = false ->
  user_step s defaultOrg st user w = (Ok (after_skipped st user), w)
  /\ coderGroupChanges (after_skipped st user) = coderGroupChanges st
  /\ oidcUserCount (after_skipped st user) = oidcUserCount st
  /\ (forall before after w0,
        let all := users_loop s defaultOrg (before ++ user :: after) w0 in
        let others := users_loop s defaultOrg (before ++ after) w0 in
        outcome_map progress all.1 = outcome_map progress others.1
        /\ all.2 = others.2
        /\ (forall st', all.1 = Ok st' ->
              oidcUserCount st' =
                length (List.filter (eligible s) (before ++ after)))).
Proof.
  intros H.
  assert (E : eligible s user = false).
  { unfold eligible. destruct H as [H|H].
    - by rewrite bool_decide_eq_false_2.
    - rewrite H. apply andb_false_r. }
  split; [by apply user_step_skip|].
  split; [done|]. split; [done|].
  intros before after w0 all others. subst all others.
  unfold users_loop.
  set (st0 := {| userByID := ∅; coderGroupChanges := ∅;
                 oidcUserCount := 0 |}).
  pose proof (for_each_user_step_filter s defaultOrg (before ++ user :: after)
                st0 st0 w0 eq_refl) as [H1 H2].
  pose proof (for_each_user_step_filter s defaultOrg (before ++ after)
                st0 st0 w0 eq_refl) as [H3 H4].
  assert (Hf : List.filter (eligible s) (before ++ user :: after)
               = List.filter (eligible s) (before ++ after)).
  { rewrite !List.filter_app. simpl. by rewrite E. }
  rewrite Hf in H1, H2.
  split; [by rewrite H1, H3|]. split; [by rewrite H2, H4|].
  intros st' Hst.
  destruct (for_each (before ++ user :: after) _ _ w0) as [o w'] eqn:Hrun.
  simpl in Hst. subst o.
  apply for_each_user_step_count in Hrun. rewrite Hrun, Hf. done.
Qed.

(** ** The Everyone group *)

Lemma everyone_name_default (defaultOrg : Organization) (cGroups : list Group) :
  (forall g, g ∈ cGroups -> Group_ID g <> Organization_ID defaultOrg) ->
  everyone_name defaultOrg cGroups = "Everyone".
Proof.
  intros H. unfold everyone_name.
  destruct (last _) as [g|] eqn:E; [|done].
  apply last_Some_elem_of, list_elem_of_filter in E as [E1 E2].
  by apply H in E2.
Qed.

Lemma everyone_name_found (defaultOrg : Organization) (cGroups : list Group)
    (g : Group) :
  g ∈ cGroups -> Group_ID g = Organization_ID defaultOrg ->
  (forall g', g' ∈ cGroups -> Group_ID g' = Organization_ID defaultOrg ->
              Group_Name g' = Group_Name g) ->
  everyone_name defaultOrg cGroups = Group_Name g.
Proof.
  intros Hin Hid Huniq. unfold everyone_name.
  destruct (last _) as [g'|] eqn:E.
  - apply last_Some_elem_of, list_elem_of_filter in E as [E1 E2].
    by apply Huniq.
  - apply last_None in E.
    assert (Hg : g ∈ filter
                   (fun g => Group_ID g = Organization_ID defaultOrg) cGroups)
      by (by apply list_elem_of_filter).
    rewrite E in Hg. by apply elem_of_nil in Hg.
Qed.

(** C8.  In every turn of the loop the name [everyoneGroup] is the name of
    the group, among the user's current groups, whose ID is the ID of the
    default organization (the last one in the listing, should several
    have it), and "Everyone" when there is none; it is in the Expected set
    whatever the source groups are, it is appended to the expected names
    that the diff receives, it is never in the list to remove, and the
    turn of the loop for an eligible user adds nobody to the
    [RemoveUsers] list of the entry of that name. *)
Theorem everyone_group_always_expected (s : Sync) (defaultOrg : Organization)
    (st : LoopState) (user : User) (w : World)
    (gGroups : list admin.Group) (cGroups : list Group) :
  let everyone := (cGroups_loop defaultOrg cGroups).1 in
  let toRemove := (user_diff defaultOrg cGroups (expected_names gGroups)).2 in
  everyone = everyone_name defaultOrg cGroups
  /\ ((forall g, g ∈ cGroups -> Group_ID g <> Organization_ID defaultOrg) ->
      everyone = "Everyone")
  /\ (forall g, g ∈ cGroups -> Group_ID g = Organization_ID defaultOrg ->
        (forall g', g' ∈ cGroups ->
           Group_ID g' = Organization_ID defaultOrg ->
           Group_Name g' = Group_Name g) ->
        everyone = Group_Name g)
  /\ everyone ∈ Expected defaultOrg cGroups gGroups
  /\ user_diff defaultOrg cGroups (expected_names gGroups)
     = slice.SymmetricDifference (Actual cGroups)
         (expected_names gGroups ++ [everyone])
  /\ (everyone ∉ toRemove)
  /\ (eligible s user = true ->
      google_groups w (User_Email user) = Some gGroups ->
      groups_err w (member_args user) = false ->
      cGroups = cGroups_of w user ->
      exists st' w',
        user_step s defaultOrg st user w = (Ok st', w')
        /\ RemoveUsers (index (coderGroupChanges st') everyone)
           = RemoveUsers (index (coderGroupChanges st) everyone)).
Proof.
  intros everyone toRemove. subst everyone toRemove.
  rewrite cGroups_loop_eq, user_diff_eq. simpl.
  assert (Hexp : everyone_name defaultOrg cGroups
                 ∈ Expected defaultOrg cGroups gGroups).
  { unfold Expected. apply elem_of_app. right. apply list_elem_of_here. }
  assert (Hrem : everyone_name defaultOrg cGroups
                 ∉ slice.Difference (Actual cGroups)
                     (Expected defaultOrg cGroups gGroups)).
  { rewrite elem_of_Difference. tauto. }
  split; [done|].
  split; [apply everyone_name_default|].
  split; [apply everyone_name_found|].
  split; [done|]. split; [done|]. split; [done|].
  intros He Hg Herr ->.
  rewrite user_step_eligible by done. rewrite Hg, Herr.
  eexists _, _. split; [done|].
  unfold after_user. simpl.
  rewrite record_diff_index by apply NoDup_Difference. simpl.
  rewrite decide_False by done. by rewrite app_nil_r.
Qed.

(** ** Creating the missing groups *)

Lemma same_services_refl w : same_services w w.
Proof. by repeat split. Qed.

Lemma same_services_trans w1 w2 w3 :
  same_services w1 w2 -> same_services w2 w3 -> same_services w1 w3.
Proof.
  unfold same_services. intros H1 H2.
  destruct H1 as (?&?&?&?&?&?&?&?), H2 as (?&?&?&?&?&?&?&?).
  repeat split; congruence.
Qed.

Lemma same_services_emit e w : same_services w (emit e w).
Proof. by repeat split. Qed.

Lemma same_services_emits es w : same_services w (emits es w).
Proof.
  revert w. induction es as [|e es IH]; intros w.
  - apply same_services_refl.
  - rewrite emits_cons. eapply same_services_trans; [|apply IH].
    apply same_services_emit.
Qed.

Lemma same_services_set_groups gs w : same_services w (set_groups gs w).
Proof. by repeat split. Qed.

Lemma groups_emits es w : groups (emits es w) = groups w.
Proof.
  revert w. induction es as [|e es IH]; intros w; [done|].
  by rewrite emits_cons, IH.
Qed.

Lemma createMissingGroups_step_run (org : UUID) (cg : gmap string Group)
    (ch : gmap string PatchGroupRequest) (created : list Group)
    (group : string) (w : World) :
  createMissingGroups_step org (cg, ch, created) group w =
    (Ok (match cg !! group with
         | Some _ => (cg, ch, created)
         | None =>
             match create_group w org group with
             | None => (cg, delete group ch, created)
             | Some id =>
                 (<[group := created_group org group id]> cg, ch,
                  created ++ [created_group org group id])
             end
         end),
     set_groups (groups w ++ create_groups w org cg group)
                (emits (create_events w org cg group) w)).
Proof.
  unfold createMissingGroups_step, create_events, create_groups.
  destruct (cg !! group) as [g|].
  - simpl. unfold ret. rewrite app_nil_r. by destruct w.
  - unfold bind, catch, CreateGroup. simpl.
    destruct (create_group w org group) as [id|]; simpl.
    + done.
    + unfold log, ret. simpl. rewrite app_nil_r. done.
Qed.

Lemma flat_map_agree {A B} (f g : A -> list B) (l : list A) :
  (forall x, x ∈ l -> f x = g x) -> flat_map f l = flat_map g l.
Proof.
  induction l as [|x l IH]; intros H; [done|].
  simpl. rewrite H by apply list_elem_of_here.
  rewrite IH; [done|]. intros y Hy. apply H. by apply list_elem_of_further.
Qed.

Lemma create_loop_run (org : UUID) (ks : list string) :
  forall (cg : gmap string Group) (ch : gmap string PatchGroupRequest)
         (created : list Group) (w : World),
  NoDup ks ->
  exists cg' ch' w',
    for_each ks (createMissingGroups_step org) (cg, ch, created) w
    = (Ok (cg', ch', created ++ flat_map (create_groups w org cg) ks), w')
    /\ same_services w w'
    /\ (forall g, ch' !! g =
          if decide (g ∈ ks /\ creation_fails w org cg g)
          then None else ch !! g)
    /\ (forall g, cg' !! g =
          if decide (g ∈ ks /\ cg !! g = None)
          then created_group org g <$> create_group w org g
          else cg !! g)
    /\ trace w' = trace w ++ flat_map (create_events w org cg) ks
    /\ groups w' = groups w ++ flat_map (create_groups w org cg) ks.
Proof.
  induction ks as [|k ks IH]; intros cg ch created w Hnd.
  - exists cg, ch, w. cbn [for_each flat_map]. rewrite !app_nil_r.
    split; [done|]. split; [apply same_services_refl|].
    split; [|split; [|done]].
    + intros g. destruct (decide _) as [[H _]|_]; [|done].
      by apply elem_of_nil in H.
    + intros g. destruct (decide _) as [[H _]|_]; [|done].
      by apply elem_of_nil in H.
  - apply NoDup_cons in Hnd as [Hk Hnd].
    cbn [for_each]. unfold bind at 1.
    rewrite createMissingGroups_step_run.
    set (w1 := set_groups _ _).
    assert (Hs1 : same_services w w1).
    { eapply same_services_trans; [apply same_services_emits|].
      apply same_services_set_groups. }
    assert (Hcreate : create_group w1 = create_group w) by apply Hs1.
    set (st1 := match cg !! k with Some _ => _ | None => _ end).
    destruct st1 as [[cg1 ch1] created1] eqn:Hst1.
    destruct (IH cg1 ch1 created1 w1 Hnd)
      as (cg' & ch' & w' & Hrun & Hs & Hch & Hcg & Htr & Hgr).
    assert (Hcg1 : forall g, g <> k -> cg1 !! g = cg !! g).
    { intros g Hg. subst st1. destruct (cg !! k).
      - by injection Hst1 as <- _ _.
      - destruct (create_group w org k); injection Hst1 as <- _ _;
          [by rewrite lookup_insert_ne|done]. }
    assert (Hev : flat_map (create_events w1 org cg1) ks
                  = flat_map (create_events w org cg) ks).
    { apply flat_map_agree. intros g Hg.
      unfold create_events. rewrite Hcreate, Hcg1; [done|].
      intros ->. done. }
    assert (Hgs : flat_map (create_groups w1 org cg1) ks
                  = flat_map (create_groups w org cg) ks).
    { apply flat_map_agree. intros g Hg.
      unfold create_groups. rewrite Hcreate, Hcg1; [done|].
      intros ->. done. }
    assert (Hcreated1 : created1 = created ++ create_groups w org cg k).
    { subst st1. unfold create_groups. destruct (cg !! k).
      - injection Hst1 as _ _ <-. by rewrite app_nil_r.
      - destruct (create_group w org k); injection Hst1 as _ _ <-;
          [done|by rewrite app_nil_r]. }
    assert (Hch1 : forall g, g <> k -> ch1 !! g = ch !! g).
    { intros g Hg. subst st1. destruct (cg !! k).
      - by injection Hst1 as _ <- _.
      - destruct (create_group w org k); injection Hst1 as _ <- _;
          [done|by rewrite lookup_delete_ne]. }
    assert (Hch1_fail : creation_fails w org cg k -> ch1 !! k = None).
    { intros [E1 E2]. subst st1. rewrite E1, E2 in Hst1.
      injection Hst1 as _ <- _. apply lookup_delete_eq. }
    assert (Hch1_ok : ~ creation_fails w org cg k -> ch1 !! k = ch !! k).
    { intros Hn. subst st1. unfold creation_fails in Hn.
      destruct (cg !! k).
      - by injection Hst1 as _ <- _.
      - destruct (create_group w org k); injection Hst1 as _ <- _;
          [done|tauto]. }
    assert (Hcg1_some : forall x, cg !! k = Some x -> cg1 !! k = Some x).
    { intros x E. subst st1. rewrite E in Hst1. by injection Hst1 as <- _ _. }
    assert (Hcg1_none : cg !! k = None ->
              cg1 !! k = created_group org k <$> create_group w org k).
    { intros E. subst st1. rewrite E in Hst1.
      destruct (create_group w org k); injection Hst1 as <- _ _.
      - by rewrite lookup_insert_eq.
      - done. }
    assert (Hfails : forall g, g <> k ->
              (creation_fails w1 org cg1 g <-> creation_fails w org cg g)).
    { intros g Hg. unfold creation_fails. by rewrite Hcreate, Hcg1. }
    exists cg', ch', w'.
    split.
    { rewrite Hrun, Hgs, Hcreated1. simpl. by rewrite <- app_assoc. }
    split; [by eapply same_services_trans|].
    split; [|split; [|split]].
    + intros g. rewrite Hch.
      destruct (decide (g = k)) as [->|Hne].
      * destruct (decide (k ∈ ks /\ _)) as [[? _]|_]; [done|].
        destruct (decide (k ∈ k :: ks /\ _)) as [[_ Hf]|Hn].
        -- by apply Hch1_fail.
        -- apply Hch1_ok. intros Hf. apply Hn.
           split; [apply list_elem_of_here|done].
      * rewrite <- (Hch1 g Hne).
        destruct (decide (g ∈ ks /\ _)) as [[Hin Hf]|Hn];
          destruct (decide (g ∈ k :: ks /\ _)) as [[Hin' Hf']|Hn'];
          try done.
        -- exfalso. apply Hn'. split; [by apply list_elem_of_further|].
           by apply Hfails.
        -- exfalso. apply Hn. apply elem_of_cons in Hin' as [?|?]; [done|].
           split; [done|]. by apply Hfails.
    + intros g. rewrite Hcg. rewrite Hcreate.
      destruct (decide (g = k)) as [->|Hne].
      * destruct (decide (k ∈ ks /\ _)) as [[? _]|_]; [done|].
        destruct (decide (k ∈ k :: ks /\ _)) as [[_ E]|Hn].
        -- by apply Hcg1_none.
        -- destruct (cg !! k) as [x|] eqn:E.
           ++ by apply Hcg1_some.
           ++ exfalso. apply Hn. split; [apply list_elem_of_here|done].
      * rewrite Hcg1 by done.
        destruct (decide (g ∈ ks /\ _)) as [[Hin E]|Hn];
          destruct (decide (g ∈ k :: ks /\ _)) as [[Hin' E']|Hn'];
          try done.
        -- exfalso. apply Hn'. split; [by apply list_elem_of_further|done].
        -- exfalso. apply Hn. apply elem_of_cons in Hin' as [?|?]; [done|].
           done.
    + rewrite Htr, Hev. subst w1. simpl.
      rewrite trace_emits. by rewrite <- app_assoc.
    + rewrite Hgr, Hgs. subst w1. simpl. by rewrite <- app_assoc.
Qed.

(** ** Applying the change set *)

Lemma applyGroupChanges_step_run (lookupUser : gmap UUID User)
    (cg : gmap string Group) (ch : gmap string PatchGroupRequest)
    (group : string) (w : World) :
  applyGroupChanges_step lookupUser cg ch tt group w =
    match ch !! group with
    | None => (Ok tt, w)
    | Some req =>
        match cg !! group with
        | None =>
            (Err (Errorf ("group " +:+ group
                          +:+ " not found, unable to apply group sync")), w)
        | Some coderGroup =>
            if patch_accepted w (Group_ID coderGroup) then
              (Ok tt,
               emit (Log (LogGroupPatched group
                            (UserIDsToNames lookupUser (AddUsers req))
                            (UserIDsToNames lookupUser (RemoveUsers req))))
                 (set_groups
                    (patched_groups (Group_ID coderGroup) req (groups w))
                    (emit (CallPatchGroup (Group_ID coderGroup) req) w)))
            else
              (Err (patch_error group),
               emit (CallPatchGroup (Group_ID coderGroup) req) w)
        end
    end.
Proof.
  unfold applyGroupChanges_step.
  destruct (ch !! group) as [req|]; [|done].
  destruct (cg !! group) as [coderGroup|]; [|done].
  unfold bind, wrap, PatchGroup, patch_accepted, log. simpl.
  destruct (patch_err w (Group_ID coderGroup)); [done|]. simpl.
  destruct (List.find _ (groups w)) as [g|]; reflexivity.
Qed.

Lemma apply_loop_run (lookupUser : gmap UUID User) (cg : gmap string Group)
    (ch : gmap string PatchGroupRequest) (ks : list string) :
  forall (w : World),
  let r := for_each ks (applyGroupChanges_step lookupUser cg ch) tt w in
  same_services w r.2
  /\ (r.1 = Ok tt ->
      trace r.2 = trace w ++ flat_map (patch_events lookupUser cg ch) ks)
  /\ (forall e, e ∈ trace r.2 ->
        e ∈ trace w
        \/ exists g, g ∈ ks /\ e ∈ patch_events lookupUser cg ch g)
  /\ ((forall g, g ∈ ks -> is_Some (ch !! g) -> is_Some (cg !! g)) ->
      r.1 = Ok tt \/ exists g, g ∈ ks /\ r.1 = Err (patch_error g)).
Proof.
  induction ks as [|k ks IH]; intros w r; subst r.
  - simpl. split; [apply same_services_refl|].
    split; [by rewrite app_nil_r|]. split; [by left|by left].
  - cbn [for_each flat_map]. unfold bind.
    rewrite applyGroupChanges_step_run. unfold patch_events at 1.
    destruct (ch !! k) as [req|] eqn:Ech.
    2:{ destruct (IH w) as (Hs & Hok & Hin & Hdom).
        split; [done|]. split; [done|]. split.
        - intros e He. destruct (Hin e He) as [?|(g & ? & ?)]; [by left|].
          right. exists g. split; [by apply list_elem_of_further|done].
        - intros Hd. destruct Hdom as [?|(g & ? & ?)].
          + intros g Hg. apply Hd. by apply list_elem_of_further.
          + by left.
          + right. exists g. split; [by apply list_elem_of_further|done]. }
    destruct (cg !! k) as [coderGroup|] eqn:Ecg.
    2:{ simpl. split; [apply same_services_refl|]. split; [done|].
        split; [by left|].
        intros Hd. destruct (Hd k) as [? ?]; [apply list_elem_of_here|eauto|].
        congruence. }
    destruct (patch_accepted w (Group_ID coderGroup)).
    + set (w1 := emit _ (set_groups _ (emit _ w))).
      destruct (IH w1) as (Hs & Hok & Hin & Hdom).
      assert (Htr1 : trace w1 = trace w ++
                [CallPatchGroup (Group_ID coderGroup) req;
                 Log (LogGroupPatched k
                        (UserIDsToNames lookupUser (AddUsers req))
                        (UserIDsToNames lookupUser (RemoveUsers req)))]).
      { subst w1. simpl. by rewrite <- app_assoc. }
      split.
      { eapply same_services_trans; [|exact Hs]. subst w1.
        by repeat split. }
      split; [|split].
      * intros H. rewrite (Hok H), Htr1. by rewrite <- app_assoc.
      * intros e He. destruct (Hin e He) as [H|(g & ? & ?)].
        -- rewrite Htr1 in H. apply elem_of_app in H as [?|H]; [by left|].
           right. exists k. split; [apply list_elem_of_here|].
           unfold patch_events. by rewrite Ech, Ecg.
        -- right. exists g. split; [by apply list_elem_of_further|done].
      * intros Hd. destruct Hdom as [?|(g & ? & ?)].
        -- intros g Hg. apply Hd. by apply list_elem_of_further.
        -- by left.
        -- right. exists g. split; [by apply list_elem_of_further|done].
    + simpl. split; [by repeat split|]. split; [done|]. split.
      * intros e He. apply elem_of_app in He as [?|He]; [by left|].
        right. exists k. split; [apply list_elem_of_here|].
        unfold patch_events. rewrite Ech, Ecg.
        apply list_elem_of_singleton in He as ->. apply list_elem_of_here.
      * intros _. right. exists k. split; [apply list_elem_of_here|done].
Qed.

(** A patch keeps the IDs of the groups, so whether the server accepts
    a patch of a group does not depend on the patches sent before. *)
Lemma find_patched_groups (id id' : UUID) (req : PatchGroupRequest)
    (gs : list Group) :
  is_Some (List.find (fun g => bool_decide (Group_ID g = id))
                     (patched_groups id' req gs))
  <-> is_Some (List.find (fun g => bool_decide (Group_ID g = id)) gs).
Proof.
  induction gs as [|g gs IH]; [done|].
  cbn [patched_groups map List.find].
  assert (Hid : Group_ID (if decide (Group_ID g = id')
                          then patch_members req g else g) = Group_ID g)
    by (by destruct (decide (Group_ID g = id'))).
  rewrite Hid.
  destruct (bool_decide (Group_ID g = id)).
  - split; intros _; by eexists.
  - exact IH.
Qed.

Lemma patch_accepted_patched (w : World) (id' : UUID)
    (req : PatchGroupRequest) (l : LogLine) (id : UUID) :
  patch_accepted
    (emit (Log l)
       (set_groups (patched_groups id' req (groups w))
          (emit (CallPatchGroup id' req) w))) id
  = patch_accepted w id.
Proof.
  unfold patch_accepted. cbn [patch_err groups emit set_groups].
  f_equal. apply bool_decide_ext, find_patched_groups.
Qed.

Lemma apply_loop_stops (lookupUser : gmap UUID User) (cg : gmap string Group)
    (ch : gmap string PatchGroupRequest) (ks : list string) :
  forall (w : World),
  let r := for_each ks (applyGroupChanges_step lookupUser cg ch) tt w in
  (forall msg, r.1 <> Fatal msg)
  /\ forall e, r.1 = Err e ->
       exists ks1 k ks2 req,
         ks = ks1 ++ k :: ks2
         /\ ch !! k = Some req
         /\ groups r.2 = foldl (patch_step cg ch) (groups w) ks1
         /\ ((cg !! k = None
              /\ e = Errorf ("group " +:+ k
                             +:+ " not found, unable to apply group sync")
              /\ trace r.2
                 = trace w ++ flat_map (patch_events lookupUser cg ch) ks1)
             \/ (exists g,
                   cg !! k = Some g
                   /\ e = patch_error k
                   /\ trace r.2
                      = trace w
                        ++ flat_map (patch_events lookupUser cg ch) ks1
                        ++ [CallPatchGroup (Group_ID g) req]
                   /\ patch_accepted w (Group_ID g) = false)).
Proof.
  induction ks as [|k ks IH]; intros w r; subst r.
  - simpl. split; [done|]. intros e He. discriminate He.
  - cbn [for_each]. unfold bind.
    rewrite applyGroupChanges_step_run.
    destruct (ch !! k) as [req|] eqn:Ech.
    2:{ destruct (IH w) as (Hf & Herr). split; [done|].
        intros e He.
        destruct (Herr e He) as (ks1 & k' & ks2 & req & -> & Hk & Hg & Ht).
        exists (k :: ks1), k', ks2, req.
        split; [done|]. split; [done|].
        cbn [foldl flat_map]. unfold patch_step at 2, patch_events at 1.
        unfold patch_events at 2. rewrite Ech. by cbn [app]. }
    destruct (cg !! k) as [coderGroup|] eqn:Ecg.
    2:{ simpl. split; [done|]. intros e He. injection He as <-.
        exists [], k, ks, req. split; [done|]. split; [done|].
        split; [done|]. left. simpl. by rewrite app_nil_r. }
    destruct (patch_accepted w (Group_ID coderGroup)) eqn:Eacc.
    + set (w1 := emit _ (set_groups _ (emit _ w))).
      assert (Hst : forall id, patch_accepted w1 id = patch_accepted w id)
        by (intros id; apply patch_accepted_patched).
      destruct (IH w1) as (Hf & Herr). split; [done|].
      intros e He.
      destruct (Herr e He) as (ks1 & k' & ks2 & req' & -> & Hk & Hg & Ht).
      exists (k :: ks1), k', ks2, req'.
      split; [done|]. split; [done|].
      assert (Hpe : patch_events lookupUser cg ch k
                    = [CallPatchGroup (Group_ID coderGroup) req;
                       Log (LogGroupPatched k
                              (UserIDsToNames lookupUser (AddUsers req))
                              (UserIDsToNames lookupUser (RemoveUsers req)))]).
      { unfold patch_events. by rewrite Ech, Ecg. }
      assert (Htr1 : trace w1
                     = trace w ++ patch_events lookupUser cg ch k).
      { rewrite Hpe. subst w1. simpl. by rewrite <- app_assoc. }
      split.
      { rewrite Hg. cbn [foldl].
        assert (patch_step cg ch (groups w) k = groups w1) as ->; [|done].
        unfold patch_step. by rewrite Ech, Ecg. }
      cbn [flat_map]. rewrite Htr1 in Ht.
      destruct Ht as [(? & ? & Ht)|(g & ? & ? & Ht)]; [left|right].
      * split; [done|]. split; [done|]. by rewrite Ht, <- app_assoc.
      * destruct Ht as [Ht Hre]. exists g. split; [done|]. split; [done|].
        split; [by rewrite Ht, <- !app_assoc|]. by rewrite <- Hst.
    + simpl. split; [done|]. intros e He. injection He as <-.
      exists [], k, ks, req. split; [done|]. split; [done|].
      split; [done|]. right. by exists coderGroup.
Qed.

Lemma apply_loop_groups (lookupUser : gmap UUID User) (cg : gmap string Group)
    (ch : gmap string PatchGroupRequest) (ks : list string) :
  forall (w : World),
  (for_each ks (applyGroupChanges_step lookupUser cg ch) tt w).1 = Ok tt ->
  groups (for_each ks (applyGroupChanges_step lookupUser cg ch) tt w).2
  = foldl (patch_step cg ch) (groups w) ks.
Proof.
  induction ks as [|k ks IH]; intros w; [done|].
  cbn [for_each foldl]. unfold bind, patch_step at 2.
  rewrite applyGroupChanges_step_run.
  destruct (ch !! k) as [req|]; [|apply IH].
  destruct (cg !! k) as [g|]; [|done].
  destruct (patch_accepted w (Group_ID g)); [|done].
  intros H. by rewrite IH.
Qed.

Lemma apply_loop_Ok_iff (lookupUser : gmap UUID User)
    (cg : gmap string Group) (ch : gmap string PatchGroupRequest)
    (ks : list string) :
  forall (w : World),
  (for_each ks (applyGroupChanges_step lookupUser cg ch) tt w).1 = Ok tt
  <-> forall k req, k ∈ ks -> ch !! k = Some req ->
        exists g, cg !! k = Some g
                  /\ patch_accepted w (Group_ID g) = true.
Proof.
  induction ks as [|k ks IH]; intros w.
  - simpl. split; [|done]. intros _ k req Hk. by apply elem_of_nil in Hk.
  - cbn [for_each]. unfold bind. rewrite applyGroupChanges_step_run.
    destruct (ch !! k) as [req|] eqn:Ech.
    2:{ rewrite IH. split.
        - intros H k' req' Hk' Hreq'.
          apply elem_of_cons in Hk' as [->|Hk']; [congruence|eauto].
        - intros H k' req' Hk'. apply H. by apply list_elem_of_further. }
    destruct (cg !! k) as [coderGroup|] eqn:Ecg.
    2:{ simpl. split; [done|]. intros H.
        destruct (H k req (list_elem_of_here _ _) Ech) as (g & Hg & _).
        congruence. }
    destruct (patch_accepted w (Group_ID coderGroup)) eqn:Eacc.
    + rewrite IH. split.
      * intros H k' req' Hk' Hreq'.
        apply elem_of_cons in Hk' as [->|Hk'].
        -- exists coderGroup. split; [done|]. congruence.
        -- destruct (H k' req' Hk' Hreq') as (g & Hg & Ha).
           exists g. split; [done|]. by rewrite patch_accepted_patched in Ha.
      * intros H k' req' Hk' Hreq'.
        destruct (H k' req' (list_elem_of_further _ _ _ Hk') Hreq')
          as (g & Hg & Ha).
        exists g. split; [done|]. by rewrite patch_accepted_patched.
    + simpl. split; [done|]. intros H.
      destruct (H k req (list_elem_of_here _ _) Ech) as (g & Hg & Ha).
      congruence.
Qed.

(** ** Fair [range] orders *)

Lemma fair_NoDup range_order stmt (m : gmap string PatchGroupRequest) :
  fair range_order -> NoDup (range_order stmt m).
Proof.
  intros H. rewrite (H stmt m). apply NoDup_fst_map_to_list.
Qed.

Lemma fair_elem_of range_order stmt (m : gmap string PatchGroupRequest) g :
  fair range_order -> g ∈ range_order stmt m <-> is_Some (m !! g).
Proof.
  intros H. rewrite (H stmt m). rewrite list_elem_of_fmap. split.
  - intros ([k v] & -> & Hin). apply elem_of_map_to_list in Hin. eauto.
  - intros [v Hv]. exists (g, v). split; [done|].
    by apply elem_of_map_to_list.
Qed.

Lemma fair_key_order : fair key_order.
Proof. intros stmt m. reflexivity. Qed.

Lemma createMissingGroups_run range_order (org : UUID)
    (cg : gmap string Group) (ch : gmap string PatchGroupRequest)
    (w : World) :
  fair range_order ->
  exists cg' ch' w',
    createMissingGroups range_order org cg ch w = (Ok (cg', ch'), w')
    /\ same_services w w'
    /\ (forall g, ch' !! g =
          if decide (creation_fails w org cg g) then None else ch !! g)
    /\ (forall g, cg' !! g =
          if decide (is_Some (ch !! g) /\ cg !! g = None)
          then created_group org g <$> create_group w org g
          else cg !! g)
    /\ trace w' = trace w ++ creation_trace range_order w org cg ch
    /\ groups w' = groups w ++ created_groups range_order w org cg ch.
Proof.
  intros Hfair.
  destruct (create_loop_run org (range_order InCreateMissingGroups ch) cg ch [] w)
    as (cg' & ch' & w1 & Hrun & Hs & Hch & Hcg & Htr & Hgr).
  { by apply fair_NoDup. }
  unfold createMissingGroups, bind at 1. rewrite Hrun.
  unfold creation_trace, created_groups. simpl.
  set (created := flat_map (create_groups w org cg) (range_order InCreateMissingGroups ch)) in *.
  assert (Hch' : forall g, ch' !! g =
            if decide (creation_fails w org cg g) then None else ch !! g).
  { intros g. rewrite Hch.
    destruct (decide (g ∈ range_order InCreateMissingGroups ch /\ _))
      as [[Hin Hf]|Hn];
      destruct (decide (creation_fails w org cg g)) as [Hf'|Hn'];
      try done.
    destruct (ch !! g) eqn:E; [|done].
    exfalso. apply Hn. split; [|done].
    apply fair_elem_of; [done|]. eauto. }
  assert (Hcg' : forall g, cg' !! g =
            if decide (is_Some (ch !! g) /\ cg !! g = None)
            then created_group org g <$> create_group w org g
            else cg !! g).
  { intros g. rewrite Hcg.
    destruct (decide (g ∈ range_order InCreateMissingGroups ch /\ _))
      as [[Hin E]|Hn];
      destruct (decide (is_Some (ch !! g) /\ _)) as [[Hin' E']|Hn'];
      try done.
    - exfalso. apply Hn'. split; [|done].
      by apply (fair_elem_of range_order InCreateMissingGroups).
    - exfalso. apply Hn. split; [|done]. by apply fair_elem_of. }
  destruct created as [|c cs] eqn:Ecreated.
  - exists cg', ch', w1. unfold bind, ret. simpl.
    rewrite app_nil_r. done.
  - exists cg', ch', (emit (Log (LogCreated (c :: cs))) w1).
    unfold bind, ret, log. simpl.
    split; [done|]. split.
    { eapply same_services_trans; [exact Hs|apply same_services_emit]. }
    split; [done|]. split; [done|]. split; [|done].
    rewrite Htr. by rewrite <- app_assoc.
Qed.

(** C7.  When the group [X] has an entry in the change set, is absent
    from the snapshot of the target groups, and the server refuses to
    create it, [createMissingGroups] still returns normally; the entry
    of [X] is gone from the change set it returns and a warning for [X]
    is logged; the entry of every group whose creation was not refused
    is what it was; and in the application that follows, every patch
    sent is the unchanged entry of a group other than [X], sent to that
    group; the application never stops on a group it cannot resolve, and
    when it returns normally every remaining entry has been sent.  The
    remaining entries are applied: the application ends normally exactly
    when the server accepts the patch of every remaining entry, and then
    it has sent the patch of each of them, in the order of the [range],
    and the groups of the server are the result of these patches; when
    it returns an error, the server has refused the patch of a group
    other than [X], and the entries visited before have been applied. *)
Theorem creation_failure_isolated
    (range_order : RangeOrder)
    (org : UUID) (lookupUser : gmap UUID User)
    (coderGroups : gmap string Group)
    (changes : gmap string PatchGroupRequest) (w : World) (X : string) :
  fair range_order ->
  is_Some (changes !! X) ->
  coderGroups !! X = None ->
  create_group w org X = None ->
  exists coderGroups' changes' w',
    createMissingGroups range_order org coderGroups changes w
    = (Ok (coderGroups', changes'), w')
    /\ changes' !! X = None
    /\ coderGroups' !! X = None
    /\ Log (LogCreateFailed X (ApiError "CreateGroup")) ∈ trace w'
    /\ (forall e, e ∈ trace w' -> is_mutation e = true ->
          e ∈ trace w \/ exists Y, e = CallCreateGroup org (create_request Y))
    /\ (forall Y, ~ creation_fails w org coderGroups Y ->
          changes' !! Y = changes !! Y)
    /\ (forall Y, creation_fails w org coderGroups Y -> changes' !! Y = None)
    /\ (let r := applyGroupChanges range_order org lookupUser
                   coderGroups' changes' w' in
        (forall id req, CallPatchGroup id req ∈ trace r.2 ->
           CallPatchGroup id req ∈ trace w
           \/ exists Y coderGroup,
                Y <> X /\ changes !! Y = Some req
                /\ coderGroups' !! Y = Some coderGroup
                /\ id = Group_ID coderGroup)
        /\ (r.1 = Ok tt \/ exists Y, Y <> X /\ r.1 = Err (patch_error Y))
        /\ (r.1 = Ok tt ->
            forall Y req, changes' !! Y = Some req ->
              exists coderGroup,
                coderGroups' !! Y = Some coderGroup
                /\ CallPatchGroup (Group_ID coderGroup) req ∈ trace r.2)
        /\ (r.1 = Ok tt
            <-> forall Y req coderGroup,
                  changes' !! Y = Some req ->
                  coderGroups' !! Y = Some coderGroup ->
                  patch_accepted w' (Group_ID coderGroup) = true)
        /\ (r.1 = Ok tt ->
            trace r.2
            = trace w'
              ++ flat_map (patch_events lookupUser coderGroups' changes')
                          (range_order InApplyGroupChanges changes')
            /\ groups r.2
               = foldl (patch_step coderGroups' changes') (groups w')
                       (range_order InApplyGroupChanges changes'))
        /\ (forall e, r.1 = Err e ->
              exists before Y after req coderGroup,
                range_order InApplyGroupChanges changes'
                = before ++ Y :: after
                /\ Y <> X
                /\ changes !! Y = Some req
                /\ coderGroups' !! Y = Some coderGroup
                /\ e = patch_error Y
                /\ patch_accepted w' (Group_ID coderGroup) = false
                /\ trace r.2
                   = trace w'
                     ++ flat_map
                          (patch_events lookupUser coderGroups' changes')
                          before
                     ++ [CallPatchGroup (Group_ID coderGroup) req]
                /\ groups r.2
                   = foldl (patch_step coderGroups' changes') (groups w')
                           before)).
Proof.
  intros Hfair HX HcgX Hcreate.
  destruct (createMissingGroups_run range_order org coderGroups changes w Hfair)
    as (cg' & ch' & w' & Hrun & Hs & Hch & Hcg & Htr & Hgr).
  assert (HfailX : creation_fails w org coderGroups X) by done.
  assert (HchX : ch' !! X = None).
  { rewrite Hch. by rewrite decide_True. }
  assert (Hdom : forall g, is_Some (ch' !! g) -> is_Some (cg' !! g)).
  { intros g. rewrite Hch, Hcg.
    destruct (decide (creation_fails w org coderGroups g)) as [Hf|Hn].
    - by intros [? ?].
    - intros Hsome. destruct (decide (_ /\ _)) as [[_ E]|Hn'].
      + destruct (create_group w org g) eqn:Ec; [by eexists|].
        exfalso. by apply Hn.
      + destruct (coderGroups !! g) eqn:E; [by eexists|].
        exfalso. by apply Hn'. }
  exists cg', ch', w'.
  split; [done|]. split; [done|].
  split.
  { rewrite Hcg, decide_True by done. by rewrite Hcreate. }
  split.
  { rewrite Htr. apply elem_of_app. right.
    unfold creation_trace. apply elem_of_app. left.
    apply list_elem_of_In, in_flat_map. exists X. split.
    - apply list_elem_of_In. by apply fair_elem_of.
    - unfold create_events. rewrite HcgX, Hcreate.
      apply list_elem_of_In. apply list_elem_of_further, list_elem_of_here. }
  split.
  { intros e He Hm. rewrite Htr in He.
    apply elem_of_app in He as [?|He]; [by left|]. right.
    unfold creation_trace in He. apply elem_of_app in He as [He|He].
    - apply list_elem_of_In, in_flat_map in He as (Y & _ & He).
      apply list_elem_of_In in He. unfold create_events in He.
      destruct (coderGroups !! Y); [by apply elem_of_nil in He|].
      exists Y.
      destruct (create_group w org Y).
      + by apply list_elem_of_singleton in He.
      + apply elem_of_cons in He as [?|He]; [done|].
        apply list_elem_of_singleton in He. by subst e.
    - destruct (created_groups _ _ _ _ _); [by apply elem_of_nil in He|].
      apply list_elem_of_singleton in He. by subst e. }
  split.
  { intros Y HY. rewrite Hch. by rewrite decide_False. }
  split.
  { intros Y HY. rewrite Hch. by rewrite decide_True. }
  intros r. subst r. unfold applyGroupChanges.
  destruct (apply_loop_run lookupUser cg' ch' (range_order InApplyGroupChanges ch') w')
    as (Hs2 & Hok & Hin & Hres).
  assert (Hkeys : forall Y, Y ∈ range_order InApplyGroupChanges ch' -> Y <> X).
  { intros Y HY ->.
    apply (fair_elem_of range_order InApplyGroupChanges) in HY; [|done].
    rewrite HchX in HY. by destruct HY. }
  split; [|split; [|split; [|split; [|split]]]].
  - intros id req He. destruct (Hin _ He) as [He'|(Y & HY & He')].
    + rewrite Htr in He'. apply elem_of_app in He' as [?|He']; [by left|].
      exfalso. unfold creation_trace in He'.
      apply elem_of_app in He' as [He'|He'].
      * apply list_elem_of_In, in_flat_map in He' as (Y & _ & He').
        apply list_elem_of_In in He'. unfold create_events in He'.
        destruct (coderGroups !! Y); [by apply elem_of_nil in He'|].
        destruct (create_group w org Y).
        -- by apply list_elem_of_singleton in He'.
        -- apply elem_of_cons in He' as [?|He']; [done|].
           by apply list_elem_of_singleton in He'.
      * destruct (created_groups _ _ _ _ _); [by apply elem_of_nil in He'|].
        by apply list_elem_of_singleton in He'.
    + right. unfold patch_events in He'.
      destruct (ch' !! Y) as [req'|] eqn:Ech; [|by apply elem_of_nil in He'].
      destruct (cg' !! Y) as [cgp|] eqn:Ecg; [|by apply elem_of_nil in He'].
      apply elem_of_cons in He' as [[= -> ->]|He'].
      2:{ by apply list_elem_of_singleton in He'. }
      exists Y, cgp. split; [by apply Hkeys|]. split; [|done].
      rewrite Hch in Ech. by destruct (decide _).
  - destruct Hres as [?|(Y & HY & ?)].
    + intros g _. apply Hdom.
    + by left.
    + right. exists Y. split; [by apply Hkeys|done].
  - intros Hr Y req HY. destruct (Hdom Y) as [cgp Hcgp]; [eauto|].
    exists cgp. split; [done|]. rewrite (Hok Hr).
    apply elem_of_app. right.
    apply list_elem_of_In, in_flat_map. exists Y. split.
    + apply list_elem_of_In. apply fair_elem_of; [done|eauto].
    + unfold patch_events. rewrite HY, Hcgp.
      apply list_elem_of_In, list_elem_of_here.
  - rewrite apply_loop_Ok_iff. split.
    + intros H Y req G HY HG.
      destruct (H Y req) as (G' & HG' & Ha); [|done|congruence].
      apply fair_elem_of; [done|eauto].
    + intros H Y req _ HY. destruct (Hdom Y) as [G HG]; [eauto|].
      exists G. split; [done|]. by apply (H Y req).
  - intros Hr. split; [by apply Hok|]. by apply apply_loop_groups.
  - intros e He.
    destruct (apply_loop_stops lookupUser cg' ch'
                (range_order InApplyGroupChanges ch') w') as (_ & Herr).
    destruct (Herr e He) as (ks1 & Y & ks2 & req & Hks & HY & Hg & Ht).
    destruct Ht as [(Hnone & _)|(G & HG & -> & Ht & Hre)].
    { destruct (Hdom Y) as [G HG]; [eauto|]. congruence. }
    exists ks1, Y, ks2, req, G.
    split; [done|]. split.
    { apply Hkeys. rewrite Hks. apply elem_of_app. right.
      apply list_elem_of_here. }
    split.
    { rewrite Hch in HY. by destruct (decide _). }
    done.
Qed.

(** ** Runs that depart from the specification *)

(** C4 (the script).  Started on a deployment with no default
    organization, [main] of the standalone script does not stop: it lists
    the groups of the nil organization, runs the loop over the users, asks
    for two groups to be created, and ends normally with the report that
    nothing had to change. *)
Theorem script_main_without_default_organization :
  let r := script.main key_order "example.com" world_no_default in
  List.find Organization_IsDefault (organizations world_no_default) = None
  /\ r.1 = Ok tt
  /\ trace r.2 =
       [CallOrganizations;
        CallGroups {| GroupArguments_Organization := uuid_Nil;
                      GroupArguments_HasMember := "" |};
        CallUsers;
        CallGoogleGroups "alice@example.com";
        CallGroups {| GroupArguments_Organization := "";
                      GroupArguments_HasMember := "alice" |};
        CallCreateGroup uuid_Nil (create_request "catlovers");
        Log (LogCreateFailed "catlovers" (ApiError "CreateGroup"));
        CallCreateGroup uuid_Nil (create_request "doglovers");
        Log (LogCreateFailed "doglovers" (ApiError "CreateGroup"));
        Log (LogNoChanges 1)]
  /\ (SyncGroups key_order sync_example world_no_default).1
     = Err (Errorf "default organization not found")
  /\ trace (SyncGroups key_order sync_example world_no_default).2
     = [CallOrganizations].
Proof. vm_compute. repeat split; reflexivity. Qed.

(** C5 (the script).  When the only change of a run is for a group the
    server refuses to create, the change set is not empty after the loop
    over the users, a creation is attempted, and [main] of the standalone
    script still reports that there was nothing to change; [SyncGroups]
    on the same deployment does not report it. *)
Theorem script_main_reports_no_changes_after_failed_creation :
  let r := script.main key_order "example.com" world_dogs_refused in
  outcome_map coderGroupChanges
    (users_loop sync_example org_default [alice] world_dogs_refused).1
  = Ok {["doglovers" := {| AddUsers := ["id-alice"]; RemoveUsers := [] |}]}
  /\ r.1 = Ok tt
  /\ trace r.2 =
       [CallOrganizations;
        CallGroups {| GroupArguments_Organization := "org-default";
                      GroupArguments_HasMember := "" |};
        CallUsers;
        CallGoogleGroups "alice@example.com";
        CallGroups {| GroupArguments_Organization := "";
                      GroupArguments_HasMember := "alice" |};
        CallCreateGroup "org-default" (create_request "doglovers");
        Log (LogCreateFailed "doglovers" (ApiError "CreateGroup"));
        Log (LogNoChanges 1)]
  /\ trace (SyncGroups key_order sync_example world_dogs_refused).2 =
       [CallOrganizations;
        CallGroups {| GroupArguments_Organization := "org-default";
                      GroupArguments_HasMember := "" |};
        CallUsers;
        CallGoogleGroups "alice@example.com";
        CallGroups {| GroupArguments_Organization := "";
                      GroupArguments_HasMember := "alice" |};
        CallCreateGroup "org-default" (create_request "doglovers");
        Log (LogCreateFailed "doglovers" (ApiError "CreateGroup"))].
Proof. vm_compute. repeat split; reflexivity. Qed.

(** C6.  The listing of a user's current groups is sent with the user's
    handle and with no organization: for every eligible user whose
    directory groups can be read, the call recorded is [Groups] with an
    empty [Organization].  On a deployment with a second organization the
    Actual set of alice therefore holds the group [secret] of that
    organization, and the run creates a group [secret] in the default
    organization and patches it. *)
Theorem user_groups_listed_without_organization :
  (forall s defaultOrg st user w gGroups,
     eligible s user = true ->
     google_groups w (User_Email user) = Some gGroups ->
     CallGroups {| GroupArguments_Organization := "";
                   GroupArguments_HasMember := User_Username user |}
       ∈ trace (user_step s defaultOrg st user w).2)
  /\ cGroups_of world_two_orgs alice = [group_everyone; group_secret]
  /\ Group_OrganizationID group_secret <> Organization_ID org_default
  /\ (SyncGroups key_order sync_example world_two_orgs).1 = Ok tt
  /\ trace (SyncGroups key_order sync_example world_two_orgs).2 =
       [CallOrganizations;
        CallGroups {| GroupArguments_Organization := "org-default";
                      GroupArguments_HasMember := "" |};
        CallUsers;
        CallGoogleGroups "alice@example.com";
        CallGroups {| GroupArguments_Organization := "";
                      GroupArguments_HasMember := "alice" |};
        CallCreateGroup "org-default" (create_request "secret");
        Log (LogCreated [created_group "org-default" "secret" "id-secret"]);
        CallPatchGroup "id-secret"
          {| AddUsers := []; RemoveUsers := ["id-alice"] |};
        Log (LogGroupPatched "secret" [] ["alice@example.com"])].
Proof.
  split.
  - intros s defaultOrg st user w gGroups He Hg.
    rewrite user_step_eligible by done. rewrite Hg.
    fold (member_args user).
    destruct (groups_err w (member_args user)); cbn [snd];
      rewrite trace_emits.
    + apply elem_of_app. right.
      apply list_elem_of_further, list_elem_of_here.
    + apply elem_of_app. right.
      apply list_elem_of_further, list_elem_of_here.
  - vm_compute. repeat split; try reflexivity. discriminate.
Qed.

(** C2.  On the deployment with a second organization the first run
    succeeds, every creation and every patch of it is accepted, and the
    second run, started in the world the first one left, computes the
    same removal again and sends the same patch. *)
Theorem second_run_not_empty :
  let r1 := SyncGroups key_order sync_example world_two_orgs in
  let r2 := SyncGroups key_order sync_example r1.2 in
  r1.1 = Ok tt
  /\ mutations (trace r1.2) =
       [CallCreateGroup "org-default" (create_request "secret");
        CallPatchGroup "id-secret"
          {| AddUsers := []; RemoveUsers := ["id-alice"] |}]
  /\ groups r1.2 =
       [group_everyone; group_secret;
        created_group "org-default" "secret" "id-secret"]
  /\ r2.1 = Ok tt
  /\ new_events r1.2 r2 =
       [CallOrganizations;
        CallGroups {| GroupArguments_Organization := "org-default";
                      GroupArguments_HasMember := "" |};
        CallUsers;
        CallGoogleGroups "alice@example.com";
        CallGroups {| GroupArguments_Organization := "";
                      GroupArguments_HasMember := "alice" |};
        CallPatchGroup "id-secret"
          {| AddUsers := []; RemoveUsers := ["id-alice"] |};
        Log (LogGroupPatched "secret" [] ["alice@example.com"])].
Proof. vm_compute. repeat split; reflexivity. Qed.

(** ** The loop over the users as a whole *)

Lemma same_state_refl w : same_state w w.
Proof. split; [apply same_services_refl|done]. Qed.

Lemma same_state_trans w1 w2 w3 :
  same_state w1 w2 -> same_state w2 w3 -> same_state w1 w3.
Proof.
  intros [H1 G1] [H2 G2]. split; [by eapply same_services_trans|congruence].
Qed.

Lemma same_state_emits es w : same_state w (emits es w).
Proof. split; [apply same_services_emits|apply groups_emits]. Qed.

Lemma cGroups_of_same w0 w user :
  same_state w0 w -> cGroups_of w user = cGroups_of w0 user.
Proof.
  intros [Hs Hg]. unfold cGroups_of. rewrite Hg.
  apply list_filter_iff. intros g.
  unfold group_matches, is_member.
  destruct Hs as (_ & _ & _ & -> & _). done.
Qed.

Lemma source_groups_same w0 w user :
  same_state w0 w -> source_groups w user = source_groups w0 user.
Proof.
  intros [Hs _]. unfold source_groups.
  destruct Hs as (_ & _ & _ & _ & _ & _ & _ & ->). done.
Qed.

Lemma fetch_ok_same w0 w user :
  same_state w0 w -> fetch_ok w user <-> fetch_ok w0 user.
Proof.
  intros [Hs _]. unfold fetch_ok.
  destruct Hs as (_ & _ & -> & _ & _ & _ & _ & ->). done.
Qed.

Lemma user_events_same s w0 w user :
  same_state w0 w -> user_events s w user = user_events s w0 user.
Proof.
  intros H. unfold user_events. by rewrite (source_groups_same w0 w).
Qed.

Lemma user_step_ok (s : Sync) (defaultOrg : Organization) (st : LoopState)
    (user : User) (w : World) :
  (eligible s user = true -> fetch_ok w user) ->
  user_step s defaultOrg st user w =
    (Ok (if eligible s user
         then after_user defaultOrg st user (source_groups w user)
                         (cGroups_of w user)
         else after_skipped st user),
     emits (user_events s w user) w).
Proof.
  intros Hf. unfold user_events. destruct (eligible s user) eqn:E.
  - destruct Hf as [[gGroups Hg] Herr]; [done|].
    rewrite user_step_eligible by done.
    unfold source_groups. rewrite Hg, Herr. done.
  - by rewrite user_step_skip.
Qed.

Lemma user_step_Ok_inv (s : Sync) (defaultOrg : Organization)
    (st st' : LoopState) (user : User) (w w' : World) :
  user_step s defaultOrg st user w = (Ok st', w') ->
  eligible s user = true -> fetch_ok w user.
Proof.
  intros H E. rewrite user_step_eligible in H by done. unfold fetch_ok.
  destruct (google_groups w (User_Email user)); [|done].
  destruct (groups_err w (member_args user)); [done|]. eauto.
Qed.

Lemma users_loop_ok (s : Sync) (defaultOrg : Organization) (w0 : World)
    (coderUsers : list User) :
  forall (st : LoopState) (w : World),
  same_state w0 w ->
  (forall u, u ∈ coderUsers -> eligible s u = true -> fetch_ok w0 u) ->
  for_each coderUsers (user_step s defaultOrg) st w =
    (Ok (loop_state s defaultOrg w0 coderUsers st),
     emits (flat_map (user_events s w0) coderUsers) w).
Proof.
  induction coderUsers as [|u us IH]; intros st w Hw Hf; [done|].
  cbn [for_each flat_map]. unfold bind.
  rewrite user_step_ok.
  2:{ intros E. apply (fetch_ok_same w0 w); [done|].
      apply Hf; [apply list_elem_of_here|done]. }
  rewrite IH.
  - rewrite emits_app. unfold loop_state. cbn [foldl].
    rewrite (cGroups_of_same w0 w), (source_groups_same w0 w) by done.
    by rewrite (user_events_same s w0 w).
  - eapply same_state_trans; [exact Hw|apply same_state_emits].
  - intros v Hv. apply Hf. by apply list_elem_of_further.
Qed.

Lemma users_loop_Ok_inv (s : Sync) (defaultOrg : Organization) (w0 : World)
    (coderUsers : list User) :
  forall (st st' : LoopState) (w w' : World),
  same_state w0 w ->
  for_each coderUsers (user_step s defaultOrg) st w = (Ok st', w') ->
  forall u, u ∈ coderUsers -> eligible s u = true -> fetch_ok w0 u.
Proof.
  induction coderUsers as [|u us IH]; intros st st' w w' Hw Hrun v Hv E.
  - by apply elem_of_nil in Hv.
  - cbn [for_each] in Hrun. unfold bind in Hrun.
    destruct (user_step s defaultOrg st u w) as [[st1| |] w1] eqn:Hstep;
      try done.
    assert (Hu : eligible s u = true -> fetch_ok w u).
    { by eapply user_step_Ok_inv. }
    apply elem_of_cons in Hv as [->|Hv].
    + apply (fetch_ok_same w0 w); [done|]. by apply Hu.
    + rewrite user_step_ok in Hstep by done.
      injection Hstep as _ <-.
      eapply (IH st1 st' _ w' _ Hrun); done.
    Unshelve. eapply same_state_trans; [exact Hw|apply same_state_emits].
Qed.

(** ** [SyncGroups] as a whole *)

Lemma find_none_all {A} (f : A -> bool) (l : list A) :
  (forall x, x ∈ l -> f x = false) -> List.find f l = None.
Proof.
  induction l as [|x l IH]; intros H; [done|].
  simpl. rewrite H by apply list_elem_of_here.
  apply IH. intros y Hy. apply H. by apply list_elem_of_further.
Qed.

Lemma defaultOrganization_run (w : World) :
  defaultOrganization w =
    (if organizations_err w then
       Err (Wrap "failed to get coder organizations"
                 (ApiError "Organizations"))
     else
       match List.find Organization_IsDefault (organizations w) with
       | Some org => Ok org
       | None => Err (Errorf "default organization not found")
       end,
     emit CallOrganizations w).
Proof.
  unfold defaultOrganization, bind, wrap, Organizations. simpl.
  destruct (organizations_err w); [done|].
  by destruct (List.find _ _).
Qed.

Lemma coderGroups_run (orgID : UUID) (w : World) :
  coderGroups orgID w =
    (if groups_err w (org_args orgID) then
       Err (Wrap "failed to get coder groups" (ApiError "Groups"))
     else Ok (snapshot (org_groups w orgID)),
     emit (CallGroups (org_args orgID)) w).
Proof.
  unfold coderGroups, bind, wrap, Groups. simpl. fold (org_args orgID).
  by destruct (groups_err w (org_args orgID)).
Qed.

Lemma SyncGroups_run range_order (s : Sync) (defaultOrg : Organization)
    (w : World) :
  reads_ok s defaultOrg w ->
  let w4 := emits (read_events s defaultOrg w) w in
  let st := loop_state s defaultOrg w (users w) loop_init in
  SyncGroups range_order s w =
    if decide (size (coderGroupChanges st) = 0%nat) then
      (Ok tt, emit (Log (LogNoChanges (oidcUserCount st))) w4)
    else
      match createMissingGroups range_order (Organization_ID defaultOrg)
              (snapshot (org_groups w (Organization_ID defaultOrg)))
              (coderGroupChanges st) w4 with
      | (Ok (cg1, ch1), w5) =>
          wrap "failed to apply group changes"
            (applyGroupChanges range_order (Organization_ID defaultOrg)
               (userByID st) cg1 ch1) w5
      | (Err e, w5) => (Err (Wrap "failed to create missing groups" e), w5)
      | (Fatal msg, w5) => (Fatal msg, w5)
      end.
Proof.
  intros (Ho & Hd & Hg & Hu & Hf) w4 st.
  unfold SyncGroups. unfold bind at 1.
  rewrite defaultOrganization_run, Ho, Hd.
  unfold bind at 1. rewrite coderGroups_run.
  change (groups_err (emit CallOrganizations w)) with (groups_err w).
  rewrite Hg.
  unfold bind at 1. unfold wrap at 1, Users.
  cbn [users_err emit]. rewrite Hu.
  unfold bind at 1. unfold users_loop.
  set (w3 := emit CallUsers _).
  assert (Hw3 : same_state w w3).
  { subst w3. apply (same_state_emits [_; _; _] w). }
  change (users w3) with (users w).
  rewrite (users_loop_ok s defaultOrg w (users w) _ w3 Hw3 Hf).
  fold loop_init. fold st.
  assert (Hw4 : emits (flat_map (user_events s w) (users w)) w3 = w4).
  { subst w4 w3. unfold read_events. by rewrite emits_app. }
  rewrite Hw4.
  destruct (decide (size (coderGroupChanges st) = 0%nat)); [done|].
  unfold bind at 1. unfold wrap at 1.
  change (org_groups (emit CallOrganizations w)) with (org_groups w).
  destruct (createMissingGroups _ _ _ _ w4) as [[[cg1 ch1]|e|msg] w5]; done.
Qed.

Lemma user_events_read s w user e :
  e ∈ user_events s w user -> is_read e = true.
Proof.
  unfold user_events. destruct (eligible s user); [|by intros ?%elem_of_nil].
  intros [->|[->|H]%elem_of_cons]%elem_of_cons; [done..|].
  unfold skipped_lines in H. apply list_elem_of_fmap in H as (g & -> & _).
  done.
Qed.

Lemma read_events_read s defaultOrg w e :
  e ∈ read_events s defaultOrg w -> is_read e = true.
Proof.
  unfold read_events.
  intros [H|H]%elem_of_app.
  - repeat (apply elem_of_cons in H as [->|H]; [done|]).
    by apply elem_of_nil in H.
  - apply list_elem_of_In, in_flat_map in H as (u & _ & H).
    apply list_elem_of_In in H. by eapply user_events_read.
Qed.

Lemma creation_trace_creation range_order w org cg ch e :
  e ∈ creation_trace range_order w org cg ch -> is_creation e = true.
Proof.
  unfold creation_trace. intros [H|H]%elem_of_app.
  - apply list_elem_of_In, in_flat_map in H as (g & _ & H).
    apply list_elem_of_In in H. unfold create_events in H.
    destruct (cg !! g); [by apply elem_of_nil in H|].
    destruct (create_group w org g).
    + by apply list_elem_of_singleton in H as ->.
    + apply elem_of_cons in H as [->|H]; [done|].
      by apply list_elem_of_singleton in H as ->.
  - destruct (created_groups _ _ _ _ _); [by apply elem_of_nil in H|].
    by apply list_elem_of_singleton in H as ->.
Qed.

Lemma patch_events_application lookupUser cg ch g e :
  e ∈ patch_events lookupUser cg ch g -> is_application e = true.
Proof.
  unfold patch_events.
  destruct (ch !! g); [|by intros ?%elem_of_nil].
  destruct (cg !! g); [|by intros ?%elem_of_nil].
  intros [->|H]%elem_of_cons; [done|].
  by apply list_elem_of_singleton in H as ->.
Qed.

Lemma loop_state_count s defaultOrg w coderUsers st :
  oidcUserCount (loop_state s defaultOrg w coderUsers st) =
    (oidcUserCount st + length (List.filter (eligible s) coderUsers))%nat.
Proof.
  revert st. induction coderUsers as [|u us IH]; intros st.
  - simpl. lia.
  - unfold loop_state in *. cbn [foldl List.filter]. rewrite IH.
    destruct (eligible s u); simpl; lia.
Qed.

(** X1.  When the sequence returned by [Organizations] has no default
    organization, [SyncGroups] returns an error after that one call:
    nothing else is recorded and the world is otherwise untouched; when
    the call itself succeeded, the error is "default organization not
    found". *)
Theorem SyncGroups_fails_without_default_organization
    (range_order : RangeOrder)
    (s : Sync) (w : World) :
  (forall org, org ∈ organizations w -> Organization_IsDefault org = false) ->
  exists e,
    SyncGroups range_order s w = (Err e, emit CallOrganizations w)
    /\ (organizations_err w = false ->
        e = Errorf "default organization not found").
Proof.
  intros H. unfold SyncGroups, bind.
  rewrite defaultOrganization_run, (find_none_all _ _ H).
  destruct (organizations_err w); eexists; split; done.
Qed.

(** X2.  With every read succeeding, [SyncGroups] reports "no changes"
    exactly when the change set is empty at the end of the loop over the
    users: then the run ends there, having recorded its reads and the
    report (with the number of eligible users) and nothing else; when the
    change set is not empty the run goes on to [createMissingGroups] and
    [applyGroupChanges] and records no such report. *)
Theorem SyncGroups_reports_no_changes
    (range_order : RangeOrder)
    (s : Sync) (defaultOrg : Organization) (w : World) :
  fair range_order ->
  reads_ok s defaultOrg w ->
  let r := SyncGroups range_order s w in
  let w4 := emits (read_events s defaultOrg w) w in
  (forall e, e ∈ read_events s defaultOrg w -> is_mutation e = false)
  /\ (loop_changes s defaultOrg w = ∅ ->
      r = (Ok tt,
           emit (Log (LogNoChanges
                        (length (List.filter (eligible s) (users w))))) w4))
  /\ (loop_changes s defaultOrg w <> ∅ ->
      exists cg1 ch1 w5,
        createMissingGroups range_order (Organization_ID defaultOrg)
          (snapshot (org_groups w (Organization_ID defaultOrg)))
          (loop_changes s defaultOrg w) w4
        = (Ok (cg1, ch1), w5)
        /\ r = wrap "failed to apply group changes"
                 (applyGroupChanges range_order (Organization_ID defaultOrg)
                    (userByID (loop_state s defaultOrg w (users w) loop_init))
                    cg1 ch1) w5
        /\ forall n, Log (LogNoChanges n) ∈ trace r.2 ->
                     Log (LogNoChanges n) ∈ trace w).
Proof.
  intros Hfair Hreads r w4. subst r.
  rewrite (SyncGroups_run range_order s defaultOrg w Hreads).
  fold w4. unfold loop_changes.
  set (st := loop_state s defaultOrg w (users w) loop_init).
  split; [|split].
  - intros e He. apply read_events_read in He. by destruct e as [| | | | | |[]].
  - intros Hempty. rewrite decide_True.
    2:{ rewrite Hempty. apply map_size_empty. }
    subst st. rewrite loop_state_count. done.
  - intros Hne. rewrite decide_False.
    2:{ intros Hsz. by apply map_size_empty_iff in Hsz. }
    destruct (createMissingGroups_run range_order (Organization_ID defaultOrg)
                (snapshot (org_groups w (Organization_ID defaultOrg)))
                (coderGroupChanges st) w4 Hfair)
      as (cg1 & ch1 & w5 & Hrun & _ & _ & _ & Htr & _).
    rewrite Hrun. exists cg1, ch1, w5. split; [done|]. split; [done|].
    intros n Hn.
    assert (Hw : forall A (m : M A) msg w0, (wrap msg m w0).2 = (m w0).2).
    { intros A m msg w0. unfold wrap. by destruct (m w0) as [[]]. }
    rewrite Hw in Hn. unfold applyGroupChanges in Hn.
    destruct (apply_loop_run (userByID st) cg1 ch1 (range_order InApplyGroupChanges ch1) w5)
      as (_ & _ & Hin & _).
    destruct (Hin _ Hn) as [H|(g & _ & H)].
    + rewrite Htr in H. apply elem_of_app in H as [H|H].
      * subst w4. rewrite trace_emits in H.
        apply elem_of_app in H as [H|H]; [done|].
        by apply read_events_read in H.
      * by apply creation_trace_creation in H.
    + by apply patch_events_application in H.
Qed.

(** ** The change set at the end of the loop *)

Lemma loop_state_index s defaultOrg w coderUsers st n :
  index (coderGroupChanges (loop_state s defaultOrg w coderUsers st)) n =
    {| AddUsers :=
         AddUsers (index (coderGroupChanges st) n)
         ++ flat_map (fun u => if decide (n ∈ toAdd defaultOrg w u)
                               then [User_ID u] else [])
                     (List.filter (eligible s) coderUsers);
       RemoveUsers :=
         RemoveUsers (index (coderGroupChanges st) n)
         ++ flat_map (fun u => if decide (n ∈ toRemove defaultOrg w u)
                               then [User_ID u] else [])
                     (List.filter (eligible s) coderUsers) |}.
Proof.
  revert st. induction coderUsers as [|u us IH]; intros st.
  - simpl. rewrite !app_nil_r. by destruct (index _ n).
  - unfold loop_state in *. cbn [foldl List.filter]. rewrite IH.
    destruct (eligible s u).
    + unfold after_user. cbn [coderGroupChanges flat_map].
      rewrite record_diff_index by apply NoDup_Difference.
      cbn [AddUsers RemoveUsers]. fold (toAdd defaultOrg w u).
      fold (toRemove defaultOrg w u). by rewrite <- !app_assoc.
    + done.
Qed.

Lemma loop_state_dom s defaultOrg w coderUsers st n :
  is_Some (coderGroupChanges (loop_state s defaultOrg w coderUsers st) !! n)
  <-> is_Some (coderGroupChanges st !! n)
      \/ exists u, u ∈ coderUsers /\ eligible s u = true
                   /\ (n ∈ toAdd defaultOrg w u \/ n ∈ toRemove defaultOrg w u).
Proof.
  revert st. induction coderUsers as [|u us IH]; intros st.
  - simpl. split; [by left|]. intros [?|(u & H & _)]; [done|].
    by apply elem_of_nil in H.
  - unfold loop_state in *. cbn [foldl]. rewrite IH.
    destruct (eligible s u) eqn:E.
    + unfold after_user. cbn [coderGroupChanges].
      rewrite record_diff_dom.
      fold (toAdd defaultOrg w u). fold (toRemove defaultOrg w u).
      split.
      * intros [[?|H]|(v & Hv & ? & ?)].
        -- by left.
        -- right. exists u. split; [apply list_elem_of_here|done].
        -- right. exists v. split; [by apply list_elem_of_further|done].
      * intros [?|(v & Hv & Ev & H)]; [by left; left|].
        apply elem_of_cons in Hv as [->|Hv].
        -- left. by right.
        -- right. by exists v.
    + cbn [after_skipped coderGroupChanges]. split.
      * intros [?|(v & Hv & ? & ?)]; [by left|].
        right. exists v. split; [by apply list_elem_of_further|done].
      * intros [?|(v & Hv & Ev & H)]; [by left|].
        apply elem_of_cons in Hv as [->|Hv]; [congruence|].
        right. by exists v.
Qed.

(** ** Snapshots of the groups *)

Lemma NoDup_fmap_elem_inj {A B} (f : A -> B) (l : list A) (x y : A) :
  NoDup (map f l) -> x ∈ l -> y ∈ l -> f x = f y -> x = y.
Proof.
  induction l as [|a l IH]; intros Hnd Hx Hy Hf.
  - by apply elem_of_nil in Hx.
  - simpl in Hnd. apply NoDup_cons in Hnd as [Ha Hnd].
    apply elem_of_cons in Hx as [->|Hx]; apply elem_of_cons in Hy as [->|Hy].
    + done.
    + exfalso. apply Ha. rewrite Hf. apply list_elem_of_fmap. eauto.
    + exfalso. apply Ha. rewrite <- Hf. apply list_elem_of_fmap. eauto.
    + by apply IH.
Qed.

Lemma snapshot_snoc (gs : list Group) (g : Group) :
  snapshot (gs ++ [g]) = <[Group_Name g := g]> (snapshot gs).
Proof. unfold snapshot. by rewrite foldl_app. Qed.

Lemma snapshot_lookup (gs : list Group) (n : string) (g : Group) :
  NoDup (map Group_Name gs) ->
  snapshot gs !! n = Some g <-> g ∈ gs /\ Group_Name g = n.
Proof.
  induction gs as [|x gs IH] using rev_ind; intros Hnd.
  - unfold snapshot. simpl. rewrite lookup_empty, elem_of_nil.
    split; [done|tauto].
  - rewrite map_app in Hnd. apply NoDup_app in Hnd as (Hnd & Hx & _).
    rewrite snapshot_snoc, elem_of_app, list_elem_of_singleton.
    destruct (decide (Group_Name x = n)) as [E|E].
    + subst n. rewrite lookup_insert_eq. split.
      * intros Hg. injection Hg as ->. tauto.
      * intros [[Hg| ->] Hn]; [|done]. exfalso.
        apply (Hx (Group_Name x)).
        -- rewrite <- Hn. apply list_elem_of_fmap. eauto.
        -- apply list_elem_of_here.
    + rewrite lookup_insert_ne by done. rewrite IH by done.
      split; [tauto|]. intros [[?| ->] ?]; done.
Qed.

Lemma snapshot_registry (gs : list Group) :
  NoDup (map Group_Name gs) -> NoDup (map Group_ID gs) ->
  registry (snapshot gs) gs.
Proof.
  intros Hn Hi. split; [done|]. split; [done|].
  intros n g. by apply snapshot_lookup.
Qed.

Lemma registry_name_inj cg gs g g' :
  registry cg gs -> g ∈ gs -> g' ∈ gs ->
  Group_Name g = Group_Name g' -> g = g'.
Proof. intros (Hn & _ & _). by apply NoDup_fmap_elem_inj. Qed.

Lemma registry_id_inj cg gs g g' :
  registry cg gs -> g ∈ gs -> g' ∈ gs ->
  Group_ID g = Group_ID g' -> g = g'.
Proof. intros (_ & Hi & _). by apply NoDup_fmap_elem_inj. Qed.

Lemma registry_lookup_name cg gs g :
  registry cg gs -> g ∈ gs -> cg !! Group_Name g = Some g.
Proof. intros (_ & _ & H) Hg. by apply H. Qed.

Lemma registry_lookup_None cg gs n :
  registry cg gs -> cg !! n = None <-> n ∉ map Group_Name gs.
Proof.
  intros (_ & _ & H). split.
  - intros E Hin. apply list_elem_of_fmap in Hin as (g & -> & Hg).
    assert (cg !! Group_Name g = Some g) by (by apply H). congruence.
  - intros Hn. destruct (cg !! n) as [g|] eqn:E; [|done].
    apply H in E as [Hg <-]. exfalso. apply Hn.
    apply list_elem_of_fmap. eauto.
Qed.

Lemma elem_of_flat_map {A B} (f : A -> list B) (l : list A) (b : B) :
  b ∈ flat_map f l <-> exists a, a ∈ l /\ b ∈ f a.
Proof.
  rewrite list_elem_of_In, in_flat_map. split.
  - intros (a & Ha & Hb). exists a. by rewrite !list_elem_of_In.
  - intros (a & Ha & Hb). exists a. by rewrite <- !list_elem_of_In.
Qed.

Lemma map_flat_map {A B C} (h : B -> C) (f : A -> list B) (l : list A) :
  map h (flat_map f l) = flat_map (fun a => map h (f a)) l.
Proof.
  induction l as [|a l IH]; [done|].
  simpl. by rewrite map_app, IH.
Qed.

Lemma NoDup_flat_map {A B} (f : A -> list B) (l : list A) :
  NoDup l ->
  (forall a, a ∈ l -> NoDup (f a)) ->
  (forall a a' b, a ∈ l -> a' ∈ l -> b ∈ f a -> b ∈ f a' -> a = a') ->
  NoDup (flat_map f l).
Proof.
  induction l as [|x l IH]; intros Hnd Hf Hinj; [constructor|].
  apply NoDup_cons in Hnd as [Hx Hnd]. simpl.
  apply NoDup_app. split; [|split].
  - apply Hf, list_elem_of_here.
  - intros b Hb Hb'. apply elem_of_flat_map in Hb' as (a & Ha & Hb').
    apply Hx. rewrite (Hinj x a b); try done.
    + apply list_elem_of_here.
    + by apply list_elem_of_further.
  - apply IH; [done| |].
    + intros a Ha. apply Hf. by apply list_elem_of_further.
    + intros a a' b Ha Ha'. apply Hinj; by apply list_elem_of_further.
Qed.

Lemma elem_of_create_groups w org cg k G :
  G ∈ create_groups w org cg k
  <-> exists id, cg !! k = None /\ create_group w org k = Some id
                 /\ G = created_group org k id.
Proof.
  unfold create_groups. destruct (cg !! k) as [g|].
  - rewrite elem_of_nil. split; [done|]. by intros (? & ? & _).
  - destruct (create_group w org k) as [id|].
    + rewrite list_elem_of_singleton. split; [eauto|].
      by intros (? & _ & [= <-] & ->).
    + rewrite elem_of_nil. split; [done|]. by intros (? & _ & ? & _).
Qed.

Lemma NoDup_create_groups w org cg k : NoDup (create_groups w org cg k).
Proof.
  unfold create_groups. destruct (cg !! k); [constructor|].
  destruct (create_group w org k); [|constructor].
  apply NoDup_singleton.
Qed.

Lemma create_registry (w : World) (org : UUID) (cg cg1 : gmap string Group)
    (gs : list Group) (ch : gmap string PatchGroupRequest)
    (ks : list string) :
  registry cg gs ->
  NoDup ks ->
  (forall k, k ∈ ks <-> is_Some (ch !! k)) ->
  (forall n, n ∉ map Group_Name gs ->
     exists id, create_group w org n = Some id /\ id ∉ map Group_ID gs) ->
  (forall n1 n2 id, create_group w org n1 = Some id ->
                    create_group w org n2 = Some id -> n1 = n2) ->
  (forall g, cg1 !! g =
     if decide (is_Some (ch !! g) /\ cg !! g = None)
     then created_group org g <$> create_group w org g
     else cg !! g) ->
  registry cg1 (gs ++ flat_map (create_groups w org cg) ks).
Proof.
  intros Hreg Hnd Hks Hcreate Hinj Hcg1.
  pose proof Hreg as (Hnames & Hids & Hlook).
  set (created := flat_map (create_groups w org cg) ks).
  assert (Hcreated : forall G, G ∈ created <->
            exists k id, k ∈ ks /\ cg !! k = None
                         /\ create_group w org k = Some id
                         /\ G = created_group org k id).
  { intros G. unfold created. rewrite elem_of_flat_map. split.
    - intros (k & Hk & HG). apply elem_of_create_groups in HG as (id & ?).
      exists k, id. tauto.
    - intros (k & id & Hk & ? & ? & ?). exists k. split; [done|].
      apply elem_of_create_groups. eauto. }
  split; [|split].
  - rewrite map_app. apply NoDup_app. split; [done|]. split.
    + intros n Hn Hn'. apply list_elem_of_fmap in Hn' as (G & -> & HG).
      apply Hcreated in HG as (k & id & _ & Hk & _ & ->). simpl in Hn.
      by apply (registry_lookup_None cg gs k Hreg) in Hk.
    + unfold created. rewrite map_flat_map. apply NoDup_flat_map; [done| |].
      * intros k _. apply (NoDup_fmap_2_strong Group_Name).
        -- intros G G' HG HG' _.
           apply elem_of_create_groups in HG as (id & _ & Hc & ->).
           apply elem_of_create_groups in HG' as (id' & _ & Hc' & ->).
           congruence.
        -- apply NoDup_create_groups.
      * intros k k' n _ _ Hn Hn'.
        apply list_elem_of_fmap in Hn as (G & -> & HG).
        apply list_elem_of_fmap in Hn' as (G' & Hn' & HG').
        apply elem_of_create_groups in HG as (id & _ & _ & ->).
        apply elem_of_create_groups in HG' as (id' & _ & _ & ->).
        done.
  - rewrite map_app. apply NoDup_app. split; [done|]. split.
    + intros i Hi Hi'. apply list_elem_of_fmap in Hi' as (G & -> & HG).
      apply Hcreated in HG as (k & id & _ & Hk & Hc & ->). simpl in Hi.
      apply (registry_lookup_None cg gs k Hreg) in Hk.
      destruct (Hcreate k Hk) as (id' & Hc' & Hfresh).
      rewrite Hc in Hc'. injection Hc' as <-. done.
    + unfold created. rewrite map_flat_map. apply NoDup_flat_map; [done| |].
      * intros k _. apply (NoDup_fmap_2_strong Group_ID).
        -- intros G G' HG HG' _.
           apply elem_of_create_groups in HG as (id & _ & Hc & ->).
           apply elem_of_create_groups in HG' as (id' & _ & Hc' & ->).
           congruence.
        -- apply NoDup_create_groups.
      * intros k k' i _ _ Hi Hi'.
        apply list_elem_of_fmap in Hi as (G & -> & HG).
        apply list_elem_of_fmap in Hi' as (G' & Hi' & HG').
        apply elem_of_create_groups in HG as (id & _ & Hc & ->).
        apply elem_of_create_groups in HG' as (id' & _ & Hc' & ->).
        simpl in Hi'. subst id'. by eapply Hinj.
  - intros n g. rewrite Hcg1, elem_of_app.
    destruct (decide (is_Some (ch !! n) /\ cg !! n = None)) as [[Hn Hc]|Hno].
    + pose proof Hc as Hc'.
      apply (registry_lookup_None cg gs n Hreg) in Hc'.
      destruct (Hcreate n Hc') as (id & Hid & _). rewrite Hid. simpl.
      split.
      * intros [= <-]. split; [|done]. right. apply Hcreated.
        exists n, id. split; [by apply Hks|done].
      * intros [[Hg|Hg] Hname].
        -- exfalso. apply Hc'. rewrite <- Hname.
           apply list_elem_of_fmap. eauto.
        -- apply Hcreated in Hg as (k & id' & _ & _ & Hid' & ->).
           simpl in Hname. subst k. congruence.
    + rewrite Hlook. split; [tauto|].
      intros [[Hg|Hg] Hname]; [done|]. exfalso.
      apply Hcreated in Hg as (k & id' & Hk & Hck & _ & ->).
      simpl in Hname. subst k. apply Hno. split; [by apply Hks|done].
Qed.

(** ** The groups after [applyGroupChanges] *)

Lemma list_difference_nil_r (l : list string) : list_difference l [] = l.
Proof.
  induction l as [|x l IH]; [done|].
  simpl. rewrite IH. destruct (decide_rel elem_of x []) as [H|_]; [|done].
  by apply elem_of_nil in H.
Qed.

Lemma patch_members_zero (g : Group) :
  patch_members PatchGroupRequest_zero g = g.
Proof.
  unfold patch_members. simpl.
  rewrite app_nil_r, list_difference_nil_r. by destruct g.
Qed.

Lemma patch_by_name_None ch g :
  ch !! Group_Name g = None -> patch_by_name ch g = g.
Proof.
  intros E. unfold patch_by_name, index. rewrite E. apply patch_members_zero.
Qed.

Lemma elem_of_patch_step cg ch gs k G1 :
  G1 ∈ patch_step cg ch gs k ->
  exists G, G ∈ gs /\ Group_ID G1 = Group_ID G
            /\ Group_Name G1 = Group_Name G.
Proof.
  unfold patch_step, patched_groups.
  destruct (ch !! k) as [req|]; [|by eauto].
  destruct (cg !! k) as [g|]; [|by eauto].
  intros (G & -> & HG)%list_elem_of_fmap. exists G. split; [done|].
  by destruct (decide _).
Qed.

Lemma foldl_patch_step (cg : gmap string Group)
    (ch : gmap string PatchGroupRequest) (ks : list string) :
  forall (gs : list Group),
  NoDup ks ->
  (forall k, k ∈ ks -> is_Some (ch !! k) -> is_Some (cg !! k)) ->
  (forall k g G, k ∈ ks -> cg !! k = Some g -> G ∈ gs ->
     Group_ID G = Group_ID g <-> Group_Name G = k) ->
  foldl (patch_step cg ch) gs ks
  = map (fun G => if decide (Group_Name G ∈ ks)
                  then patch_by_name ch G else G) gs.
Proof.
  induction ks as [|k ks IH]; intros gs Hnd Hdom Htarget.
  - simpl. rewrite <- (map_id gs) at 1. by apply map_ext.
  - apply NoDup_cons in Hnd as [Hk Hnd]. cbn [foldl].
    rewrite IH; [|done| |].
    2:{ intros k' Hk'. apply Hdom. by apply list_elem_of_further. }
    2:{ intros k' g G1 Hk' Hg HG1.
        apply elem_of_patch_step in HG1 as (G & HG & -> & ->).
        apply Htarget; [by apply list_elem_of_further|done..]. }
    unfold patch_step.
    destruct (ch !! k) as [req|] eqn:Ech.
    + destruct (Hdom k) as [g Ecg]; [apply list_elem_of_here|eauto|].
      rewrite Ecg. unfold patched_groups. rewrite map_map.
      apply map_ext_in. intros G HG%list_elem_of_In.
      destruct (decide (Group_ID G = Group_ID g)) as [Hid|Hid].
      * assert (Hname : Group_Name G = k).
        { by apply (Htarget k g G); [apply list_elem_of_here|..]. }
        cbn [patch_members Group_Name]. rewrite Hname.
        rewrite decide_False by done.
        rewrite decide_True by apply list_elem_of_here.
        unfold patch_by_name, index. by rewrite Hname, Ech.
      * assert (Hname : Group_Name G <> k).
        { intros Hname. apply Hid.
          by apply (Htarget k g G); [apply list_elem_of_here|..]. }
        destruct (decide (Group_Name G ∈ ks)) as [Hin|Hin].
        -- by rewrite decide_True by (by apply list_elem_of_further).
        -- rewrite decide_False; [done|].
           intros [?|?]%elem_of_cons; done.
    + apply map_ext_in. intros G HG%list_elem_of_In.
      destruct (decide (Group_Name G = k)) as [Hname|Hname].
      * subst k. rewrite decide_False by done.
        rewrite decide_True by apply list_elem_of_here.
        by rewrite patch_by_name_None.
      * destruct (decide (Group_Name G ∈ ks)) as [Hin|Hin].
        -- by rewrite decide_True by (by apply list_elem_of_further).
        -- rewrite decide_False; [done|].
           intros [?|?]%elem_of_cons; done.
Qed.

Lemma patch_step_all_keys (cg : gmap string Group)
    (ch : gmap string PatchGroupRequest) (ks : list string)
    (gs : list Group) :
  registry cg gs ->
  NoDup ks ->
  (forall k, k ∈ ks <-> is_Some (ch !! k)) ->
  (forall k, is_Some (ch !! k) -> is_Some (cg !! k)) ->
  foldl (patch_step cg ch) gs ks = map (patch_by_name ch) gs.
Proof.
  intros Hreg Hnd Hks Hdom.
  rewrite foldl_patch_step; [|done| |].
  - apply map_ext_in. intros G HG.
    destruct (decide (Group_Name G ∈ ks)) as [Hin|Hin]; [done|].
    symmetry. apply patch_by_name_None.
    destruct (ch !! Group_Name G) eqn:E; [|done].
    exfalso. apply Hin, Hks. eauto.
  - intros k _. apply Hdom.
  - intros k g G _ Hg HG.
    destruct Hreg as (Hn & Hi & Hlook).
    apply Hlook in Hg as [Hg <-]. split.
    + intros Hid. f_equal.
      by apply (NoDup_fmap_elem_inj Group_ID gs).
    + intros Hname. f_equal.
      by apply (NoDup_fmap_elem_inj Group_Name gs).
Qed.

(** ** A run that succeeded *)

Lemma SyncGroups_Ok_reads_ok range_order (s : Sync)
    (defaultOrg : Organization) (w : World) :
  List.find Organization_IsDefault (organizations w) = Some defaultOrg ->
  (SyncGroups range_order s w).1 = Ok tt ->
  reads_ok s defaultOrg w.
Proof.
  intros Hd Hrun. unfold SyncGroups in Hrun. unfold bind at 1 in Hrun.
  rewrite defaultOrganization_run, Hd in Hrun.
  destruct (organizations_err w) eqn:Ho; [done|].
  unfold bind at 1 in Hrun. rewrite coderGroups_run in Hrun.
  change (groups_err (emit CallOrganizations w)) with (groups_err w) in Hrun.
  destruct (groups_err w (org_args (Organization_ID defaultOrg))) eqn:Hg;
    [done|].
  unfold bind at 1 in Hrun. unfold wrap at 1, Users in Hrun.
  cbn [users_err emit] in Hrun.
  destruct (users_err w) eqn:Hu; [done|].
  unfold bind at 1 in Hrun. unfold users_loop in Hrun.
  set (w3 := emit CallUsers _) in Hrun.
  assert (Hw3 : same_state w w3).
  { subst w3. apply (same_state_emits [_; _; _] w). }
  change (users w3) with (users w) in Hrun.
  destruct (for_each (users w) _ _ w3) as [[st| |] w4] eqn:Hloop; try done.
  repeat split; try done.
  all: by eapply (users_loop_Ok_inv s defaultOrg w (users w) _ st w3 w4).
Qed.

Lemma filter_all {A} (P : A -> Prop) `{!forall x, Decision (P x)}
    (l : list A) :
  (forall x, x ∈ l -> P x) -> filter P l = l.
Proof.
  induction l as [|x l IH]; intros Hall; [done|].
  rewrite filter_cons_True by apply Hall, list_elem_of_here.
  rewrite IH; [done|]. intros y Hy. apply Hall.
  by apply list_elem_of_further.
Qed.

Section Convergence.

Variable s : Sync.
Variable defaultOrg : Organization.
Variable w : World.
Hypothesis Hwf : well_formed s defaultOrg w.

Lemma org_groups_all :
  org_groups w (Organization_ID defaultOrg) = groups w.
Proof using Hwf.
  unfold org_groups. apply filter_all. intros g Hg.
  split; [right|by left]. by apply (wf_scope _ _ _ Hwf).
Qed.

Lemma group_matches_member (w' : World) (u : User) (G : Group) :
  users w' = users w -> u ∈ users w ->
  group_matches w' (member_args u) G <-> User_ID u ∈ Group_Members G.
Proof using Hwf.
  intros Hus Hu. unfold group_matches, is_member. simpl. rewrite Hus.
  split.
  - intros [_ [He|Hex]].
    + by apply (wf_handle _ _ _ Hwf) in Hu.
    + apply Exists_exists in Hex as (v & Hv & Hname & Hmem).
      assert (v = u) as ->; [|done].
      by apply (NoDup_fmap_elem_inj User_Username (users w));
        [apply (wf_handles _ _ _ Hwf)|..].
  - intros Hmem. split; [by left|]. right.
    apply Exists_exists. by exists u.
Qed.

Lemma Actual_member (w' : World) (u : User) (G : Group) :
  users w' = users w -> u ∈ users w ->
  NoDup (map Group_Name (groups w')) -> G ∈ groups w' ->
  Group_Name G ∈ Actual (cGroups_of w' u) <-> User_ID u ∈ Group_Members G.
Proof using Hwf.
  intros Hus Hu Hnd HG. unfold Actual, cGroups_of.
  rewrite <- (group_matches_member w' u G Hus Hu). split.
  - intros (G' & Hname & HG')%list_elem_of_fmap.
    apply list_elem_of_filter in HG' as [Hm HG'].
    assert (G = G') as ->; [|done].
    by apply (NoDup_fmap_elem_inj Group_Name (groups w')).
  - intros Hm. apply list_elem_of_fmap. exists G. split; [done|].
    by apply list_elem_of_filter.
Qed.

Lemma Actual_names (w' : World) (u : User) (n : string) :
  n ∈ Actual (cGroups_of w' u) -> n ∈ map Group_Name (groups w').
Proof.
  unfold Actual, cGroups_of.
  intros (G & -> & HG)%list_elem_of_fmap.
  apply list_elem_of_filter in HG as [_ HG].
  apply list_elem_of_fmap. eauto.
Qed.

Lemma loop_changes_AddUsers (u : User) (n : string) :
  u ∈ users w -> eligible s u = true ->
  User_ID u ∈ AddUsers (index (loop_changes s defaultOrg w) n)
  <-> n ∈ toAdd defaultOrg w u.
Proof using Hwf.
  intros Hu He. unfold loop_changes. rewrite loop_state_index.
  cbn [AddUsers]. unfold loop_init, index at 1. cbn [coderGroupChanges].
  rewrite lookup_empty. simpl. rewrite elem_of_flat_map. split.
  - intros (v & Hv & Hin).
    apply list_elem_of_In, filter_In in Hv as [Hv Hev].
    apply list_elem_of_In in Hv.
    destruct (decide (n ∈ toAdd defaultOrg w v)) as [Hn|Hn];
      [|by apply elem_of_nil in Hin].
    apply list_elem_of_singleton in Hin.
    assert (u = v) as ->; [|done].
    by apply (NoDup_fmap_elem_inj User_ID (users w));
      [apply (wf_user_ids _ _ _ Hwf)|..].
  - intros Hn. exists u. split.
    + apply list_elem_of_In, filter_In. by rewrite <- list_elem_of_In.
    + rewrite decide_True by done. apply list_elem_of_here.
Qed.

Lemma loop_changes_RemoveUsers (u : User) (n : string) :
  u ∈ users w -> eligible s u = true ->
  User_ID u ∈ RemoveUsers (index (loop_changes s defaultOrg w) n)
  <-> n ∈ toRemove defaultOrg w u.
Proof using Hwf.
  intros Hu He. unfold loop_changes. rewrite loop_state_index.
  cbn [RemoveUsers]. unfold loop_init, index at 1. cbn [coderGroupChanges].
  rewrite lookup_empty. simpl. rewrite elem_of_flat_map. split.
  - intros (v & Hv & Hin).
    apply list_elem_of_In, filter_In in Hv as [Hv Hev].
    apply list_elem_of_In in Hv.
    destruct (decide (n ∈ toRemove defaultOrg w v)) as [Hn|Hn];
      [|by apply elem_of_nil in Hin].
    apply list_elem_of_singleton in Hin.
    assert (u = v) as ->; [|done].
    by apply (NoDup_fmap_elem_inj User_ID (users w));
      [apply (wf_user_ids _ _ _ Hwf)|..].
  - intros Hn. exists u. split.
    + apply list_elem_of_In, filter_In. by rewrite <- list_elem_of_In.
    + rewrite decide_True by done. apply list_elem_of_here.
Qed.

Lemma loop_changes_dom (n : string) :
  is_Some (loop_changes s defaultOrg w !! n)
  <-> exists u, u ∈ users w /\ eligible s u = true
                /\ (n ∈ toAdd defaultOrg w u \/ n ∈ toRemove defaultOrg w u).
Proof.
  unfold loop_changes. rewrite loop_state_dom.
  unfold loop_init. cbn [coderGroupChanges]. rewrite lookup_empty.
  split; [|by right]. intros [[? ?]|?]; done.
Qed.

Variable range_order : RangeOrder.
Hypothesis Hfair : fair range_order.

Lemma wrap_Ok {A} (msg : string) (m : M A) (w0 : World) (a : A) :
  (wrap msg m w0).1 = Ok a -> (m w0).1 = Ok a /\ (wrap msg m w0).2 = (m w0).2.
Proof. unfold wrap. by destruct (m w0) as [[| |] ?]. Qed.

Lemma first_run_groups :
  (SyncGroups range_order s w).1 = Ok tt ->
  let w1 := (SyncGroups range_order s w).2 in
  let ch := loop_changes s defaultOrg w in
  same_services w w1
  /\ exists gs5,
       groups w1 = map (patch_by_name ch) gs5
       /\ NoDup (map Group_Name gs5)
       /\ NoDup (map Group_ID gs5)
       /\ (forall G, G ∈ gs5 ->
             G ∈ groups w
             \/ (Group_Members G = []
                 /\ (Group_Name G ∉ map Group_Name (groups w))
                 /\ Group_ID G <> Organization_ID defaultOrg))
       /\ (forall G, G ∈ groups w -> G ∈ gs5)
       /\ (forall n, is_Some (ch !! n) -> n ∈ map Group_Name gs5).
Proof using Hwf Hfair.
  intros Hrun w1 ch. subst w1.
  pose proof (SyncGroups_Ok_reads_ok range_order s defaultOrg w
                (wf_default _ _ _ Hwf) Hrun) as Hreads.
  rewrite (SyncGroups_run range_order s defaultOrg w Hreads) in Hrun |- *.
  fold (loop_changes s defaultOrg w) in Hrun |- *. fold ch in Hrun |- *.
  set (w4 := emits (read_events s defaultOrg w) w) in *.
  assert (Hw4 : same_state w w4) by apply same_state_emits.
  destruct (decide (size ch = 0%nat)) as [Hsz|Hsz].
  - apply map_size_empty_iff in Hsz. split.
    { eapply same_services_trans; [apply Hw4|apply same_services_emit]. }
    exists (groups w). split.
    { cbn [snd groups emit]. destruct Hw4 as [_ ->].
      rewrite <- (map_id (groups w)) at 1. apply map_ext. intros G.
      symmetry. apply patch_by_name_None. by rewrite Hsz. }
    split; [apply (wf_names _ _ _ Hwf)|].
    split; [apply (wf_ids _ _ _ Hwf)|].
    split; [by left|]. split; [done|].
    intros n [? Hn]. by rewrite Hsz in Hn.
  - rewrite org_groups_all in Hrun |- *.
    set (cg0 := snapshot (groups w)) in *.
    assert (Hreg0 : registry cg0 (groups w)).
    { apply snapshot_registry;
        [apply (wf_names _ _ _ Hwf)|apply (wf_ids _ _ _ Hwf)]. }
    assert (Hcr : create_group w4 = create_group w) by apply Hw4.
    destruct (createMissingGroups_run range_order
                (Organization_ID defaultOrg) cg0 ch w4 Hfair)
      as (cg1 & ch1 & w5 & Hcreate & Hs5 & Hch1 & Hcg1 & _ & Hgr5).
    rewrite Hcreate in Hrun |- *.
    assert (Hnofail : forall g,
              ~ creation_fails w4 (Organization_ID defaultOrg) cg0 g).
    { intros g [Hc Hf].
      apply (registry_lookup_None cg0 (groups w) g Hreg0) in Hc.
      destruct (wf_create _ _ _ Hwf g Hc) as (id & Hid & _).
      rewrite Hcr in Hf. congruence. }
    assert (ch1 = ch) as ->.
    { apply map_eq. intros g. rewrite Hch1. by rewrite decide_False. }
    assert (Hreg5 : registry cg1 (groups w5)).
    { rewrite Hgr5. destruct Hw4 as [_ ->].
      apply (create_registry w4 (Organization_ID defaultOrg) cg0 cg1
               (groups w) ch (range_order InCreateMissingGroups ch));
        try done.
      - by apply fair_NoDup.
      - intros k. by apply fair_elem_of.
      - intros n Hn. rewrite Hcr.
        destruct (wf_create _ _ _ Hwf n Hn) as (id & ? & _ & ?). eauto.
      - rewrite Hcr. apply (wf_create_inj _ _ _ Hwf). }
    assert (Hdom : forall k, is_Some (ch !! k) -> is_Some (cg1 !! k)).
    { intros k Hk. rewrite Hcg1.
      destruct (decide (is_Some (ch !! k) /\ cg0 !! k = None))
        as [[_ Hc]|Hno].
      - apply (registry_lookup_None cg0 (groups w) k Hreg0) in Hc.
        destruct (wf_create _ _ _ Hwf k Hc) as (id & Hid & _).
        rewrite Hcr, Hid. by eexists.
      - destruct (cg0 !! k) eqn:E; [by eexists|]. exfalso. by apply Hno. }
    apply wrap_Ok in Hrun as [Hrun ->].
    unfold applyGroupChanges in Hrun |- *.
    set (lookupUser := userByID _) in *.
    destruct (apply_loop_run lookupUser cg1 ch (range_order InApplyGroupChanges ch) w5)
      as (Hs1 & _).
    split.
    { eapply same_services_trans; [apply Hw4|].
      eapply same_services_trans; [exact Hs5|exact Hs1]. }
    exists (groups w5). split.
    { rewrite apply_loop_groups by done.
      apply patch_step_all_keys; try done.
      - by apply fair_NoDup.
      - intros k. by apply fair_elem_of. }
    destruct Hreg5 as (Hn5 & Hi5 & Hlook5).
    split; [done|]. split; [done|].
    split; [|split].
    + intros G HG. rewrite Hgr5 in HG. destruct Hw4 as [_ Hg4].
      rewrite Hg4 in HG. apply elem_of_app in HG as [HG|HG]; [by left|].
      right. unfold created_groups in HG.
      apply elem_of_flat_map in HG as (k & _ & HG).
      apply elem_of_create_groups in HG as (id & Hc & Hid & ->).
      apply (registry_lookup_None cg0 (groups w) k Hreg0) in Hc.
      split; [done|]. split; [done|]. simpl.
      destruct (wf_create _ _ _ Hwf k Hc) as (id' & Hid' & Hne & _).
      rewrite Hcr in Hid. congruence.
    + intros G HG. rewrite Hgr5. destruct Hw4 as [_ ->].
      apply elem_of_app. by left.
    + intros n Hn. destruct (Hdom n Hn) as [g Hg].
      apply Hlook5 in Hg as [Hg <-]. apply list_elem_of_fmap. eauto.
Qed.

Lemma Expected_cases (E A : list string) (n : string) :
  n ∈ E <-> (n ∈ A \/ n ∈ slice.Difference E A) /\ (n ∉ slice.Difference A E).
Proof.
  rewrite !elem_of_Difference.
  destruct (decide (n ∈ A)); destruct (decide (n ∈ E)); tauto.
Qed.

Lemma member_after (u : User) (G : Group) :
  u ∈ users w -> eligible s u = true ->
  (G ∈ groups w
   \/ (Group_Members G = [] /\ (Group_Name G ∉ map Group_Name (groups w)))) ->
  User_ID u ∈ Group_Members (patch_by_name (loop_changes s defaultOrg w) G)
  <-> Group_Name G
        ∈ Expected defaultOrg (cGroups_of w u) (source_groups w u).
Proof using Hwf.
  intros Hu He HG. unfold patch_by_name, patch_members.
  cbn [Group_Members]. rewrite list_elem_of_difference, elem_of_app.
  rewrite loop_changes_AddUsers, loop_changes_RemoveUsers by done.
  rewrite (Expected_cases
             (Expected defaultOrg (cGroups_of w u) (source_groups w u))
             (Actual (cGroups_of w u)) (Group_Name G)).
  unfold toAdd, toRemove.
  assert (Hact : User_ID u ∈ Group_Members G
                 <-> Group_Name G ∈ Actual (cGroups_of w u)).
  { destruct HG as [HG|[Hm Hn]].
    - symmetry. apply Actual_member; try done. apply (wf_names _ _ _ Hwf).
    - rewrite Hm. split; [by intros ?%elem_of_nil|].
      intros H%Actual_names. done. }
  by rewrite Hact.
Qed.

Lemma loop_state_no_diff (w' : World) (coderUsers : list User)
    (st : LoopState) :
  (forall u, u ∈ coderUsers -> eligible s u = true ->
     toAdd defaultOrg w' u = [] /\ toRemove defaultOrg w' u = []) ->
  coderGroupChanges (loop_state s defaultOrg w' coderUsers st)
  = coderGroupChanges st.
Proof.
  revert st. induction coderUsers as [|u us IH]; intros st H; [done|].
  unfold loop_state in *. cbn [foldl]. rewrite IH.
  2:{ intros v Hv. apply H. by apply list_elem_of_further. }
  destruct (eligible s u) eqn:E; [|done].
  destruct (H u) as [Ha Hr]; [apply list_elem_of_here|done|].
  unfold after_user. cbn [coderGroupChanges].
  unfold toAdd in Ha. unfold toRemove in Hr. by rewrite Ha, Hr.
Qed.

Lemma Difference_nil (a b : list string) :
  (forall x, x ∈ a -> x ∈ b) -> slice.Difference a b = [].
Proof.
  intros H. destruct (slice.Difference a b) as [|x l] eqn:E; [done|].
  assert (Hx : x ∈ slice.Difference a b).
  { rewrite E. apply list_elem_of_here. }
  apply elem_of_Difference in Hx as [Hx Hn]. by apply H in Hx.
Qed.

Lemma second_run_no_diff (u : User) :
  (SyncGroups range_order s w).1 = Ok tt ->
  u ∈ users w -> eligible s u = true ->
  let w1 := (SyncGroups range_order s w).2 in
  toAdd defaultOrg w1 u = [] /\ toRemove defaultOrg w1 u = [].
Proof using Hwf Hfair.
  intros Hrun Hu He w1.
  destruct (first_run_groups Hrun)
    as (Hs & gs5 & Hgs & Hn5 & Hi5 & Hold & Hkeep & Hkeys).
  fold w1 in Hs, Hgs.
  set (ch := loop_changes s defaultOrg w) in *.
  assert (Hus : users w1 = users w) by apply Hs.
  assert (Hsrc : source_groups w1 u = source_groups w u).
  { unfold source_groups. destruct Hs as (_&_&_&_&_&_&_& ->). done. }
  assert (HnF : map Group_Name (groups w1) = map Group_Name gs5).
  { rewrite Hgs, map_map. by apply map_ext. }
  assert (HiF : map Group_ID (groups w1) = map Group_ID gs5).
  { rewrite Hgs, map_map. by apply map_ext. }
  assert (Hold' : forall G, G ∈ gs5 ->
            G ∈ groups w
            \/ (Group_Members G = []
                /\ (Group_Name G ∉ map Group_Name (groups w)))).
  { intros G HG. destruct (Hold G HG) as [?|(?&?&?)]; [by left|by right]. }
  assert (HF : forall G, G ∈ gs5 -> patch_by_name ch G ∈ groups w1).
  { intros G HG. rewrite Hgs. apply list_elem_of_fmap. eauto. }
  set (E1 := Expected defaultOrg (cGroups_of w u) (source_groups w u)).
  assert (Hmem : forall G, G ∈ gs5 ->
            patch_by_name ch G ∈ cGroups_of w1 u <-> Group_Name G ∈ E1).
  { intros G HG. unfold cGroups_of. rewrite list_elem_of_filter.
    rewrite (group_matches_member w1 u _ Hus Hu). unfold ch.
    rewrite (member_after u G Hu He (Hold' G HG)). fold ch.
    split; [tauto|]. intros H. split; [done|]. by apply HF. }
  assert (Hact : forall n, n ∈ Actual (cGroups_of w1 u) <-> n ∈ E1).
  { intros n. split.
    - unfold Actual. intros (G1 & -> & HG1)%list_elem_of_fmap.
      assert (HG1' : G1 ∈ groups w1).
      { unfold cGroups_of in HG1. by apply list_elem_of_filter in HG1 as [_ ?]. }
      rewrite Hgs in HG1'. apply list_elem_of_fmap in HG1' as (G & -> & HG).
      change (Group_Name (patch_by_name ch G)) with (Group_Name G).
      by apply Hmem.
    - intros Hn.
      assert (HG : exists G, G ∈ gs5 /\ Group_Name G = n).
      { destruct (decide (n ∈ Actual (cGroups_of w u))) as [Ha|Ha].
        - apply Actual_names, list_elem_of_fmap in Ha as (G & -> & HG).
          exists G. split; [by apply Hkeep|done].
        - assert (Hk : n ∈ map Group_Name gs5).
          { apply Hkeys. apply loop_changes_dom. exists u.
            split; [done|]. split; [done|]. left.
            unfold toAdd. by apply elem_of_Difference. }
          apply list_elem_of_fmap in Hk as (G & -> & HG). eauto. }
      destruct HG as (G & HG & <-).
      unfold Actual. apply list_elem_of_fmap.
      exists (patch_by_name ch G). split; [done|]. by apply Hmem. }
  assert (Hev : everyone_name defaultOrg (cGroups_of w1 u)
                = everyone_name defaultOrg (cGroups_of w u)).
  { destruct (decide (Exists (fun G => Group_ID G = Organization_ID defaultOrg)
                             (groups w))) as [Hex|Hno].
    - apply Exists_exists in Hex as (G0 & HG0 & Hid0).
      assert (H1 : everyone_name defaultOrg (cGroups_of w u)
                   = Group_Name G0).
      { apply everyone_name_found; [|done|].
        - unfold cGroups_of. apply list_elem_of_filter. split; [|done].
          apply group_matches_member; [done..|].
          by apply (wf_everyone _ _ _ Hwf).
        - intros g' Hg' Hid'. f_equal.
          unfold cGroups_of in Hg'.
          apply list_elem_of_filter in Hg' as [_ Hg'].
          apply (NoDup_fmap_elem_inj Group_ID (groups w));
            [apply (wf_ids _ _ _ Hwf)|done..|congruence]. }
      rewrite H1.
      apply (everyone_name_found defaultOrg (cGroups_of w1 u)
               (patch_by_name ch G0)); [|done|].
      + apply Hmem; [by apply Hkeep|]. subst E1. unfold Expected.
        rewrite H1. apply elem_of_app. right. apply list_elem_of_here.
      + intros g' Hg' Hid'. f_equal.
        unfold cGroups_of in Hg'.
        apply list_elem_of_filter in Hg' as [_ Hg'].
        apply (NoDup_fmap_elem_inj Group_ID (groups w1));
          [by rewrite HiF|done|by apply HF, Hkeep|].
        simpl. congruence.
    - rewrite (everyone_name_default defaultOrg (cGroups_of w u)).
      2:{ intros g Hg Hid. apply Hno, Exists_exists. exists g.
          split; [|done]. unfold cGroups_of in Hg.
          by apply list_elem_of_filter in Hg as [_ ?]. }
      apply everyone_name_default. intros g1 Hg1 Hid.
      unfold cGroups_of in Hg1. apply list_elem_of_filter in Hg1 as [_ Hg1].
      rewrite Hgs in Hg1. apply list_elem_of_fmap in Hg1 as (G & -> & HG).
      simpl in Hid. destruct (Hold G HG) as [HG'|(_ & _ & Hne)]; [|done].
      apply Hno, Exists_exists. eauto. }
  assert (HE : Expected defaultOrg (cGroups_of w1 u) (source_groups w1 u)
               = E1).
  { unfold Expected. by rewrite Hsrc, Hev. }
  unfold toAdd, toRemove. rewrite HE.
  split; apply Difference_nil; intros n; apply Hact.
Qed.

(** X3.  Idempotence on a deployment of one organization.  On a well-formed
    deployment (all groups in the default organization, distinct names
    and IDs, distinct non-empty handles, eligible users in the Everyone
    group of the organization, creations accepted under new IDs), when a
    run of [SyncGroups] has succeeded, a second run started in the world
    the first one left computes an empty change set: it records its
    reads and the "no changes" report with the number of eligible users,
    and sends no creation and no patch. *)
Theorem second_run_converged :
  (SyncGroups range_order s w).1 = Ok tt ->
  let w1 := (SyncGroups range_order s w).2 in
  loop_changes s defaultOrg w1 = ∅
  /\ SyncGroups range_order s w1
     = (Ok tt,
        emit (Log (LogNoChanges
                     (length (List.filter (eligible s) (users w)))))
             (emits (read_events s defaultOrg w1) w1))
  /\ (forall e, e ∈ read_events s defaultOrg w1 -> is_mutation e = false).
Proof using Hwf Hfair.
  intros Hrun w1.
  pose proof (SyncGroups_Ok_reads_ok range_order s defaultOrg w
                (wf_default _ _ _ Hwf) Hrun) as Hreads.
  destruct (first_run_groups Hrun) as (Hs & _). fold w1 in Hs.
  assert (Hus : users w1 = users w) by apply Hs.
  assert (Hreads1 : reads_ok s defaultOrg w1).
  { destruct Hreads as (Ho & Hd & Hg & Hu & Hf).
    destruct Hs as (E1 & E2 & E3 & E4 & E5 & E6 & E7 & E8).
    unfold reads_ok, fetch_ok. rewrite E1, E2, E3, E4, E5, E8.
    repeat split; try done; by apply Hf. }
  assert (Hch : loop_changes s defaultOrg w1 = ∅).
  { unfold loop_changes. rewrite loop_state_no_diff; [done|].
    rewrite Hus. intros u Hu He. by apply second_run_no_diff. }
  split; [done|]. split.
  - rewrite (SyncGroups_run range_order s defaultOrg w1 Hreads1).
    fold (loop_changes s defaultOrg w1). rewrite Hch.
    rewrite decide_True by apply map_size_empty.
    by rewrite loop_state_count, Hus.
  - intros e He. apply read_events_read in He.
    by destruct e as [| | | | | |[]].
Qed.

End Convergence.

Lemma well_formed_world_readme :
  well_formed sync_example org_default world_readme.
Proof.
  split.
  - reflexivity.
  - intros g Hg. repeat (apply elem_of_cons in Hg as [->|Hg]; [done|]).
    by apply elem_of_nil in Hg.
  - compute_done.
  - compute_done.
  - compute_done.
  - compute_done.
  - intros u Hu. repeat (apply elem_of_cons in Hu as [->|Hu]; [done|]).
    by apply elem_of_nil in Hu.
  - intros g u Hg Hid Hu He.
    apply elem_of_cons in Hg as [->|Hg].
    + repeat (apply elem_of_cons in Hu as [->|Hu]; [compute_done|]).
      by apply elem_of_nil in Hu.
    + apply list_elem_of_singleton in Hg as ->. done.
  - intros name Hname. exists ("id-" +:+ name).
    split; [done|]. split; [done|].
    intros [H|[H|H]%elem_of_cons]%elem_of_cons.
    + done.
    + cbv in H. injection H as ->. apply Hname. compute_done.
    + by apply elem_of_nil in H.
  - intros n1 n2 id H1 H2. cbv in H1, H2. congruence.
Qed.

(** ** The requests of a run stay in the default organization *)

Lemma snapshot_lookup_Some (gs : list Group) (n : string) (g : Group) :
  snapshot gs !! n = Some g -> g ∈ gs /\ Group_Name g = n.
Proof.
  induction gs as [|x gs IH] using rev_ind.
  - unfold snapshot. simpl. by rewrite lookup_empty.
  - rewrite snapshot_snoc, elem_of_app, list_elem_of_singleton.
    destruct (decide (Group_Name x = n)) as [E|E].
    + subst n. rewrite lookup_insert_eq. intros H. injection H as ->. tauto.
    + rewrite lookup_insert_ne by done. intros H%IH. tauto.
Qed.

(** X4.  With every read succeeding, each creation and each patch that
    [SyncGroups] sends is for an entry of the change set computed by the
    loop: a group is created in the default organization under the name
    of the entry, and the entry is sent to the group of that name listed
    for the default organization or just created there. *)
Theorem SyncGroups_mutations_in_default_organization
    (range_order : RangeOrder)
    (s : Sync) (defaultOrg : Organization) (w : World) (e : Event) :
  fair range_order ->
  reads_ok s defaultOrg w ->
  e ∈ trace (SyncGroups range_order s w).2 ->
  is_mutation e = true ->
  e ∈ trace w
  \/ (exists Y,
        is_Some (loop_changes s defaultOrg w !! Y)
        /\ e = CallCreateGroup (Organization_ID defaultOrg) (create_request Y))
  \/ (exists Y req G,
        loop_changes s defaultOrg w !! Y = Some req
        /\ e = CallPatchGroup (Group_ID G) req
        /\ Group_Name G = Y
        /\ (G ∈ org_groups w (Organization_ID defaultOrg)
            \/ exists id, G = created_group (Organization_ID defaultOrg) Y id)).
Proof.
  intros Hfair Hreads He Hm.
  rewrite (SyncGroups_run range_order s defaultOrg w Hreads) in He.
  fold (loop_changes s defaultOrg w) in He.
  set (ch := loop_changes s defaultOrg w) in *.
  set (w4 := emits (read_events s defaultOrg w) w) in *.
  assert (Hread : e ∈ trace w4 -> e ∈ trace w).
  { subst w4. rewrite trace_emits. intros [?|H]%elem_of_app; [done|].
    apply read_events_read in H. by destruct e as [| | | | | |[]]. }
  destruct (decide (size ch = 0%nat)) as [Hsz|Hsz].
  - left. cbn [snd trace emit] in He.
    apply elem_of_app in He as [He|He]; [by apply Hread|].
    apply list_elem_of_singleton in He. by subst e.
  - set (cg0 := snapshot (org_groups w (Organization_ID defaultOrg))) in *.
    destruct (createMissingGroups_run range_order
                (Organization_ID defaultOrg) cg0 ch w4 Hfair)
      as (cg1 & ch1 & w5 & Hcreate & _ & Hch1 & Hcg1 & Htr & _).
    rewrite Hcreate in He.
    assert (Hw : forall A (m : M A) msg w0, (wrap msg m w0).2 = (m w0).2).
    { intros A m msg w0. unfold wrap. by destruct (m w0) as [[]]. }
    rewrite Hw in He. unfold applyGroupChanges in He.
    set (lookupUser := userByID _) in *.
    destruct (apply_loop_run lookupUser cg1 ch1 (range_order InApplyGroupChanges ch1) w5)
      as (_ & _ & Hin & _).
    destruct (Hin e He) as [H|(Y & _ & H)].
    + rewrite Htr in H. apply elem_of_app in H as [H|H]; [left; by apply Hread|].
      right. left. unfold creation_trace in H.
      apply elem_of_app in H as [H|H].
      * apply elem_of_flat_map in H as (Y & HY & H). exists Y.
        split; [by apply (fair_elem_of range_order InCreateMissingGroups)|].
        unfold create_events in H.
        destruct (cg0 !! Y); [by apply elem_of_nil in H|].
        destruct (create_group w4 (Organization_ID defaultOrg) Y).
        -- by apply list_elem_of_singleton in H.
        -- apply elem_of_cons in H as [?|H]; [done|].
           apply list_elem_of_singleton in H. by subst e.
      * destruct (created_groups _ _ _ _ _); [by apply elem_of_nil in H|].
        apply list_elem_of_singleton in H. by subst e.
    + right. right. unfold patch_events in H.
      destruct (ch1 !! Y) as [req|] eqn:Ech; [|by apply elem_of_nil in H].
      destruct (cg1 !! Y) as [G|] eqn:Ecg; [|by apply elem_of_nil in H].
      apply elem_of_cons in H as [->|H].
      2:{ apply list_elem_of_singleton in H. by subst e. }
      exists Y, req, G.
      rewrite Hch1 in Ech. rewrite Hcg1 in Ecg.
      split; [by destruct (decide (creation_fails _ _ _ _))|].
      split; [done|].
      destruct (decide (is_Some (ch !! Y) /\ cg0 !! Y = None)) as [_|_].
      * destruct (create_group w4 (Organization_ID defaultOrg) Y) as [id|];
          [|done].
        injection Ecg as <-. split; [done|]. right. by exists id.
      * apply snapshot_lookup_Some in Ecg as [HG Hname].
        split; [done|]. by left.
Qed.

(** ** The run of the README *)

(** On the deployment of the README, where alice is in [catlovers]
    and the directory has her in "Dog Lovers", a run of [SyncGroups]
    creates the group [doglovers], sends one patch that removes alice
    from [catlovers] and one that adds her to [doglovers], and nothing
    else is changed; the two users that are not eligible cause no call. *)
Theorem SyncGroups_README_run :
  let r := SyncGroups key_order sync_example world_readme in
  r.1 = Ok tt
  /\ trace r.2 =
       [CallOrganizations;
        CallGroups {| GroupArguments_Organization := "org-default";
                      GroupArguments_HasMember := "" |};
        CallUsers;
        CallGoogleGroups "alice@example.com";
        CallGroups {| GroupArguments_Organization := "";
                      GroupArguments_HasMember := "alice" |};
        CallCreateGroup "org-default" (create_request "doglovers");
        Log (LogCreated
               [created_group "org-default" "doglovers" "id-doglovers"]);
        CallPatchGroup "id-catlovers"
          {| AddUsers := []; RemoveUsers := ["id-alice"] |};
        Log (LogGroupPatched "catlovers" [] ["alice@example.com"]);
        CallPatchGroup "id-doglovers"
          {| AddUsers := ["id-alice"]; RemoveUsers := [] |};
        Log (LogGroupPatched "doglovers" ["alice@example.com"] [])]
  /\ groups r.2 =
       [group_everyone;
        {| Group_ID := "id-catlovers"; Group_Name := "catlovers";
           Group_OrganizationID := "org-default"; Group_Members := [] |};
        group_doglovers].
Proof. vm_compute. repeat split; reflexivity. Qed.

(* ===================================================================== *)
(** * Part IV: the rest of the code                                       *)
(* ===================================================================== *)

(** ** Reading every page of the directory *)

Lemma GoogleGroups_loop_pages L email ps :
  forall t acc turns,
  group_pages L email t ps ->
  (length ps <= turns)%nat ->
  directory.GoogleGroups_loop L turns email acc t
  = Some (inr (acc ++ concat (map directory.Groups_Groups ps))).
Proof.
  intros t acc turns H. revert acc turns.
  induction H as [t p Hp Hn|t p ps Hp Hn Hps IH]; intros acc turns Hlen.
  - destruct turns as [|turns]; [simpl in Hlen; lia|].
    simpl. rewrite Hp. rewrite decide_True by done.
    by rewrite app_nil_r.
  - destruct turns as [|turns]; [simpl in Hlen; lia|].
    simpl. rewrite Hp. rewrite decide_False by done.
    rewrite IH by (simpl in Hlen; lia). by rewrite <- app_assoc.
Qed.

Lemma GoogleGroups_loop_short L email ps :
  forall t acc turns,
  group_pages L email t ps ->
  (turns < length ps)%nat ->
  directory.GoogleGroups_loop L turns email acc t = None.
Proof.
  intros t acc turns H. revert acc turns.
  induction H as [t p Hp Hn|t p ps Hp Hn Hps IH]; intros acc turns Hlen.
  - destruct turns as [|turns]; [done|]. simpl in Hlen. lia.
  - destruct turns as [|turns]; [done|].
    simpl. rewrite Hp. rewrite decide_False by done.
    apply IH. simpl in Hlen. lia.
Qed.

Lemma GoogleGroups_loop_inr L email :
  forall turns t acc all,
  directory.GoogleGroups_loop L turns email acc t = Some (inr all) ->
  exists ps,
    group_pages L email t ps /\ (length ps <= turns)%nat
    /\ all = acc ++ concat (map directory.Groups_Groups ps).
Proof.
  induction turns as [|turns IH]; intros t acc all H; [done|].
  simpl in H. destruct (L email t) as [err|p] eqn:Hp; [done|].
  destruct (decide (directory.Groups_NextPageToken p = "")) as [Hn|Hn].
  - injection H as <-. exists [p]. split; [by constructor|].
    split; [simpl; lia|]. simpl. by rewrite app_nil_r.
  - apply IH in H as (ps & Hps & Hlen & ->). exists (p :: ps).
    split; [by constructor|]. split; [simpl; lia|].
    simpl. by rewrite <- app_assoc.
Qed.

Lemma GoogleGroups_loop_fail L email err ps :
  forall t acc turns,
  group_pages_fail L email err t ps ->
  (length ps < turns)%nat ->
  directory.GoogleGroups_loop L turns email acc t
  = Some (inl (Wrap "failed to list groups" err)).
Proof.
  intros t acc turns H. revert acc turns.
  induction H as [t Hp|t p ps Hp Hn Hps IH]; intros acc turns Hlen.
  - destruct turns as [|turns]; [simpl in Hlen; lia|].
    simpl. by rewrite Hp.
  - destruct turns as [|turns]; [simpl in Hlen; lia|].
    simpl. rewrite Hp. rewrite decide_False by done.
    apply IH. simpl in Hlen. lia.
Qed.

Lemma GoogleGroups_loop_inl L email :
  forall turns t acc e,
  directory.GoogleGroups_loop L turns email acc t = Some (inl e) ->
  exists err ps,
    group_pages_fail L email err t ps /\ (length ps < turns)%nat
    /\ e = Wrap "failed to list groups" err.
Proof.
  induction turns as [|turns IH]; intros t acc e H; [done|].
  simpl in H. destruct (L email t) as [err|p] eqn:Hp.
  - injection H as <-. exists err, []. split; [by constructor|].
    split; [simpl; lia|done].
  - destruct (decide (directory.Groups_NextPageToken p = "")) as [Hn|Hn];
      [done|].
    apply IH in H as (err & ps & Hps & Hlen & ->). exists err, (p :: ps).
    split; [by constructor|]. split; [simpl; lia|done].
Qed.

(** X5.  [GoogleGroups] returns a list of groups exactly when the
    directory, asked first with the empty page token and then with the
    token each page announces, returns pages up to one without a next
    token: the list is the groups of those pages, in order.  Fewer turns
    than there are pages leave the loop running. *)
Theorem GoogleGroups_returns_all_pages
    (Groups_List : string -> string -> error + directory.Groups)
    (turns : nat) (email : string) (all : list admin.Group) :
  (directory.GoogleGroups Groups_List turns email = Some (inr all)
   <-> exists ps,
         group_pages Groups_List email "" ps
         /\ (length ps <= turns)%nat
         /\ all = concat (map directory.Groups_Groups ps))
  /\ (forall ps,
        group_pages Groups_List email "" ps ->
        (turns < length ps)%nat ->
        directory.GoogleGroups Groups_List turns email = None).
Proof.
  unfold directory.GoogleGroups. split; [split|].
  - intros H. apply GoogleGroups_loop_inr in H as (ps & ? & ? & ->). eauto.
  - intros (ps & Hps & Hlen & ->).
    by rewrite (GoogleGroups_loop_pages _ _ ps).
  - intros ps Hps Hlen. by apply (GoogleGroups_loop_short _ _ ps).
Qed.

(** X6.  [GoogleGroups] returns an error exactly when, after pages that
    each announce a next one, a call to the directory fails: the error is
    that of the call wrapped in "failed to list groups", and the groups of
    the pages already read are not returned. *)
Theorem GoogleGroups_fails_with_the_failing_page
    (Groups_List : string -> string -> error + directory.Groups)
    (turns : nat) (email : string) (e : error) :
  directory.GoogleGroups Groups_List turns email = Some (inl e)
  <-> exists err ps,
        group_pages_fail Groups_List email err "" ps
        /\ (length ps < turns)%nat
        /\ e = Wrap "failed to list groups" err.
Proof.
  unfold directory.GoogleGroups. split.
  - apply GoogleGroups_loop_inl.
  - intros (err & ps & Hps & Hlen & ->).
    by apply (GoogleGroups_loop_fail _ _ err ps).
Qed.

(** X7.  When every page the directory returns for [email] announces a
    next page, [GoogleGroups] does not return, however many turns its
    loop is given. *)
Theorem GoogleGroups_does_not_end
    (Groups_List : string -> string -> error + directory.Groups)
    (email : string) :
  (forall t, exists p,
     Groups_List email t = inr p /\ directory.Groups_NextPageToken p <> "") ->
  forall turns, directory.GoogleGroups Groups_List turns email = None.
Proof.
  intros H turns. unfold directory.GoogleGroups.
  generalize (@nil admin.Group) as acc. generalize "" as t.
  induction turns as [|turns IH]; intros t acc; [done|].
  simpl. destruct (H t) as (p & -> & Hn).
  rewrite decide_False by done. apply IH.
Qed.

Lemma GoogleUsers_loop_pages L customerID ps :
  forall t acc turns,
  user_pages L customerID t ps ->
  (length ps <= turns)%nat ->
  directory.GoogleUsers_loop L turns customerID acc t
  = Some (inr (acc ++ concat (map directory.Users_Users ps))).
Proof.
  intros t acc turns H. revert acc turns.
  induction H as [t p Hp Hn|t p ps Hp Hn Hps IH]; intros acc turns Hlen.
  - destruct turns as [|turns]; [simpl in Hlen; lia|].
    simpl. rewrite Hp. rewrite decide_True by done.
    by rewrite app_nil_r.
  - destruct turns as [|turns]; [simpl in Hlen; lia|].
    simpl. rewrite Hp. rewrite decide_False by done.
    rewrite IH by (simpl in Hlen; lia). by rewrite <- app_assoc.
Qed.

Lemma GoogleUsers_loop_inr L customerID :
  forall turns t acc all,
  directory.GoogleUsers_loop L turns customerID acc t = Some (inr all) ->
  exists ps,
    user_pages L customerID t ps /\ (length ps <= turns)%nat
    /\ all = acc ++ concat (map directory.Users_Users ps).
Proof.
  induction turns as [|turns IH]; intros t acc all H; [done|].
  simpl in H. destruct (L customerID t) as [err|p] eqn:Hp; [done|].
  destruct (decide (directory.Users_NextPageToken p = "")) as [Hn|Hn].
  - injection H as <-. exists [p]. split; [by constructor|].
    split; [simpl; lia|]. simpl. by rewrite app_nil_r.
  - apply IH in H as (ps & Hps & Hlen & ->). exists (p :: ps).
    split; [by constructor|]. split; [simpl; lia|].
    simpl. by rewrite <- app_assoc.
Qed.

Lemma GoogleUsers_loop_error L customerID :
  forall turns t acc e,
  directory.GoogleUsers_loop L turns customerID acc t = Some (inl e) ->
  exists err, e = Wrap "failed to list users" err.
Proof.
  induction turns as [|turns IH]; intros t acc e H; [done|].
  simpl in H. destruct (L customerID t) as [err|p] eqn:Hp.
  - injection H as <-. eauto.
  - destruct (decide (directory.Users_NextPageToken p = "")); [done|].
    by apply IH in H.
Qed.

(** X8.  [GoogleUsers] returns a list of users exactly when the
    directory, asked for the customer first with the empty page token and
    then with the token each page announces, returns pages up to one
    without a next token; the list is the users of those pages, in order.
    Every error it returns is the error of a call wrapped in "failed to
    list users". *)
Theorem GoogleUsers_returns_all_pages
    (Users_List : string -> string -> error + directory.Users)
    (turns : nat) (customerID : string) (all : list directory.User) :
  (directory.GoogleUsers Users_List turns customerID = Some (inr all)
   <-> exists ps,
         user_pages Users_List customerID "" ps
         /\ (length ps <= turns)%nat
         /\ all = concat (map directory.Users_Users ps))
  /\ (forall e,
        directory.GoogleUsers Users_List turns customerID = Some (inl e) ->
        exists err, e = Wrap "failed to list users" err).
Proof.
  unfold directory.GoogleUsers. split; [split|].
  - intros H. apply GoogleUsers_loop_inr in H as (ps & ? & ? & ->). eauto.
  - intros (ps & Hps & Hlen & ->).
    by rewrite (GoogleUsers_loop_pages _ _ ps).
  - apply GoogleUsers_loop_error.
Qed.

(** ** Finding the default organization and listing its groups *)

Lemma find_first {A} (f : A -> bool) (before : list A) (x : A)
    (after : list A) :
  f x = true -> (forall y, y ∈ before -> f y = false) ->
  List.find f (before ++ x :: after) = Some x.
Proof.
  intros Hx. induction before as [|y before IH]; intros H; simpl.
  - by rewrite Hx.
  - rewrite H by apply list_elem_of_here. apply IH.
    intros z Hz. apply H. by apply list_elem_of_further.
Qed.

(** X9.  [defaultOrganization] makes one call.  When the call fails it
    returns the error wrapped in "failed to get coder organizations";
    otherwise it returns the first organization of the answer that is
    marked default, also when several are; an organization it returns
    is one of the answer and is marked default. *)
Theorem defaultOrganization_returns_first_default (w : World) :
  (defaultOrganization w).2 = emit CallOrganizations w
  /\ (organizations_err w = true ->
      (defaultOrganization w).1
      = Err (Wrap "failed to get coder organizations"
                  (ApiError "Organizations")))
  /\ (organizations_err w = false ->
      forall before org after,
        organizations w = before ++ org :: after ->
        Organization_IsDefault org = true ->
        (forall o, o ∈ before -> Organization_IsDefault o = false) ->
        (defaultOrganization w).1 = Ok org)
  /\ (forall org,
        (defaultOrganization w).1 = Ok org ->
        organizations_err w = false
        /\ org ∈ organizations w /\ Organization_IsDefault org = true).
Proof.
  rewrite defaultOrganization_run. cbn [fst snd].
  split; [done|]. split; [by intros ->|]. split.
  - intros -> before org after -> Hd Hb. by rewrite find_first.
  - intros org H. destruct (organizations_err w); [done|].
    destruct (List.find _ _) as [o|] eqn:E; [|done].
    injection H as ->. apply find_some in E as [Hin Hd].
    by rewrite <- list_elem_of_In in Hin.
Qed.

Lemma snapshot_last_wins (l1 : list Group) (g : Group) (l2 : list Group) :
  (forall g', g' ∈ l2 -> Group_Name g' <> Group_Name g) ->
  snapshot (l1 ++ g :: l2) !! Group_Name g = Some g.
Proof.
  induction l2 as [|x l2 IH] using rev_ind; intros H.
  - rewrite snapshot_snoc. apply lookup_insert_eq.
  - rewrite app_comm_cons, app_assoc, snapshot_snoc.
    rewrite lookup_insert_ne.
    + apply IH. intros g' Hg'. apply H, elem_of_app. by left.
    + apply H, elem_of_app. right. apply list_elem_of_here.
Qed.

Lemma snapshot_is_Some (gs : list Group) (g : Group) :
  g ∈ gs -> exists g', snapshot gs !! Group_Name g = Some g'
                       /\ g' ∈ gs /\ Group_Name g' = Group_Name g.
Proof.
  induction gs as [|x gs IH] using rev_ind; intros Hg.
  - by apply elem_of_nil in Hg.
  - rewrite snapshot_snoc.
    destruct (decide (Group_Name x = Group_Name g)) as [E|E].
    + rewrite <- E, lookup_insert_eq. exists x. split; [done|].
      split; [|done]. apply elem_of_app. right. apply list_elem_of_here.
    + rewrite lookup_insert_ne by done.
      apply elem_of_app in Hg as [Hg|Hg].
      * destruct (IH Hg) as (g' & ? & ? & ?). exists g'.
        split; [done|]. split; [|done]. apply elem_of_app. by left.
      * apply list_elem_of_singleton in Hg. by subst x.
Qed.

(** X10.  [coderGroups] makes one listing, for the organization it is
    given and for no member.  When the listing fails it returns the
    error wrapped in "failed to get coder groups".  Otherwise it returns
    a map in which every key is the name of the listed group it leads
    to, the name of every listed group is a key, and of several listed
    groups with one name the last is kept. *)
Theorem coderGroups_maps_names_to_listed_groups (orgID : UUID) (w : World) :
  (coderGroups orgID w).2
  = emit (CallGroups {| GroupArguments_Organization := orgID;
                        GroupArguments_HasMember := "" |}) w
  /\ (groups_err w (org_args orgID) = true ->
      (coderGroups orgID w).1
      = Err (Wrap "failed to get coder groups" (ApiError "Groups")))
  /\ (groups_err w (org_args orgID) = false ->
      exists groupMap,
        (coderGroups orgID w).1 = Ok groupMap
        /\ (forall n g, groupMap !! n = Some g ->
              g ∈ org_groups w orgID /\ Group_Name g = n)
        /\ (forall g, g ∈ org_groups w orgID ->
              exists g', groupMap !! Group_Name g = Some g'
                         /\ g' ∈ org_groups w orgID
                         /\ Group_Name g' = Group_Name g)
        /\ (forall l1 g l2,
              org_groups w orgID = l1 ++ g :: l2 ->
              (forall g', g' ∈ l2 -> Group_Name g' <> Group_Name g) ->
              groupMap !! Group_Name g = Some g)).
Proof.
  rewrite coderGroups_run. cbn [fst snd].
  split; [done|]. split; [by intros ->|].
  intros ->. exists (snapshot (org_groups w orgID)).
  split; [done|]. split; [|split].
  - intros n g. apply snapshot_lookup_Some.
  - intros g. apply snapshot_is_Some.
  - intros l1 g l2 ->. apply snapshot_last_wins.
Qed.

(** ** Canonical names *)

Lemma lower_byte_range (c : ascii) :
  ~ (65 <= nat_of_ascii (Strings.lower_byte c) <= 90)%nat.
Proof.
  unfold Strings.lower_byte.
  destruct (_ && _) eqn:E.
  - apply andb_true_iff in E as [E1 E2].
    apply Nat.leb_le in E1. apply Nat.leb_le in E2.
    rewrite nat_ascii_embedding by lia. lia.
  - apply andb_false_iff in E as [E|E]; apply Nat.leb_gt in E; lia.
Qed.

Lemma lower_byte_idemp (c : ascii) :
  Strings.lower_byte (Strings.lower_byte c) = Strings.lower_byte c.
Proof.
  pose proof (lower_byte_range c) as H.
  unfold Strings.lower_byte at 1.
  destruct (_ && _) eqn:E; [|done].
  apply andb_true_iff in E as [E1 E2].
  apply Nat.leb_le in E1. apply Nat.leb_le in E2. lia.
Qed.

Lemma lower_ascii_idemp (s : string) :
  Strings.lower_ascii (Strings.lower_ascii s) = Strings.lower_ascii s.
Proof.
  induction s as [|c r IH]; [done|].
  simpl. by rewrite lower_byte_idemp, IH.
Qed.

Lemma lower_ascii_app (a b : string) :
  Strings.lower_ascii (a +:+ b)
  = Strings.lower_ascii a +:+ Strings.lower_ascii b.
Proof. induction a as [|c r IH]; [done|]. simpl. by rewrite IH. Qed.

Lemma lower_ascii_length (s : string) :
  String.length (Strings.lower_ascii s) = String.length s.
Proof. induction s as [|c r IH]; [done|]. simpl. by rewrite IH. Qed.

Lemma lower_byte_ascii (c : ascii) :
  (nat_of_ascii c < 128)%nat ->
  (nat_of_ascii (Strings.lower_byte c) < 128)%nat.
Proof.
  intros Hc. unfold Strings.lower_byte. cbv zeta.
  destruct ((65 <=? nat_of_ascii c)%nat && (nat_of_ascii c <=? 90)%nat)
    eqn:E; [|done].
  apply andb_true_iff in E as [E1 E2].
  apply Nat.leb_le in E1. apply Nat.leb_le in E2.
  rewrite nat_ascii_embedding by lia. lia.
Qed.

Lemma ascii_only_lower_ascii (s : string) :
  ascii_only s -> ascii_only (Strings.lower_ascii s).
Proof.
  induction s as [|c r IH]; [done|].
  cbn [Strings.lower_ascii]. rewrite !ascii_only_cons.
  intros [Hc Hr]. split; [by apply lower_byte_ascii|by apply IH].
Qed.

Lemma ascii_only_normalize (name : string) :
  ascii_only name -> ascii_only (normalize name).
Proof.
  intros H. rewrite normalize_ascii by done.
  by apply ascii_only_lower_ascii, ascii_only_ReplaceAll.
Qed.

Lemma ReplaceAll_app (a b : string) :
  Strings.ReplaceAll (a +:+ b) " " ""
  = Strings.ReplaceAll a " " "" +:+ Strings.ReplaceAll b " " "".
Proof.
  induction a as [|c r IH]; [done|].
  simpl. destruct (Ascii.eqb c " "); simpl; by rewrite IH.
Qed.

Lemma ReplaceAll_no_space (s : string) :
  (" "%char ∉ String.list_ascii_of_string s) ->
  Strings.ReplaceAll s " " "" = s.
Proof.
  induction s as [|c r IH]; [done|].
  simpl. intros H.
  destruct (Ascii.eqb c " ") eqn:E.
  - apply Ascii.eqb_eq in E. subst c. destruct H. apply list_elem_of_here.
  - rewrite IH; [done|]. intros Hr. apply H. by apply list_elem_of_further.
Qed.

Lemma ReplaceAll_length (s : string) :
  (String.length (Strings.ReplaceAll s " " "") <= String.length s)%nat.
Proof.
  induction s as [|c r IH]; [done|].
  simpl. destruct (Ascii.eqb c " "); simpl; [|lia].
  change ("" +:+ Strings.ReplaceAll r " " "")
    with (Strings.ReplaceAll r " " "").
  lia.
Qed.

Lemma ReplaceAll_empty (name : string) :
  Strings.ReplaceAll name " " "" = ""
  <-> forall c, c ∈ String.list_ascii_of_string name -> c = " "%char.
Proof.
  induction name as [|c r IH]; simpl.
  - split; [|done]. intros _ c Hc. by apply elem_of_nil in Hc.
  - destruct (Ascii.eqb c " ") eqn:E; simpl.
    + apply Ascii.eqb_eq in E. subst c. rewrite IH. split.
      * intros H c Hc. apply elem_of_cons in Hc as [->|Hc]; auto.
      * intros H c Hc. apply H. by apply list_elem_of_further.
    + apply Ascii.eqb_neq in E. split; [done|].
      intros H. destruct E. apply H. apply list_elem_of_here.
Qed.

(** A name of spaces has the empty canonical name. *)
Lemma normalize_blank (name : string) :
  (forall c, c ∈ String.list_ascii_of_string name -> c = " "%char) ->
  normalize name = "".
Proof.
  intros H. unfold normalize.
  by rewrite (proj2 (ReplaceAll_empty name) H).
Qed.

Lemma DecodeRune_width (b : Z) (s : list Z) :
  (1 <= (utf8.DecodeRune (b :: s)).2)%nat.
Proof.
  unfold utf8.DecodeRune. cbv zeta.
  repeat case_match; cbn [snd]; lia.
Qed.

Lemma AppendRune_not_nil (r : Z) : utf8.AppendRune r <> [].
Proof. unfold utf8.AppendRune. cbv zeta. by repeat case_match. Qed.

Lemma DecodeRune_nonneg (b : Z) (s : list Z) :
  (0 <= b)%Z -> (0 <= (utf8.DecodeRune (b :: s)).1)%Z.
Proof.
  intros Hb. unfold utf8.DecodeRune, utf8.RuneError. cbv zeta.
  repeat case_match; cbn [fst]; try lia;
    rewrite ?Z.lor_nonneg, ?Z.shiftl_nonneg, ?Z.land_nonneg; lia.
Qed.

(** [strings.Map] with a mapping that drops no rune keeps a string that
    is not empty from becoming empty. *)
Lemma Map_loop_not_nil (mapping : Z -> Z) (turns : nat) (b : Z)
    (s : list Z) :
  (0 <= b)%Z ->
  (forall r, (0 <= r)%Z -> (0 <= mapping r)%Z) ->
  Strings.Map_loop (S turns) mapping (b :: s) <> [].
Proof.
  intros Hb Hm. cbn [Strings.Map_loop].
  pose proof (DecodeRune_width b s) as Hw.
  pose proof (DecodeRune_nonneg b s Hb) as Hc.
  destruct (utf8.DecodeRune (b :: s)) as [c width].
  cbn [fst snd] in Hw, Hc.
  cbv zeta. destruct (_ && _).
  - destruct width as [|width]; [lia|]. done.
  - rewrite (proj2 (Z.leb_le 0 (mapping c)) (Hm c Hc)).
    pose proof (AppendRune_not_nil (mapping c)) as Ha.
    by destruct (utf8.AppendRune (mapping c)).
Qed.

Lemma Map_not_empty (mapping : Z -> Z) (s : string) :
  (forall r, (0 <= r)%Z -> (0 <= mapping r)%Z) ->
  s <> "" -> Strings.Map mapping s <> "".
Proof.
  intros Hm Hs. destruct s as [|c r]; [done|].
  unfold Strings.Map, utf8.bytes.
  cbn [String.length String.list_ascii_of_string map].
  pose proof (Map_loop_not_nil mapping (String.length r)
                (Z.of_N (N_of_ascii c))
                (map (fun c => Z.of_N (N_of_ascii c))
                     (String.list_ascii_of_string r))
                (N2Z.is_nonneg _) Hm) as H.
  by destruct (Strings.Map_loop _ _ _).
Qed.

Lemma ToLower_nonneg (r : Z) :
  (forall r, (0 <= unicode.To_LowerCase r)%Z) ->
  (0 <= r)%Z -> (0 <= unicode.ToLower r)%Z.
Proof.
  intros Ht Hr. unfold unicode.ToLower.
  repeat case_match; try apply Ht; lia.
Qed.

Lemma lower_ascii_empty (s : string) :
  Strings.lower_ascii s = "" -> s = "".
Proof. by destruct s. Qed.

Lemma normalize_empty (name : string) :
  ascii_only name ->
  normalize name = ""
  <-> forall c, c ∈ String.list_ascii_of_string name -> c = " "%char.
Proof.
  intros Ha. split; [|apply normalize_blank].
  rewrite normalize_ascii by done. intros H.
  by apply ReplaceAll_empty, lower_ascii_empty.
Qed.

(** A byte that is no UTF-8 encoding is read as U+FFFD and written with
    its three bytes. *)
Lemma normalize_invalid_byte :
  unicode.To_LowerCase 65533 = 65533%Z ->
  normalize (String "255" "")
  = String "239" (String "191" (String "189" "")).
Proof.
  intros Htable. unfold normalize.
  assert (Strings.ReplaceAll (String "255" "") " " "" = String "255" "")
    as -> by (vm_compute; reflexivity).
  rewrite ToLower_not_ascii.
  2:{ intros H%isASCII_iff. vm_compute in H. discriminate H. }
  unfold Strings.Map.
  assert (utf8.bytes (String "255" "") = [255]%Z) as ->
    by (vm_compute; reflexivity).
  assert (String.length (String "255" "") = 1%nat) as ->
    by (vm_compute; reflexivity).
  cbn [Strings.Map_loop Strings.Map_rest].
  assert (utf8.DecodeRune [255]%Z = (65533%Z, 1%nat)) as ->
    by (vm_compute; reflexivity).
  cbv beta iota zeta.
  assert (unicode.ToLower 65533 = 65533%Z) as ->.
  { unfold unicode.ToLower. exact Htable. }
  vm_compute. reflexivity.
Qed.

(** The two bytes of U+00C9, each alone, are no encoding. *)
Lemma normalize_half_rune (b : ascii) :
  b = "195"%char \/ b = "137"%char ->
  unicode.To_LowerCase 65533 = 65533%Z ->
  normalize (String b "")
  = String "239" (String "191" (String "189" "")).
Proof.
  intros Hb Htable. unfold normalize.
  assert (Strings.ReplaceAll (String b "") " " "" = String b "")
    as -> by (destruct Hb as [->| ->]; vm_compute; reflexivity).
  rewrite ToLower_not_ascii.
  2:{ intros H%isASCII_iff.
      destruct Hb as [->| ->]; vm_compute in H; discriminate H. }
  unfold Strings.Map.
  cbn [String.length Strings.Map_loop Strings.Map_rest].
  assert (exists x, utf8.bytes (String b "") = [x]
                    /\ utf8.DecodeRune [x] = (65533%Z, 1%nat))
    as (x & -> & ->).
  { destruct Hb as [->| ->]; eexists; split; vm_compute; reflexivity. }
  cbv beta iota zeta.
  assert (unicode.ToLower 65533 = 65533%Z) as ->.
  { unfold unicode.ToLower. exact Htable. }
  vm_compute. reflexivity.
Qed.

Lemma normalize_E_acute :
  unicode.To_LowerCase 201 = 233%Z ->
  normalize (String "195" (String "137" ""))
  = String "195" (String "169" "").
Proof.
  intros Htable. unfold normalize.
  assert (Strings.ReplaceAll (String "195" (String "137" "")) " " ""
          = String "195" (String "137" "")) as ->
    by (vm_compute; reflexivity).
  rewrite ToLower_not_ascii.
  2:{ intros H%isASCII_iff. vm_compute in H. discriminate H. }
  unfold Strings.Map.
  assert (utf8.bytes (String "195" (String "137" "")) = [195; 137]%Z) as ->
    by (vm_compute; reflexivity).
  assert (String.length (String "195" (String "137" "")) = 2%nat) as ->
    by (vm_compute; reflexivity).
  cbn [Strings.Map_loop Strings.Map_rest].
  assert (utf8.DecodeRune [195; 137]%Z = (201%Z, 2%nat)) as ->
    by (vm_compute; reflexivity).
  cbv beta iota zeta.
  assert (unicode.ToLower 201 = 233%Z) as ->.
  { unfold unicode.ToLower. exact Htable. }
  vm_compute. reflexivity.
Qed.

(** X11.  The canonical name of a name of ASCII bytes, as
    [ExpectedCoderGroups] computes it, is again a name of ASCII bytes
    and is stable: computing it again changes nothing.  It holds no space
    and no capital, is never longer than the name, and is computed piece
    by piece (the canonical name of [a ++ b] is that of [a] followed by
    that of [b]).  The canonical name of any name holding nothing but
    spaces is empty, and an empty canonical name comes from such a name
    alone when the name is of ASCII bytes or the case tables send no rune
    below zero.  Outside ASCII the name can get longer and is not
    computed piece by piece: with case tables that keep U+FFFD, the byte
    FF, which is no UTF-8 text, becomes the three bytes of U+FFFD, and
    so does each of the two bytes of U+00C9 taken alone, while together
    they become U+00E9. *)
Theorem normalize_canonical :
  (forall name, ascii_only name ->
     ascii_only (normalize name)
     /\ normalize (normalize name) = normalize name
     /\ (String.length (normalize name) <= String.length name)%nat)
  /\ (forall name c,
        ascii_only name ->
        c ∈ String.list_ascii_of_string (normalize name) ->
        c <> " "%char /\ ~ (65 <= nat_of_ascii c <= 90)%nat)
  /\ (forall a b,
        ascii_only a -> ascii_only b ->
        normalize (a +:+ b) = normalize a +:+ normalize b)
  /\ (forall name,
        (forall c, c ∈ String.list_ascii_of_string name -> c = " "%char) ->
        normalize name = "")
  /\ (forall name,
        ascii_only name \/ (forall r, (0 <= unicode.To_LowerCase r)%Z) ->
        normalize name = "" ->
        forall c, c ∈ String.list_ascii_of_string name -> c = " "%char)
  /\ (unicode.To_LowerCase 65533 = 65533%Z ->
      normalize (String "255" "")
      = String "239" (String "191" (String "189" "")))
  /\ (unicode.To_LowerCase 65533 = 65533%Z ->
      unicode.To_LowerCase 201 = 233%Z ->
      normalize (String "195" "" +:+ String "137" "")
      = String "195" (String "169" "")
      /\ normalize (String "195" "") +:+ normalize (String "137" "")
         = String "239" (String "191" (String "189"
             (String "239" (String "191" (String "189" "")))))).
Proof.
  split; [|split; [|split; [|split; [|split; [|split]]]]].
  - intros name Ha. split; [by apply ascii_only_normalize|]. split.
    + rewrite (normalize_ascii (normalize name))
        by by apply ascii_only_normalize.
      rewrite ReplaceAll_no_space by by apply normalize_no_space.
      rewrite normalize_ascii by done. apply lower_ascii_idemp.
    + rewrite normalize_ascii by done. rewrite lower_ascii_length.
      apply ReplaceAll_length.
  - intros name c Ha Hc. split.
    + intros ->. by apply (normalize_no_space name).
    + rewrite normalize_bytes in Hc by done.
      apply list_elem_of_fmap in Hc as (c' & -> & _).
      apply lower_byte_range.
  - intros a b Ha Hb.
    rewrite !normalize_ascii by (try apply ascii_only_app; done).
    by rewrite ReplaceAll_app, lower_ascii_app.
  - apply normalize_blank.
  - intros name [Ha|Ht] H.
    + by apply normalize_empty.
    + apply ReplaceAll_empty.
      destruct (decide (Strings.ReplaceAll name " " "" = "")) as [E|E];
        [done|exfalso].
      destruct (forallb (fun c => (c <? utf8.RuneSelf)%Z)
                  (utf8.bytes (Strings.ReplaceAll name " " ""))) eqn:Ef.
      * apply isASCII_iff in Ef.
        unfold normalize in H. rewrite ToLower_ascii in H by done.
        by apply lower_ascii_empty in H.
      * unfold normalize in H. rewrite ToLower_not_ascii in H.
        2:{ intros Ha%isASCII_iff. congruence. }
        revert H. apply Map_not_empty; [|done].
        intros r. by apply ToLower_nonneg.
  - apply normalize_invalid_byte.
  - intros H1 H2. split.
    + by apply normalize_E_acute.
    + by rewrite !normalize_half_rune by (done || by (left + right)).
Qed.

(** X12.  [ExpectedCoderGroups] skips a source group only when its name
    is the empty string: a group whose name is not empty but holds
    nothing but spaces is kept, without a log line, and its expected
    name is the empty string. *)
Theorem blank_name_not_skipped (before after : list admin.Group)
    (group : admin.Group) (w : World) :
  admin.Group_Name group <> "" ->
  (forall c, c ∈ String.list_ascii_of_string (admin.Group_Name group) ->
             c = " "%char) ->
  exists w',
    ExpectedCoderGroups (before ++ group :: after) w
    = (Ok (expected_names before ++ "" :: expected_names after), w')
    /\ forall email,
         Log (LogNoGroupName email) ∈ trace w' ->
         Log (LogNoGroupName email) ∈ trace w
         \/ exists g, g ∈ before ++ after
                      /\ admin.Group_Name g = ""
                      /\ admin.Group_Email g = email.
Proof.
  intros Hne Hsp. unfold ExpectedCoderGroups.
  rewrite ExpectedCoderGroups_loop_run. eexists. split.
  - f_equal. f_equal. unfold expected_names.
    rewrite filter_app, filter_cons_True by done.
    rewrite map_app. simpl. f_equal. f_equal.
    by apply normalize_blank.
  - intros email. rewrite trace_emits. intros H.
    apply elem_of_app in H as [H|H]; [by left|right].
    unfold skipped_lines in H.
    apply list_elem_of_fmap in H as (g & Hg & Hin).
    injection Hg as ->.
    apply list_elem_of_filter in Hin as [Hn Hin].
    exists g. split; [|done].
    apply elem_of_app in Hin as [?|Hin]; apply elem_of_app; [by left|].
    apply elem_of_cons in Hin as [->|?]; [done|by right].
Qed.

(** ** Composing the operations of the change set *)

Lemma AddUser_lookup_cases (c : gmap string PatchGroupRequest)
    (g u k : string) :
  AddUser c g u !! k =
    if decide (k = g)
    then Some {| AddUsers := AddUsers (index c g) ++ [u];
                 RemoveUsers := RemoveUsers (index c g) |}
    else c !! k.
Proof.
  destruct (decide (k = g)) as [->|Hne].
  - apply AddUser_lookup.
  - by apply AddUser_lookup_ne.
Qed.

Lemma RemoveUser_lookup_cases (c : gmap string PatchGroupRequest)
    (g u k : string) :
  RemoveUser c g u !! k =
    if decide (k = g)
    then Some {| AddUsers := AddUsers (index c g);
                 RemoveUsers := RemoveUsers (index c g) ++ [u] |}
    else c !! k.
Proof.
  destruct (decide (k = g)) as [->|Hne].
  - apply RemoveUser_lookup.
  - by apply RemoveUser_lookup_ne.
Qed.

Ltac change_set_cases :=
  apply map_eq; intros ?;
  rewrite ?AddUser_lookup_cases, ?RemoveUser_lookup_cases,
    ?index_AddUser, ?index_RemoveUser;
  repeat (destruct (decide _); subst; simpl; try congruence);
  rewrite ?AddUser_lookup_cases, ?RemoveUser_lookup_cases;
  repeat (destruct (decide _); subst; simpl; try congruence).

(** X13.  The order of the calls on a change set matters only among the
    additions to one group and among the removals from one group: an
    [AddUser] and a [RemoveUser] commute always, two [AddUser] (two
    [RemoveUser]) commute when their groups differ.  For one group the
    users are kept in the order of the calls, a user added twice being
    listed twice.  A call creates the key of its group and no other. *)
Theorem change_requests_compose
    (c : gmap string PatchGroupRequest) (g g' u u' : string) :
  AddUser (RemoveUser c g u) g' u' = RemoveUser (AddUser c g' u') g u
  /\ (g <> g' ->
      AddUser (AddUser c g u) g' u' = AddUser (AddUser c g' u') g u)
  /\ (g <> g' ->
      RemoveUser (RemoveUser c g u) g' u'
      = RemoveUser (RemoveUser c g' u') g u)
  /\ AddUsers (index (AddUser (AddUser c g u) g u') g)
     = AddUsers (index c g) ++ [u; u']
  /\ RemoveUsers (index (RemoveUser (RemoveUser c g u) g u') g)
     = RemoveUsers (index c g) ++ [u; u']
  /\ (forall k, is_Some (AddUser c g u !! k) <-> k = g \/ is_Some (c !! k))
  /\ (forall k, is_Some (RemoveUser c g u !! k)
                <-> k = g \/ is_Some (c !! k)).
Proof.
  split; [|split; [|split; [|split; [|split; [|split]]]]].
  - change_set_cases.
  - intros Hne. change_set_cases.
  - intros Hne. change_set_cases.
  - rewrite !index_AddUser, !decide_True by done. simpl.
    by rewrite <- app_assoc.
  - rewrite !index_RemoveUser, !decide_True by done. simpl.
    by rewrite <- app_assoc.
  - intros k. rewrite AddUser_lookup_cases.
    destruct (decide (k = g)) as [->|Hne].
    + split; [by left|by eexists].
    + split; [by right|]. by intros [?|?].
  - intros k. rewrite RemoveUser_lookup_cases.
    destruct (decide (k = g)) as [->|Hne].
    + split; [by left|by eexists].
    + split; [by right|]. by intros [?|?].
Qed.

(** ** What the loop over the users leaves in its two maps *)

Lemma UserIDsToNames_from (lookup : gmap UUID User) (ids names : list string) :
  foldl (fun names idStr =>
           match lookup !! idStr with
           | Some user => names ++ [User_Email user]
           | None => names ++ [idStr]
           end) names ids
  = names ++ map (fun idStr => match lookup !! idStr with
                               | Some user => User_Email user
                               | None => idStr
                               end) ids.
Proof.
  revert names. induction ids as [|id ids IH]; intros names; simpl.
  - by rewrite app_nil_r.
  - rewrite IH. destruct (lookup !! id); by rewrite <- app_assoc.
Qed.

Lemma UserIDsToNames_map (lookup : gmap UUID User) (ids : list string) :
  UserIDsToNames lookup ids
  = map (fun idStr => match lookup !! idStr with
                      | Some user => User_Email user
                      | None => idStr
                      end) ids.
Proof. unfold UserIDsToNames. by rewrite UserIDsToNames_from. Qed.

Lemma loop_state_snoc s defaultOrg w coderUsers user st :
  loop_state s defaultOrg w (coderUsers ++ [user]) st
  = if eligible s user
    then after_user defaultOrg (loop_state s defaultOrg w coderUsers st) user
           (source_groups w user) (cGroups_of w user)
    else after_skipped (loop_state s defaultOrg w coderUsers st) user.
Proof. unfold loop_state. by rewrite foldl_app. Qed.

Lemma loop_state_userByID s defaultOrg w coderUsers u :
  u ∈ coderUsers ->
  exists u',
    userByID (loop_state s defaultOrg w coderUsers loop_init) !! User_ID u
    = Some u'
    /\ u' ∈ coderUsers /\ User_ID u' = User_ID u.
Proof.
  induction coderUsers as [|x us IH] using rev_ind; intros Hu.
  - by apply elem_of_nil in Hu.
  - assert (userByID (loop_state s defaultOrg w (us ++ [x]) loop_init)
            = <[User_ID x := x]>
                (userByID (loop_state s defaultOrg w us loop_init))) as ->.
    { rewrite loop_state_snoc. by destruct (eligible s x). }
    destruct (decide (User_ID x = User_ID u)) as [E|E].
    + rewrite <- E, lookup_insert_eq. exists x. split; [done|].
      split; [|done]. apply elem_of_app. right. apply list_elem_of_here.
    + rewrite lookup_insert_ne by done.
      apply elem_of_app in Hu as [Hu|Hu].
      * destruct (IH Hu) as (u' & ? & ? & ?). exists u'.
        split; [done|]. split; [|done]. apply elem_of_app. by left.
      * apply list_elem_of_singleton in Hu. by subst x.
Qed.

Lemma users_loop_loop_state s defaultOrg coderUsers w st :
  (users_loop s defaultOrg coderUsers w).1 = Ok st ->
  st = loop_state s defaultOrg w coderUsers loop_init.
Proof.
  intros H. unfold users_loop in H.
  destruct (for_each _ _ _ w) as [o w'] eqn:E. simpl in H. subst o.
  pose proof (users_loop_Ok_inv s defaultOrg w coderUsers _ _ w w'
                (same_state_refl w) E) as Hok.
  fold loop_init in E.
  rewrite (users_loop_ok s defaultOrg w coderUsers loop_init w
             (same_state_refl w) Hok) in E.
  by injection E as <- _.
Qed.

Lemma elem_of_loop_list (P : User -> Prop) `{!forall u, Decision (P u)}
    (s : Sync) (coderUsers : list User) (id : string) :
  id ∈ flat_map (fun u => if decide (P u) then [User_ID u] else [])
                (List.filter (eligible s) coderUsers)
  <-> exists u, u ∈ coderUsers /\ eligible s u = true /\ P u /\ User_ID u = id.
Proof.
  rewrite elem_of_flat_map. split.
  - intros (u & Hin & Hid).
    apply list_elem_of_In, filter_In in Hin as [Hin He].
    apply list_elem_of_In in Hin.
    destruct (decide (P u)); [|by apply elem_of_nil in Hid].
    apply list_elem_of_singleton in Hid. by exists u.
  - intros (u & Hin & He & HP & <-). exists u. split.
    + apply list_elem_of_In, filter_In. split; [|done].
      by apply list_elem_of_In.
    + rewrite decide_True by done. apply list_elem_of_here.
Qed.

Lemma NoDup_loop_list (P : User -> Prop) `{!forall u, Decision (P u)}
    (s : Sync) (coderUsers : list User) :
  NoDup (map User_ID coderUsers) ->
  NoDup (flat_map (fun u => if decide (P u) then [User_ID u] else [])
                  (List.filter (eligible s) coderUsers)).
Proof.
  intros Hnd.
  assert (forall u, u ∈ List.filter (eligible s) coderUsers -> u ∈ coderUsers)
    as Hsub.
  { intros u Hu. apply list_elem_of_In, filter_In in Hu as [Hu _].
    by apply list_elem_of_In. }
  apply NoDup_flat_map.
  - apply NoDup_ListNoDup, List.NoDup_filter, NoDup_ListNoDup.
    by apply NoDup_fmap_1 in Hnd.
  - intros u _. destruct (decide (P u)); [apply NoDup_singleton|apply NoDup_nil_2].
  - intros u u' id Hu Hu' Hid Hid'.
    destruct (decide (P u)); [|by apply elem_of_nil in Hid].
    destruct (decide (P u')); [|by apply elem_of_nil in Hid'].
    apply list_elem_of_singleton in Hid, Hid'. subst id.
    apply (NoDup_fmap_elem_inj User_ID coderUsers); auto.
Qed.

(** X14.  When the loop of [SyncGroups] over the users ends, the lookup
    table holds a user for the ID of every listed user, eligible or not.
    Every entry of the change set names at least one user; the IDs it
    holds are IDs of eligible listed users; the names the log lines print
    for them are e-mail addresses of listed users, never a bare ID.
    When no two listed users share an ID, no ID is repeated within a
    list and no user is both added to and removed from one group. *)
Theorem change_set_after_users_loop (s : Sync) (defaultOrg : Organization)
    (coderUsers : list User) (w : World) (st : LoopState) :
  (users_loop s defaultOrg coderUsers w).1 = Ok st ->
  (forall u, u ∈ coderUsers ->
     exists u', userByID st !! User_ID u = Some u'
                /\ u' ∈ coderUsers /\ User_ID u' = User_ID u)
  /\ forall group req,
       coderGroupChanges st !! group = Some req ->
       (AddUsers req <> [] \/ RemoveUsers req <> [])
       /\ (forall id, id ∈ AddUsers req ++ RemoveUsers req ->
             exists u, u ∈ coderUsers /\ eligible s u = true
                       /\ User_ID u = id)
       /\ (forall name,
             name ∈ UserIDsToNames (userByID st) (AddUsers req)
                    ++ UserIDsToNames (userByID st) (RemoveUsers req) ->
             exists u, u ∈ coderUsers /\ name = User_Email u)
       /\ (NoDup (map User_ID coderUsers) ->
           NoDup (AddUsers req) /\ NoDup (RemoveUsers req)
           /\ forall id, id ∈ AddUsers req -> id ∉ RemoveUsers req).
Proof.
  intros Hrun. apply users_loop_loop_state in Hrun. subst st.
  split; [intros u; apply loop_state_userByID|].
  intros group req Hreq.
  pose proof (loop_state_index s defaultOrg w coderUsers loop_init group)
    as Hidx.
  unfold index at 1 in Hidx. rewrite Hreq in Hidx.
  unfold index in Hidx. cbn in Hidx. rewrite lookup_empty in Hidx.
  cbn in Hidx.
  assert (forall id, id ∈ AddUsers req ++ RemoveUsers req ->
            exists u, u ∈ coderUsers /\ eligible s u = true /\ User_ID u = id)
    as Hids.
  { intros id Hid. rewrite Hidx in Hid. simpl in Hid.
    apply elem_of_app in Hid as [Hid|Hid];
      apply elem_of_loop_list in Hid as (u & ? & ? & _ & ?); by exists u. }
  split; [|split; [done|split]].
  - assert (is_Some (coderGroupChanges
                       (loop_state s defaultOrg w coderUsers loop_init)
                     !! group)) as Hdom by (by eexists).
    apply loop_state_dom in Hdom as [[? Hinit]|(u & Hu & He & Hdiff)].
    { cbn in Hinit. by rewrite lookup_empty in Hinit. }
    rewrite Hidx. simpl.
    destruct Hdiff as [Hd|Hd]; [left|right]; intros Hnil.
    + assert (User_ID u ∈ flat_map
                (fun u => if decide (group ∈ toAdd defaultOrg w u)
                          then [User_ID u] else [])
                (List.filter (eligible s) coderUsers)) as Hin.
      { apply elem_of_loop_list. by exists u. }
      rewrite Hnil in Hin. by apply elem_of_nil in Hin.
    + assert (User_ID u ∈ flat_map
                (fun u => if decide (group ∈ toRemove defaultOrg w u)
                          then [User_ID u] else [])
                (List.filter (eligible s) coderUsers)) as Hin.
      { apply elem_of_loop_list. by exists u. }
      rewrite Hnil in Hin. by apply elem_of_nil in Hin.
  - intros name Hname.
    rewrite !UserIDsToNames_map, <- map_app in Hname.
    apply list_elem_of_fmap in Hname as (id & -> & Hid).
    destruct (Hids id Hid) as (u & Hu & _ & <-).
    destruct (loop_state_userByID s defaultOrg w coderUsers u Hu)
      as (u' & -> & Hu' & _).
    by exists u'.
  - intros Hnd. rewrite Hidx. simpl.
    split; [by apply NoDup_loop_list|]. split; [by apply NoDup_loop_list|].
    intros id Ha Hr.
    apply elem_of_loop_list in Ha as (u & Hu & _ & Hadd & <-).
    apply elem_of_loop_list in Hr as (v & Hv & _ & Hrem & Hid).
    assert (v = u) as ->
      by (apply (NoDup_fmap_elem_inj User_ID coderUsers); auto).
    apply elem_of_Difference in Hadd as [_ Hadd].
    apply elem_of_Difference in Hrem as [Hrem _].
    done.
Qed.

(** ** Applying the change set *)

(** X15.  [applyGroupChanges] stops at the first entry it cannot apply
    and undoes nothing.  It never ends the process.  When it succeeds,
    it has sent one patch per entry, in the order of the [range], each
    followed by its log line, and the groups of the server are the
    result of these patches.  When it returns an error, the entries the
    [range] visited before the failing one have been patched and stay
    patched; for the failing entry either the group is not in the map,
    and no request was sent for it ("group ... not found"), or the patch
    was sent and refused ("failed to patch group ..."); no later entry
    is touched. *)
Theorem applyGroupChanges_stops_at_first_failure
    (range_order : RangeOrder)
    (org : UUID) (lookupUser : gmap UUID User)
    (coderGroups : gmap string Group)
    (changes : gmap string PatchGroupRequest) (w : World) :
  let r := applyGroupChanges range_order org lookupUser coderGroups
             changes w in
  (forall msg, r.1 <> Fatal msg)
  /\ (r.1 = Ok tt ->
      trace r.2
      = trace w ++ flat_map (patch_events lookupUser coderGroups changes)
                            (range_order InApplyGroupChanges changes)
      /\ groups r.2
         = foldl (patch_step coderGroups changes) (groups w)
                 (range_order InApplyGroupChanges changes))
  /\ (forall e, r.1 = Err e ->
        exists before group after req,
          range_order InApplyGroupChanges changes = before ++ group :: after
          /\ changes !! group = Some req
          /\ groups r.2
             = foldl (patch_step coderGroups changes) (groups w) before
          /\ ((coderGroups !! group = None
               /\ e = Errorf ("group " +:+ group
                              +:+ " not found, unable to apply group sync")
               /\ trace r.2
                  = trace w
                    ++ flat_map (patch_events lookupUser coderGroups changes)
                                before)
              \/ (exists coderGroup,
                    coderGroups !! group = Some coderGroup
                    /\ e = Wrap ("failed to patch group " +:+ group)
                                (ApiError "PatchGroup")
                    /\ trace r.2
                       = trace w
                         ++ flat_map
                              (patch_events lookupUser coderGroups changes)
                              before
                         ++ [CallPatchGroup (Group_ID coderGroup) req]))).
Proof.
  intros r. subst r. unfold applyGroupChanges.
  destruct (apply_loop_stops lookupUser coderGroups changes
              (range_order InApplyGroupChanges changes) w) as (Hf & Herr).
  destruct (apply_loop_run lookupUser coderGroups changes
              (range_order InApplyGroupChanges changes) w) as (_ & Hok & _).
  split; [done|]. split.
  { intros H. split; [by apply Hok|]. by apply apply_loop_groups. }
  intros e He.
  destruct (Herr e He) as (ks1 & k & ks2 & req & Hks & Hk & Hg & Ht).
  exists ks1, k, ks2, req. split; [done|]. split; [done|]. split; [done|].
  destruct Ht as [?|(g & ? & ? & ? & _)]; [by left|].
  right. by exists g.
Qed.

(** ** Creating the missing groups *)

Lemma mutations_app (t1 t2 : list Event) :
  mutations (t1 ++ t2) = mutations t1 ++ mutations t2.
Proof. unfold mutations. apply List.filter_app. Qed.

Lemma mutations_create_events w org cg (ks : list string) :
  mutations (flat_map (create_events w org cg) ks)
  = map (fun g => CallCreateGroup org (create_request g))
        (filter (fun g => cg !! g = None) ks).
Proof.
  induction ks as [|k ks IH]; [done|].
  cbn [flat_map]. rewrite mutations_app, IH.
  unfold create_events at 1.
  destruct (cg !! k) as [G|] eqn:E.
  - by rewrite filter_cons_False by (by rewrite E).
  - rewrite filter_cons_True by done.
    by destruct (create_group w org k).
Qed.

Lemma mutations_creation_trace range_order w org cg ch :
  mutations (creation_trace range_order w org cg ch)
  = map (fun g => CallCreateGroup org (create_request g))
        (filter (fun g => cg !! g = None) (range_order InCreateMissingGroups ch)).
Proof.
  unfold creation_trace. rewrite mutations_app, mutations_create_events.
  destruct (created_groups _ _ _ _ _); simpl; by rewrite app_nil_r.
Qed.

(** X16.  [createMissingGroups] never fails, whatever the server
    answers.  It sends one creation request, in the default avatar and
    with no quota, for each key of the change set that is absent from
    the map of groups, in the order of the [range], and no other
    request.  The map it returns keeps every entry it had and gains the
    created groups; the change set it returns has lost exactly the
    entries whose creation was refused; so every entry that remains has
    its group in the map.  The server holds the groups it held, followed
    by the created ones. *)
Theorem createMissingGroups_creates_each_missing_group
    (range_order : RangeOrder)
    (org : UUID) (coderGroups : gmap string Group)
    (changes : gmap string PatchGroupRequest) (w : World) :
  fair range_order ->
  exists coderGroups' changes' w',
    createMissingGroups range_order org coderGroups changes w
    = (Ok (coderGroups', changes'), w')
    /\ mutations (trace w')
       = mutations (trace w)
         ++ map (fun group =>
                   CallCreateGroup org
                     {| CreateGroupRequest_Name := group;
                        CreateGroupRequest_DisplayName := "";
                        CreateGroupRequest_AvatarURL := "/emojis/1f195.png";
                        CreateGroupRequest_QuotaAllowance := 0 |})
                (filter (fun group => coderGroups !! group = None)
                        (range_order InCreateMissingGroups changes))
    /\ (forall group coderGroup,
          coderGroups !! group = Some coderGroup ->
          coderGroups' !! group = Some coderGroup)
    /\ (forall group,
          coderGroups !! group = None ->
          coderGroups' !! group
          = if decide (is_Some (changes !! group))
            then created_group org group <$> create_group w org group
            else None)
    /\ (forall group,
          changes' !! group
          = if decide (coderGroups !! group = None
                       /\ create_group w org group = None)
            then None else changes !! group)
    /\ (forall group,
          is_Some (changes' !! group) -> is_Some (coderGroups' !! group))
    /\ exists createdGroups,
         groups w' = groups w ++ createdGroups
         /\ forall G,
              G ∈ createdGroups
              <-> exists group id,
                    is_Some (changes !! group)
                    /\ coderGroups !! group = None
                    /\ create_group w org group = Some id
                    /\ G = created_group org group id.
Proof.
  intros Hfair.
  destruct (createMissingGroups_run range_order org coderGroups changes w
              Hfair)
    as (cg' & ch' & w' & Hrun & _ & Hch & Hcg & Htr & Hgr).
  exists cg', ch', w'. split; [done|]. split.
  { rewrite Htr, mutations_app. f_equal. apply mutations_creation_trace. }
  split.
  { intros g G HG. rewrite Hcg.
    destruct (decide (_ /\ _)) as [[_ E]|_]; [congruence|done]. }
  split.
  { intros g Hg. rewrite Hcg.
    destruct (decide (_ /\ _)) as [[Hin _]|Hn];
      destruct (decide (is_Some (changes !! g))) as [?|?]; try done.
    exfalso. by apply Hn. }
  split; [exact Hch|]. split.
  { intros g Hg. rewrite Hch in Hg. rewrite Hcg.
    destruct (decide (creation_fails w org coderGroups g)) as [?|Hn].
    { by destruct Hg. }
    destruct (decide (_ /\ _)) as [[_ E]|Hn'].
    - destruct (create_group w org g) eqn:Ec; [by eexists|].
      exfalso. by apply Hn.
    - destruct (coderGroups !! g) eqn:E; [by eexists|].
      exfalso. by apply Hn'. }
  exists (created_groups range_order w org coderGroups changes).
  split; [done|].
  intros G. unfold created_groups. rewrite elem_of_flat_map. split.
  - intros (g & Hin & HG).
    apply elem_of_create_groups in HG as (id & ? & ? & ?).
    exists g, id. split; [|done].
    by apply (fair_elem_of range_order InCreateMissingGroups).
  - intros (g & id & Hin & ? & ? & ?). exists g. split.
    + by apply fair_elem_of.
    + apply elem_of_create_groups. by exists id.
Qed.

(** ** How a run of [SyncGroups] can end *)

Lemma SyncGroups_steps range_order (s : Sync) (w : World) :
  SyncGroups range_order s w =
    let w1 := emit CallOrganizations w in
    if organizations_err w then
      (Err (Wrap "failed to get coder organizations"
                 (ApiError "Organizations")), w1)
    else
      match List.find Organization_IsDefault (organizations w) with
      | None => (Err (Errorf "default organization not found"), w1)
      | Some defaultOrg =>
          let orgID := Organization_ID defaultOrg in
          let w2 := emit (CallGroups (org_args orgID)) w1 in
          if groups_err w (org_args orgID) then
            (Err (Wrap "failed to get coder groups" (ApiError "Groups")), w2)
          else
            let w3 := emit CallUsers w2 in
            if users_err w then
              (Err (Wrap "failed to get coder users" (ApiError "Users")), w3)
            else
              match users_loop s defaultOrg (users w) w3 with
              | (Ok st, w4) =>
                  if decide (size (coderGroupChanges st) = 0%nat) then
                    (Ok tt, emit (Log (LogNoChanges (oidcUserCount st))) w4)
                  else
                    match createMissingGroups range_order orgID
                            (snapshot (org_groups w orgID))
                            (coderGroupChanges st) w4 with
                    | (Ok (cg1, ch1), w5) =>
                        wrap "failed to apply group changes"
                          (applyGroupChanges range_order orgID (userByID st)
                             cg1 ch1) w5
                    | (Err e, w5) =>
                        (Err (Wrap "failed to create missing groups" e), w5)
                    | (Fatal msg, w5) => (Fatal msg, w5)
                    end
              | (Err e, w4) => (Err e, w4)
              | (Fatal msg, w4) => (Fatal msg, w4)
              end
      end.
Proof.
  unfold SyncGroups. unfold bind at 1.
  rewrite defaultOrganization_run.
  destruct (organizations_err w); [done|].
  destruct (List.find _ _) as [defaultOrg|]; [|done].
  unfold bind at 1. rewrite coderGroups_run.
  change (groups_err (emit CallOrganizations w)) with (groups_err w).
  cbv zeta.
  destruct (groups_err w _); [done|].
  unfold bind at 1. unfold wrap at 1, Users.
  cbn [users_err emit].
  destruct (users_err w); [done|].
  unfold bind at 1.
  change (users (emit CallUsers _)) with (users w).
  destruct (users_loop s defaultOrg (users w) _) as [[st|e|msg] w4]; try done.
  destruct (decide (size (coderGroupChanges st) = 0%nat)); [done|].
  unfold bind at 1. unfold wrap at 1.
  change (org_groups (emit CallOrganizations w)) with (org_groups w).
  destruct (createMissingGroups _ _ _ _ w4) as [[[cg1 ch1]|e|msg] w5]; done.
Qed.

Lemma users_loop_reads (s : Sync) (defaultOrg : Organization)
    (coderUsers : list User) :
  forall (st : LoopState) (w : World),
  let r := for_each coderUsers (user_step s defaultOrg) st w in
  (exists es, r.2 = emits es w /\ forall e, e ∈ es -> is_read e = true)
  /\ ((exists st', r.1 = Ok st')
      \/ r.1 = Fatal "failed to get Google Groups"
      \/ r.1 = Fatal "failed to get coder groups for user").
Proof.
  induction coderUsers as [|u us IH]; intros st w r; subst r.
  - simpl. split; [|left; by eexists].
    exists []. split; [done|]. intros e He. by apply elem_of_nil in He.
  - cbn [for_each]. unfold bind.
    destruct (eligible s u) eqn:El.
    2:{ rewrite user_step_skip by done. apply IH. }
    rewrite user_step_eligible by done.
    destruct (google_groups w (User_Email u)) as [gGroups|].
    2:{ simpl. split; [|right; by left].
        exists [CallGoogleGroups (User_Email u)]. split; [done|].
        intros e He. apply list_elem_of_singleton in He. by subst e. }
    destruct (groups_err w (member_args u)).
    { simpl. split; [|right; by right].
      exists [CallGoogleGroups (User_Email u); CallGroups (member_args u)].
      split; [done|]. intros e He.
      apply elem_of_cons in He as [->|He]; [done|].
      apply list_elem_of_singleton in He. by subst e. }
    set (es1 := _ ++ skipped_lines gGroups).
    destruct (IH (after_user defaultOrg st u gGroups (cGroups_of w u))
                 (emits es1 w)) as ((es & Hes & Hread) & Hout).
    split; [|done].
    exists (es1 ++ es). split; [by rewrite emits_app|].
    intros e He. apply elem_of_app in He as [He|He]; [|by apply Hread].
    subst es1. apply elem_of_app in He as [He|He].
    + apply elem_of_cons in He as [->|He]; [done|].
      apply list_elem_of_singleton in He. by subst e.
    + unfold skipped_lines in He.
      apply list_elem_of_fmap in He as (g & -> & _). done.
Qed.

Lemma reads_change_nothing (es : list Event) (w : World) :
  (forall e, e ∈ es -> is_read e = true) ->
  groups (emits es w) = groups w
  /\ mutations (trace (emits es w)) = mutations (trace w).
Proof.
  intros Hread. split; [apply groups_emits|].
  rewrite trace_emits, mutations_app.
  assert (mutations es = []) as ->; [|by rewrite app_nil_r].
  induction es as [|e es IH]; [done|].
  unfold mutations in *. cbn [List.filter].
  assert (is_mutation e = false) as ->.
  { pose proof (Hread e (list_elem_of_here _ _)) as H.
    by destruct e as [| | | | | |[]]. }
  apply IH. intros e' He'. apply Hread. by apply list_elem_of_further.
Qed.

Lemma createMissingGroups_resolvable range_order (org : UUID)
    (cg : gmap string Group) (ch : gmap string PatchGroupRequest)
    (w : World) :
  fair range_order ->
  exists cg' ch' w',
    createMissingGroups range_order org cg ch w = (Ok (cg', ch'), w')
    /\ forall g, is_Some (ch' !! g) -> is_Some (cg' !! g).
Proof.
  intros Hfair.
  destruct (createMissingGroups_run range_order org cg ch w Hfair)
    as (cg' & ch' & w' & Hrun & _ & Hch & Hcg & _).
  exists cg', ch', w'. split; [done|].
  intros g Hg. rewrite Hch in Hg. rewrite Hcg.
  destruct (decide (creation_fails w org cg g)) as [?|Hn].
  { by destruct Hg. }
  destruct (decide (_ /\ _)) as [[_ E]|Hn'].
  - destruct (create_group w org g) eqn:Ec; [by eexists|].
    exfalso. by apply Hn.
  - destruct (cg !! g) eqn:E; [by eexists|].
    exfalso. by apply Hn'.
Qed.

(** X17.  With a [range] that visits every key once, a run of
    [SyncGroups] ends in one of eight ways: normally; with the error of
    the listing of the organizations, of the missing default
    organization, of the listing of the groups or of the listing of the
    users; by ending the process on a user whose Google groups or Coder
    groups cannot be fetched; or with the error of a refused patch,
    wrapped in "failed to apply group changes".  It never returns
    "failed to create missing groups" nor "group ... not found".  A run
    that ends in a way other than normally or on a refused patch has
    sent no creation and no patch, and the groups are what they were. *)
Theorem SyncGroups_outcomes
    (range_order : RangeOrder)
    (s : Sync) (w : World) :
  fair range_order ->
  let r := SyncGroups range_order s w in
  (r.1 = Ok tt
   \/ r.1 = Err (Wrap "failed to get coder organizations"
                      (ApiError "Organizations"))
   \/ r.1 = Err (Errorf "default organization not found")
   \/ r.1 = Err (Wrap "failed to get coder groups" (ApiError "Groups"))
   \/ r.1 = Err (Wrap "failed to get coder users" (ApiError "Users"))
   \/ r.1 = Fatal "failed to get Google Groups"
   \/ r.1 = Fatal "failed to get coder groups for user"
   \/ exists group,
        r.1 = Err (Wrap "failed to apply group changes"
                     (Wrap ("failed to patch group " +:+ group)
                           (ApiError "PatchGroup"))))
  /\ (r.1 <> Ok tt ->
      (forall e, r.1 <> Err (Wrap "failed to apply group changes" e)) ->
      groups r.2 = groups w
      /\ mutations (trace r.2) = mutations (trace w)).
Proof.
  intros Hfair r. subst r.
  rewrite SyncGroups_steps. cbv zeta.
  assert (Hr1 : forall e, is_read e = true -> forall w0,
            groups (emit e w0) = groups w0
            /\ mutations (trace (emit e w0)) = mutations (trace w0)).
  { intros e He w0. apply (reads_change_nothing [e]).
    intros e' He'. apply list_elem_of_singleton in He'. by subst e'. }
  destruct (organizations_err w).
  { split; [right; by left|]. intros _ _. by apply Hr1. }
  destruct (List.find _ _) as [defaultOrg|].
  2:{ split; [right; right; by left|]. intros _ _. by apply Hr1. }
  set (w1 := emit CallOrganizations w).
  set (w2 := emit (CallGroups _) w1).
  assert (H2 : groups w2 = groups w
               /\ mutations (trace w2) = mutations (trace w)).
  { apply (reads_change_nothing [_; _] w).
    intros e He. apply elem_of_cons in He as [->|He]; [done|].
    apply list_elem_of_singleton in He. by subst e. }
  destruct (groups_err w _).
  { split; [do 3 right; by left|]. by intros _ _. }
  set (w3 := emit CallUsers w2).
  assert (H3 : groups w3 = groups w
               /\ mutations (trace w3) = mutations (trace w)).
  { unfold w3. destruct (Hr1 CallUsers eq_refl w2) as [-> ->]. done. }
  destruct (users_err w).
  { split; [do 4 right; by left|]. by intros _ _. }
  unfold users_loop.
  destruct (users_loop_reads s defaultOrg (users w) loop_init w3)
    as ((es & Hes & Hread) & Hout).
  fold loop_init.
  destruct (for_each (users w) (user_step s defaultOrg) loop_init w3)
    as [o w4] eqn:Eloop.
  cbn [fst snd] in Hes, Hout.
  assert (H4 : groups w4 = groups w
               /\ mutations (trace w4) = mutations (trace w)).
  { subst w4. destruct (reads_change_nothing es w3 Hread) as [-> ->]. done. }
  destruct Hout as [[st ->]|[->| ->]].
  2:{ split; [do 5 right; by left|]. by intros _ _. }
  2:{ split; [do 6 right; by left|]. by intros _ _. }
  destruct (decide (size (coderGroupChanges st) = 0%nat)).
  { split; [by left|]. by intros []. }
  destruct (createMissingGroups_resolvable range_order
              (Organization_ID defaultOrg)
              (snapshot (org_groups w (Organization_ID defaultOrg)))
              (coderGroupChanges st) w4 Hfair)
    as (cg1 & ch1 & w5 & Hcreate & Hdom).
  rewrite Hcreate.
  unfold wrap, applyGroupChanges.
  destruct (apply_loop_run (userByID st) cg1 ch1 (range_order InApplyGroupChanges ch1) w5)
    as (_ & _ & _ & Hend).
  destruct (for_each (range_order InApplyGroupChanges ch1) _ tt w5) as [o w6].
  cbn [fst snd] in *.
  destruct Hend as [->|(g & _ & ->)].
  - intros g _. apply Hdom.
  - split; [by left|]. by intros [].
  - split; [do 7 right; by exists g|].
    intros _ H. by destruct (H (patch_error g)).
Qed.

(** ** The standalone script and the package *)

Lemma script_main_steps range_order (domain : string) (w : World) :
  script.main range_order domain w =
    let w1 := emit CallOrganizations w in
    if organizations_err w then
      (Fatal "failed to get coder organizations", w1)
    else
      let defaultOrg :=
        match List.find Organization_IsDefault (organizations w) with
        | Some org => org
        | None => Organization_zero
        end in
      let orgID := Organization_ID defaultOrg in
      let w2 := emit (CallGroups (org_args orgID)) w1 in
      if groups_err w (org_args orgID) then
        (Fatal "failed to get coder groups", w2)
      else
        let w3 := emit CallUsers w2 in
        if users_err w then (Fatal "failed to get coder users", w3)
        else
          match users_loop {| EmailDomain := domain |} defaultOrg
                  (users w) w3 with
          | (Ok st, w4) =>
              match for_each (range_order InCreateMissingGroups (coderGroupChanges st))
                      (createMissingGroups_step orgID)
                      (snapshot (org_groups w orgID),
                       coderGroupChanges st, []) w4 with
              | (Ok (cg1, ch1, createdGroups), w5) =>
                  if decide (size ch1 = 0%nat) then
                    (Ok tt, emit (Log (LogNoChanges (oidcUserCount st))) w5)
                  else
                    for_each (range_order InApplyGroupChanges ch1)
                      (script.apply_step (userByID st) cg1 ch1) tt
                      (emit (Log LogChangesToMemberships)
                         (if decide (0 < length createdGroups)%nat
                          then emit (Log (LogCreated createdGroups))
                                    (emit (Log LogChangesMade) w5)
                          else emit (Log LogChangesMade) w5))
              | (Err e, w5) => (Err e, w5)
              | (Fatal msg, w5) => (Fatal msg, w5)
              end
          | (Err e, w4) => (Err e, w4)
          | (Fatal msg, w4) => (Fatal msg, w4)
          end.
Proof.
  unfold script.main. unfold bind at 1. unfold or_fatal at 1, Organizations.
  cbn [organizations_err organizations emit]. cbv zeta.
  destruct (organizations_err w); [done|].
  set (defaultOrg := match List.find _ _ with Some org => org | None => _ end).
  unfold bind at 1. unfold or_fatal at 1, Groups.
  cbn [groups_err emit].
  destruct (groups_err w _); [done|].
  unfold bind at 1. unfold or_fatal at 1, Users.
  cbn [users_err users emit].
  destruct (users_err w); [done|].
  unfold bind at 1.
  destruct (users_loop _ defaultOrg (users w) _) as [[st|e|msg] w4]; try done.
  unfold bind at 1.
  change (for_each (range_order InCreateMissingGroups (coderGroupChanges st))
            (createMissingGroups_step (Organization_ID defaultOrg))
            (snapshot (org_groups w (Organization_ID defaultOrg)),
             coderGroupChanges st, []) w4)
    with (for_each (range_order InCreateMissingGroups (coderGroupChanges st))
            (createMissingGroups_step (Organization_ID defaultOrg))
            (foldl (fun m group => <[Group_Name group := group]> m) ∅
               (filter
                  (group_matches
                     (emit (CallGroups
                              {| GroupArguments_Organization :=
                                   Organization_ID defaultOrg;
                                 GroupArguments_HasMember := "" |})
                        (emit CallOrganizations w))
                     {| GroupArguments_Organization :=
                          Organization_ID defaultOrg;
                        GroupArguments_HasMember := "" |})
                  (groups w)),
             coderGroupChanges st, []) w4).
  destruct (for_each _ (createMissingGroups_step _) _ w4)
    as [[[[cg1 ch1] created]|e|msg] w5]; try done.
  destruct (decide (size ch1 = 0%nat)); [done|].
  unfold bind, log. simpl.
  destruct (decide (0 < length created)%nat);
    destruct (decide (0 < size ch1)%nat); try done; lia.
Qed.

Lemma apply_step_run (lookupUser : gmap UUID User)
    (cg : gmap string Group) (ch : gmap string PatchGroupRequest)
    (group : string) (w : World) :
  script.apply_step lookupUser cg ch tt group w =
    match ch !! group with
    | None => (Ok tt, w)
    | Some req =>
        match cg !! group with
        | None =>
            (Fatal ("group " +:+ group
                    +:+ " not found, does it exist in Coder?"), w)
        | Some coderGroup =>
            if patch_accepted w (Group_ID coderGroup) then
              (Ok tt,
               emit (Log (LogGroupPatched group
                            (UserIDsToNames lookupUser (AddUsers req))
                            (UserIDsToNames lookupUser (RemoveUsers req))))
                 (set_groups
                    (patched_groups (Group_ID coderGroup) req (groups w))
                    (emit (CallPatchGroup (Group_ID coderGroup) req) w)))
            else
              (Fatal ("failed to patch group " +:+ group),
               emit (CallPatchGroup (Group_ID coderGroup) req) w)
        end
    end.
Proof.
  unfold script.apply_step.
  destruct (ch !! group) as [req|]; [|done].
  destruct (cg !! group) as [coderGroup|]; [|done].
  unfold bind, or_fatal, PatchGroup, patch_accepted, log. simpl.
  destruct (patch_err w (Group_ID coderGroup)); [done|]. simpl.
  destruct (List.find _ (groups w)) as [g|]; reflexivity.
Qed.

Lemma same_effects_refl w : same_effects w w.
Proof. split; [apply same_state_refl|done]. Qed.

Lemma same_effects_log (l : LogLine) (w w' : World) :
  same_effects w w' -> same_effects w (emit (Log l) w').
Proof.
  intros [[Hs Hg] Hm]. split; [split|].
  - eapply same_services_trans; [exact Hs|apply same_services_emit].
  - exact Hg.
  - cbn [trace emit]. rewrite mutations_app, Hm. simpl. apply app_nil_r.
Qed.

Lemma same_effects_sym w w' : same_effects w w' -> same_effects w' w.
Proof.
  intros [[Hs Hg] Hm]. split; [split|]; [|done..].
  destruct Hs as (? & ? & ? & ? & ? & ? & ? & ?). by repeat split.
Qed.

Lemma same_effects_trans w1 w2 w3 :
  same_effects w1 w2 -> same_effects w2 w3 -> same_effects w1 w3.
Proof.
  intros [H12 M12] [H23 M23]. split.
  - by eapply same_state_trans.
  - by rewrite M23.
Qed.

Lemma patch_accepted_same w w' id :
  same_effects w w' -> patch_accepted w' id = patch_accepted w id.
Proof.
  intros [[Hs Hg] _]. unfold patch_accepted. rewrite Hg.
  destruct Hs as (_ & _ & _ & _ & _ & _ & -> & _). done.
Qed.

Lemma apply_loops_agree (lookupUser : gmap UUID User)
    (cg : gmap string Group) (ch : gmap string PatchGroupRequest)
    (ks : list string) :
  forall (wS wM : World),
  same_effects wS wM ->
  let rS := for_each ks (applyGroupChanges_step lookupUser cg ch) tt wS in
  let rM := for_each ks (script.apply_step lookupUser cg ch) tt wM in
  same_effects rS.2 rM.2
  /\ (rM.1 = Ok tt <-> rS.1 = Ok tt)
  /\ (forall e, rM.1 <> Err e).
Proof.
  induction ks as [|k ks IH]; intros wS wM Hsame rS rM; subst rS rM.
  - simpl. done.
  - cbn [for_each]. unfold bind.
    rewrite applyGroupChanges_step_run, apply_step_run.
    destruct (ch !! k) as [req|]; [|by apply IH].
    destruct (cg !! k) as [coderGroup|]; [|done].
    rewrite (patch_accepted_same wS wM _ Hsame).
    assert (Hcall : same_effects
                      (emit (CallPatchGroup (Group_ID coderGroup) req) wS)
                      (emit (CallPatchGroup (Group_ID coderGroup) req) wM)).
    { destruct Hsame as [[Hs Hg] Hm]. split; [split|].
      - destruct Hs as (? & ? & ? & ? & ? & ? & ? & ?). by repeat split.
      - exact Hg.
      - cbn [trace emit]. by rewrite !mutations_app, Hm. }
    destruct (patch_accepted wS (Group_ID coderGroup)); [|done].
    apply IH.
    destruct Hcall as [[Hs Hg] Hm]. split; [split|].
    + destruct Hs as (? & ? & ? & ? & ? & ? & ? & ?). by repeat split.
    + cbn [groups emit set_groups] in *. by rewrite Hg.
    + cbn [trace emit set_groups] in *. rewrite !mutations_app in *.
      by rewrite Hm.
Qed.

Lemma fair_empty range_order stmt :
  fair range_order -> range_order stmt ∅ = [].
Proof.
  intros Hfair. apply Permutation_nil_r. rewrite (Hfair stmt ∅).
  by rewrite map_to_list_empty.
Qed.

Lemma wrap_same {A} (msg : string) (m : M A) (w : World) :
  (wrap msg m w).2 = (m w).2
  /\ forall a, (wrap msg m w).1 = Ok a <-> (m w).1 = Ok a.
Proof. unfold wrap. by destruct (m w) as [[a|e|f] w']. Qed.

(** Run with one and the same order of the [range] statements, the
    standalone script and [SyncGroups] send the same requests and leave
    the same groups. *)
Lemma script_main_agrees
    (range_order : RangeOrder)
    (domain : string) (w : World) (defaultOrg : Organization) :
  fair range_order ->
  List.find Organization_IsDefault (organizations w) = Some defaultOrg ->
  let rS := SyncGroups range_order {| EmailDomain := domain |} w in
  let rM := script.main range_order domain w in
  mutations (trace rM.2) = mutations (trace rS.2)
  /\ groups rM.2 = groups rS.2
  /\ (rM.1 = Ok tt <-> rS.1 = Ok tt)
  /\ (forall e, rM.1 <> Err e).
Proof.
  intros Hfair Hd rS rM.
  assert (forall rS rM,
            rS = SyncGroups range_order {| EmailDomain := domain |} w ->
            rM = script.main range_order domain w ->
            same_effects rS.2 rM.2
            /\ (rM.1 = Ok tt <-> rS.1 = Ok tt)
            /\ (forall e, rM.1 <> Err e)) as Hall.
  2:{ destruct (Hall rS rM eq_refl eq_refl) as ([[_ Hg] Hm] & Hok & Herr).
      done. }
  clear rS rM. intros rS rM.
  rewrite SyncGroups_steps, script_main_steps, Hd. cbv zeta.
  destruct (organizations_err w).
  { intros -> ->. split; [apply same_effects_refl|]. by split. }
  destruct (groups_err w _).
  { intros -> ->. split; [apply same_effects_refl|]. by split. }
  destruct (users_err w).
  { intros -> ->. split; [apply same_effects_refl|]. by split. }
  set (s := {| EmailDomain := domain |}).
  set (w3 := emit CallUsers _).
  pose proof (users_loop_reads s defaultOrg (users w) loop_init w3)
    as (_ & Hout).
  unfold users_loop. fold loop_init.
  destruct (for_each (users w) (user_step s defaultOrg) loop_init w3)
    as [o w4].
  cbn [fst] in Hout.
  destruct Hout as [[st ->]|[->| ->]].
  2:{ intros -> ->. split; [apply same_effects_refl|]. by split. }
  2:{ intros -> ->. split; [apply same_effects_refl|]. by split. }
  set (orgID := Organization_ID defaultOrg).
  set (cg0 := snapshot (org_groups w orgID)).
  destruct (decide (size (coderGroupChanges st) = 0%nat)) as [Hz|Hnz].
  { apply map_size_empty_iff in Hz. rewrite Hz.
    rewrite fair_empty by done. cbn [for_each]. unfold ret.
    rewrite decide_True by apply map_size_empty.
    intros -> ->. split; [apply same_effects_refl|]. by split. }
  set (ch := coderGroupChanges st).
  destruct (create_loop_run orgID (range_order InCreateMissingGroups ch) cg0 ch [] w4
              (fair_NoDup range_order InCreateMissingGroups ch Hfair))
    as (cg1 & ch1 & w5 & Hloop & _).
  unfold createMissingGroups, bind. rewrite Hloop.
  set (created := [] ++ _).
  set (w5M := emit (Log LogChangesToMemberships) _).
  set (w5S := (if decide (0 < length created)%nat
               then log (LogCreated created) else ret tt) w5).
  assert (HS : w5S = (Ok tt, w5S.2)).
  { subst w5S. by destruct (decide (0 < length created)%nat). }
  assert (H5 : same_effects w5S.2 w5).
  { apply same_effects_sym. subst w5S.
    destruct (decide (0 < length created)%nat); simpl.
    - apply same_effects_log, same_effects_refl.
    - apply same_effects_refl. }
  assert (H5M : same_effects w5S.2 w5M).
  { eapply same_effects_trans; [exact H5|]. subst w5M.
    apply same_effects_log.
    destruct (decide (0 < length created)%nat);
      repeat apply same_effects_log; apply same_effects_refl. }
  rewrite HS. unfold ret, wrap, applyGroupChanges.
  destruct (decide (size ch1 = 0%nat)) as [Hz1|Hnz1].
  { apply map_size_empty_iff in Hz1. rewrite Hz1.
    rewrite fair_empty by done. cbn [for_each]. unfold ret.
    intros -> ->. cbn [fst snd]. split; [|by split].
    eapply same_effects_trans; [exact H5|].
    apply same_effects_log, same_effects_refl. }
  pose proof (apply_loops_agree (userByID st) cg1 ch1 (range_order InApplyGroupChanges ch1)
                w5S.2 w5M H5M) as (Hs & Hok & Herr).
  destruct (for_each (range_order InApplyGroupChanges ch1)
              (applyGroupChanges_step (userByID st) cg1 ch1) tt w5S.2)
    as [oS w6S].
  destruct (for_each (range_order InApplyGroupChanges ch1)
              (script.apply_step (userByID st) cg1 ch1) tt w5M)
    as [oM w6M].
  cbn [fst snd] in Hs, Hok, Herr.
  intros -> ->.
  destruct oS as [[]|e|msg]; cbn [fst snd];
    (split; [exact Hs|]); (split; [|exact Herr]).
  - exact Hok.
  - rewrite Hok. by split.
  - rewrite Hok. by split.
Qed.

(** ** Which users are synchronised *)







(** ** The order of the calls of a run *)

Lemma apply_loop_trace (lookupUser : gmap UUID User) (cg : gmap string Group)
    (ch : gmap string PatchGroupRequest) (ks : list string) (w : World) :
  exists es,
    trace (for_each ks (applyGroupChanges_step lookupUser cg ch) tt w).2
    = trace w ++ es
    /\ forall e, e ∈ es -> is_application e = true.
Proof.
  destruct (apply_loop_run lookupUser cg ch ks w) as (_ & Hok & _).
  destruct (apply_loop_stops lookupUser cg ch ks w) as (Hf & Herr).
  assert (Hpe : forall l e,
            e ∈ flat_map (patch_events lookupUser cg ch) l ->
            is_application e = true).
  { intros l e He. apply elem_of_flat_map in He as (g & _ & He).
    by apply patch_events_application in He. }
  destruct (for_each ks _ tt w) as [[[]|e|msg] w'] eqn:E; cbn [fst snd] in *.
  - eexists. split; [by apply Hok|]. apply Hpe.
  - destruct (Herr e eq_refl)
      as (ks1 & k & ks2 & req & _ & _ & _
          & [(_ & _ & Ht)|(g & _ & _ & Ht & _)]).
    + eexists. split; [exact Ht|]. apply Hpe.
    + eexists. split; [exact Ht|]. intros e' He'.
      apply elem_of_app in He' as [He'|He']; [by apply (Hpe ks1)|].
      apply list_elem_of_singleton in He'. by subst e'.
  - by destruct (Hf msg).
Qed.

(** X20.  A run of [SyncGroups] reads before it writes.  What it adds to
    the trace is, in this order: the listings and the lines about source
    groups without a name; then the creation requests and their log
    lines; then the patches and their log lines, or the line that reports
    that nothing is to be changed.  No listing follows a creation or a
    patch, and no creation follows a patch, however the run ends. *)
Theorem SyncGroups_reads_before_it_writes
    (range_order : RangeOrder)
    (s : Sync) (w : World) :
  fair range_order ->
  exists reads creations applications,
    trace (SyncGroups range_order s w).2
    = trace w ++ reads ++ creations ++ applications
    /\ (forall e, e ∈ reads -> is_read e = true)
    /\ (forall e, e ∈ creations -> is_creation e = true)
    /\ (forall e, e ∈ applications ->
          is_application e = true \/ exists n, e = Log (LogNoChanges n)).
Proof.
  intros Hfair. rewrite SyncGroups_steps. cbv zeta.
  assert (Hnil : forall (P : Event -> Prop) e, e ∈ @nil Event -> P e).
  { intros P e He. by apply elem_of_nil in He. }
  assert (Hone : forall e, is_read e = true ->
            forall e', e' ∈ [e] -> is_read e' = true).
  { intros e He e' He'. apply list_elem_of_singleton in He'. by subst e'. }
  destruct (organizations_err w).
  { exists [CallOrganizations], [], []. split; [done|].
    split; [by apply Hone|]. split; apply Hnil. }
  destruct (List.find _ _) as [defaultOrg|].
  2:{ exists [CallOrganizations], [], []. split; [done|].
      split; [by apply Hone|]. split; apply Hnil. }
  set (orgID := Organization_ID defaultOrg).
  assert (Htwo : forall e',
            e' ∈ [CallOrganizations; CallGroups (org_args orgID)] ->
            is_read e' = true).
  { intros e' He'. apply elem_of_cons in He' as [->|He']; [done|].
    apply list_elem_of_singleton in He'. by subst e'. }
  destruct (groups_err w _).
  { exists [CallOrganizations; CallGroups (org_args orgID)], [], [].
    split; [simpl; by rewrite <- app_assoc|].
    split; [done|]. split; apply Hnil. }
  assert (Hthree : forall e',
            e' ∈ [CallOrganizations; CallGroups (org_args orgID); CallUsers] ->
            is_read e' = true).
  { intros e' He'. apply elem_of_cons in He' as [->|He']; [done|].
    apply elem_of_cons in He' as [->|He']; [done|].
    apply list_elem_of_singleton in He'. by subst e'. }
  set (w3 := emit CallUsers _).
  assert (Hw3 : trace w3
                = trace w ++ [CallOrganizations; CallGroups (org_args orgID);
                              CallUsers]).
  { subst w3. simpl. by rewrite <- !app_assoc. }
  destruct (users_err w).
  { exists [CallOrganizations; CallGroups (org_args orgID); CallUsers], [], [].
    split; [cbn [snd]; by rewrite Hw3, !app_nil_r|].
    split; [done|]. split; apply Hnil. }
  unfold users_loop. fold loop_init.
  destruct (users_loop_reads s defaultOrg (users w) loop_init w3)
    as ((es & Hes & Hread) & _).
  destruct (for_each (users w) (user_step s defaultOrg) loop_init w3)
    as [o w4].
  cbn [snd] in Hes.
  set (reads := [CallOrganizations; CallGroups (org_args orgID); CallUsers]
                ++ es).
  assert (Hw4 : trace w4 = trace w ++ reads).
  { subst w4 reads. by rewrite trace_emits, Hw3, <- app_assoc. }
  assert (Hreads : forall e, e ∈ reads -> is_read e = true).
  { intros e He. apply elem_of_app in He as [He|He]; auto. }
  destruct o as [st|err|msg].
  2:{ exists reads, [], []. split; [cbn [snd]; by rewrite Hw4, !app_nil_r|].
      split; [done|]. split; apply Hnil. }
  2:{ exists reads, [], []. split; [cbn [snd]; by rewrite Hw4, !app_nil_r|].
      split; [done|]. split; apply Hnil. }
  destruct (decide (size (coderGroupChanges st) = 0%nat)) as [Hz|Hnz].
  { exists reads, [], [Log (LogNoChanges (oidcUserCount st))].
    split; [cbn [snd trace emit]; by rewrite Hw4, <- app_assoc|].
    split; [done|]. split; [apply Hnil|].
    intros e He. apply list_elem_of_singleton in He. right. by eexists. }
  destruct (createMissingGroups_run range_order orgID
              (snapshot (org_groups w orgID)) (coderGroupChanges st) w4 Hfair)
    as (cg1 & ch1 & w5 & Hcreate & _ & _ & _ & Htr & _).
  rewrite Hcreate.
  destruct (wrap_same "failed to apply group changes"
              (applyGroupChanges range_order orgID (userByID st) cg1 ch1) w5)
    as [-> _].
  unfold applyGroupChanges.
  destruct (apply_loop_trace (userByID st) cg1 ch1 (range_order InApplyGroupChanges ch1) w5)
    as (apps & Happs & Happ).
  exists reads,
    (creation_trace range_order w4 orgID (snapshot (org_groups w orgID))
       (coderGroupChanges st)),
    apps.
  split; [by rewrite Happs, Htr, Hw4, <- !app_assoc|].
  split; [done|]. split.
  - intros e. apply creation_trace_creation.
  - intros e He. left. by apply Happ.
Qed.

(** ** What a run achieves *)

Lemma loop_changes_ids (s : Sync) (defaultOrg : Organization) (w : World)
    (n id : string) :
  id ∈ AddUsers (index (loop_changes s defaultOrg w) n)
       ++ RemoveUsers (index (loop_changes s defaultOrg w) n) ->
  exists u, u ∈ users w /\ eligible s u = true /\ User_ID u = id.
Proof.
  unfold loop_changes. rewrite loop_state_index. cbn [AddUsers RemoveUsers].
  unfold index. cbn. rewrite lookup_empty. cbn.
  intros Hid. apply elem_of_app in Hid as [Hid|Hid];
    apply elem_of_loop_list in Hid as (u & ? & ? & _ & ?); by exists u.
Qed.

(** X21.  On a well-formed deployment a successful run of [SyncGroups]
    leaves every eligible user in exactly the groups of the Expected set
    computed when the run began: the user is a member of a group of the
    server exactly when the name of the group is in that set, and every
    name of the set is the name of a group of the server.  The
    memberships of the users that are not eligible are what they were,
    and no group is deleted, renamed or given another ID. *)
Theorem first_run_reaches_expected
    (range_order : RangeOrder)
    (s : Sync) (defaultOrg : Organization) (w : World) :
  fair range_order ->
  well_formed s defaultOrg w ->
  (SyncGroups range_order s w).1 = Ok tt ->
  let w1 := (SyncGroups range_order s w).2 in
  (forall u, u ∈ users w -> eligible s u = true ->
     (forall G, G ∈ groups w1 ->
        User_ID u ∈ Group_Members G
        <-> Group_Name G
              ∈ Expected defaultOrg (cGroups_of w u) (source_groups w u))
     /\ (forall n,
           n ∈ Expected defaultOrg (cGroups_of w u) (source_groups w u) ->
           exists G, G ∈ groups w1 /\ Group_Name G = n))
  /\ (forall u, u ∈ users w -> eligible s u = false ->
        forall G1, G1 ∈ groups w1 ->
          User_ID u ∈ Group_Members G1
          <-> exists G, G ∈ groups w /\ Group_Name G = Group_Name G1
                        /\ User_ID u ∈ Group_Members G)
  /\ (forall G, G ∈ groups w ->
        exists G1, G1 ∈ groups w1 /\ Group_ID G1 = Group_ID G
                   /\ Group_Name G1 = Group_Name G).
Proof.
  intros Hfair Hwf Hrun w1.
  destruct (first_run_groups s defaultOrg w Hwf range_order Hfair Hrun)
    as (_ & gs5 & Hgroups & Hn5 & _ & Hold & Hkeep & Hkeys).
  fold w1 in Hgroups.
  set (ch := loop_changes s defaultOrg w) in *.
  assert (Hin1 : forall G1, G1 ∈ groups w1 <->
            exists G, G ∈ gs5 /\ G1 = patch_by_name ch G).
  { intros G1. rewrite Hgroups, list_elem_of_fmap. split.
    - intros (G & -> & HG). by exists G.
    - intros (G & HG & ->). by exists G. }
  split; [|split].
  - intros u Hu He. split.
    + intros G1 HG1. apply Hin1 in HG1 as (G & HG & ->).
      change (Group_Name (patch_by_name ch G)) with (Group_Name G).
      apply (member_after s defaultOrg w Hwf u G Hu He).
      destruct (Hold G HG) as [?|(? & ? & _)]; [by left|by right].
    + intros n Hn.
      assert (n ∈ map Group_Name gs5) as Hn'.
      { apply (Expected_cases _ (Actual (cGroups_of w u))) in Hn
          as [[Hact|Hadd] _].
        - apply Actual_names in Hact.
          apply list_elem_of_fmap in Hact as (G & -> & HG).
          apply list_elem_of_fmap. exists G. split; [done|]. by apply Hkeep.
        - apply Hkeys. apply loop_changes_dom. exists u.
          split; [done|]. split; [done|]. by left. }
      apply list_elem_of_fmap in Hn' as (G & -> & HG).
      exists (patch_by_name ch G). split; [|done].
      apply Hin1. by exists G.
  - intros u Hu He G1 HG1. apply Hin1 in HG1 as (G & HG & ->).
    change (Group_Name (patch_by_name ch G)) with (Group_Name G).
    assert (Hnot : User_ID u ∉ AddUsers (index ch (Group_Name G))
                               ++ RemoveUsers (index ch (Group_Name G))).
    { intros Hid. apply loop_changes_ids in Hid as (v & Hv & Hev & Hid).
      assert (v = u) as ->.
      { apply (NoDup_fmap_elem_inj User_ID (users w)); try done.
        apply (wf_user_ids _ _ _ Hwf). }
      congruence. }
    assert (Hmem : User_ID u ∈ Group_Members (patch_by_name ch G)
                   <-> User_ID u ∈ Group_Members G).
    { unfold patch_by_name, patch_members. cbn [Group_Members].
      rewrite list_elem_of_difference, elem_of_app.
      rewrite elem_of_app in Hnot. tauto. }
    rewrite Hmem. split.
    + intros Hm. destruct (Hold G HG) as [?|(Hnil & _)].
      * by exists G.
      * rewrite Hnil in Hm. by apply elem_of_nil in Hm.
    + intros (G' & HG' & Hname & Hm).
      assert (G' = G) as <-; [|done].
      apply (NoDup_fmap_elem_inj Group_Name gs5); try done.
      by apply Hkeep.
  - intros G HG. exists (patch_by_name ch G). split; [|done].
    apply Hin1. exists G. split; [|done]. by apply Hkeep.
Qed.

(** ** The order of the [range] statements *)

Lemma find_is_Some {A} (p : A -> bool) (l : list A) :
  is_Some (List.find p l) <-> exists x, x ∈ l /\ p x = true.
Proof.
  induction l as [|a l IH]; simpl.
  - split; [by intros [? ?]|]. intros (x & Hx & _). by apply elem_of_nil in Hx.
  - destruct (p a) eqn:E.
    + split; [|by eexists]. intros _. exists a. split; [|done].
      apply list_elem_of_here.
    + rewrite IH. split.
      * intros (x & Hx & Hp). exists x. split; [|done].
        by apply list_elem_of_further.
      * intros (x & Hx & Hp). apply elem_of_cons in Hx as [->|Hx];
          [congruence|]. by exists x.
Qed.

Lemma elem_of_created_groups range_order w org cg ch G :
  fair range_order ->
  G ∈ created_groups range_order w org cg ch
  <-> exists g id,
        is_Some (ch !! g) /\ cg !! g = None
        /\ create_group w org g = Some id /\ G = created_group org g id.
Proof.
  intros Hfair. unfold created_groups. rewrite elem_of_flat_map. split.
  - intros (g & Hin & HG).
    apply elem_of_create_groups in HG as (id & ? & ? & ?).
    exists g, id. split; [|done].
    by apply (fair_elem_of range_order InCreateMissingGroups).
  - intros (g & id & Hin & ? & ? & ?). exists g. split.
    + by apply fair_elem_of.
    + apply elem_of_create_groups. by exists id.
Qed.

Lemma elem_of_mutations (t : list Event) (e : Event) :
  e ∈ mutations t <-> e ∈ t /\ is_mutation e = true.
Proof.
  unfold mutations. rewrite !list_elem_of_In. apply filter_In.
Qed.

Lemma mutations_Permutation (t1 t2 : list Event) :
  t1 ≡ₚ t2 -> mutations t1 ≡ₚ mutations t2.
Proof.
  unfold mutations. induction 1 as [|e t1 t2 _ IH|e1 e2 t|t1 t2 t3 _ IH1 _ IH2].
  - done.
  - simpl. destruct (is_mutation e); [by constructor|done].
  - simpl. destruct (is_mutation e1), (is_mutation e2);
      try done. apply perm_swap.
  - by etransitivity.
Qed.

(** What a run of [SyncGroups] sends does not depend on the orders of
    the [range] statements, but for the order of the requests: the same
    groups are created, the run ends normally for one order exactly when
    it does for another, and then the same patches have been sent. *)
Lemma SyncGroups_order_independent (range_order range_order' : RangeOrder)
    (s : Sync) (w : World) :
  fair range_order -> fair range_order' ->
  let r := SyncGroups range_order s w in
  let r' := SyncGroups range_order' s w in
  (r'.1 = Ok tt <-> r.1 = Ok tt)
  /\ (forall org req,
        CallCreateGroup org req ∈ trace r'.2
        <-> CallCreateGroup org req ∈ trace r.2)
  /\ (r.1 = Ok tt -> mutations (trace r'.2) ≡ₚ mutations (trace r.2)).
Proof.
  intros Hfair Hfair'.
  assert (forall r r',
            r = SyncGroups range_order s w ->
            r' = SyncGroups range_order' s w ->
            (r'.1 = Ok tt <-> r.1 = Ok tt)
            /\ (forall org req,
                  CallCreateGroup org req ∈ trace r'.2
                  <-> CallCreateGroup org req ∈ trace r.2)
            /\ (r.1 = Ok tt ->
                mutations (trace r'.2) ≡ₚ mutations (trace r.2))) as Hall.
  2:{ intros r r'. by apply Hall. }
  intros r r'. rewrite !SyncGroups_steps. cbv zeta.
  destruct (organizations_err w); [by intros -> ->|].
  destruct (List.find _ _) as [defaultOrg|]; [|by intros -> ->].
  destruct (groups_err w _); [by intros -> ->|].
  destruct (users_err w); [by intros -> ->|].
  destruct (users_loop s defaultOrg (users w) _) as [[st|e|msg] w4];
    [|by intros -> ->..].
  destruct (decide (size (coderGroupChanges st) = 0%nat)) as [Hz|Hnz];
    [by intros -> ->|].
  set (orgID := Organization_ID defaultOrg).
  set (cg0 := snapshot (org_groups w orgID)).
  set (ch := coderGroupChanges st).
  destruct (createMissingGroups_run range_order orgID cg0 ch w4 Hfair)
    as (cg1 & ch1 & w5 & -> & Hs & Hch & Hcg & Htr & Hgr).
  destruct (createMissingGroups_run range_order' orgID cg0 ch w4 Hfair')
    as (cg1' & ch1' & w5' & -> & Hs' & Hch' & Hcg' & Htr' & Hgr').
  assert (ch1' = ch1) as ->.
  { apply map_eq. intros g. by rewrite Hch, Hch'. }
  assert (cg1' = cg1) as ->.
  { apply map_eq. intros g. by rewrite Hcg, Hcg'. }
  destruct (wrap_same "failed to apply group changes"
              (applyGroupChanges range_order orgID (userByID st) cg1 ch1) w5)
    as [Hw2 Hw1].
  destruct (wrap_same "failed to apply group changes"
              (applyGroupChanges range_order' orgID (userByID st) cg1 ch1)
              w5') as [Hw2' Hw1'].
  intros -> ->. rewrite Hw2, Hw2', Hw1, Hw1'. unfold applyGroupChanges.
  set (ks := range_order InApplyGroupChanges ch1).
  set (ks' := range_order' InApplyGroupChanges ch1).
  assert (Hks : ks' ≡ₚ ks).
  { unfold ks, ks'. by rewrite (Hfair _ _), (Hfair' _ _). }
  assert (Hacc : forall id, patch_accepted w5' id = patch_accepted w5 id).
  { intros id. unfold patch_accepted. f_equal.
    - destruct Hs as (_ & _ & _ & _ & _ & _ & -> & _).
      by destruct Hs' as (_ & _ & _ & _ & _ & _ & -> & _).
    - apply bool_decide_ext. rewrite !find_is_Some, Hgr, Hgr'.
      split; intros (G & HG & Hid); exists G; (split; [|done]);
        apply elem_of_app in HG as [HG|HG]; apply elem_of_app;
        [by left|right|by left|right];
        apply elem_of_created_groups; try done;
        by apply elem_of_created_groups in HG. }
  assert (Hok : (for_each ks' (applyGroupChanges_step (userByID st) cg1 ch1)
                   tt w5').1 = Ok tt
                <-> (for_each ks (applyGroupChanges_step (userByID st) cg1 ch1)
                       tt w5).1 = Ok tt).
  { rewrite !apply_loop_Ok_iff. split; intros H k req Hk Hreq.
    - destruct (H k req) as (g & Hg & Ha); [by rewrite Hks|done|].
      exists g. split; [done|]. by rewrite <- Hacc.
    - destruct (H k req) as (g & Hg & Ha); [by rewrite <- Hks|done|].
      exists g. split; [done|]. by rewrite Hacc. }
  split; [exact Hok|]. split.
  - intros org req.
    destruct (apply_loop_trace (userByID st) cg1 ch1 ks w5)
      as (apps & -> & Happ).
    destruct (apply_loop_trace (userByID st) cg1 ch1 ks' w5')
      as (apps' & -> & Happ').
    rewrite Htr, Htr'. rewrite !elem_of_app.
    assert (Hno : forall l : list Event,
              (forall e, e ∈ l -> is_application e = true) ->
              CallCreateGroup org req ∉ l).
    { intros l Hl Hin. by apply Hl in Hin. }
    assert (Hcr : CallCreateGroup org req
                    ∈ creation_trace range_order' w4 orgID cg0 ch
                  <-> CallCreateGroup org req
                        ∈ creation_trace range_order w4 orgID cg0 ch).
    { transitivity (CallCreateGroup org req
                      ∈ mutations (creation_trace range_order' w4 orgID
                                     cg0 ch)).
      { rewrite elem_of_mutations. by split; [|intros [? _]]. }
      transitivity (CallCreateGroup org req
                      ∈ mutations (creation_trace range_order w4 orgID
                                     cg0 ch)).
      2:{ rewrite elem_of_mutations. by split; [intros [? _]|]. }
      rewrite !mutations_creation_trace.
      by rewrite (Hfair _ _), (Hfair' _ _). }
    pose proof (Hno apps Happ). pose proof (Hno apps' Happ'). tauto.
  - intros Hr.
    destruct (apply_loop_run (userByID st) cg1 ch1 ks w5) as (_ & Ht & _).
    destruct (apply_loop_run (userByID st) cg1 ch1 ks' w5') as (_ & Ht' & _).
    rewrite (Ht Hr), (Ht' (proj2 Hok Hr)), Htr, Htr'.
    rewrite !mutations_app, !mutations_creation_trace.
    apply Permutation_app; [apply Permutation_app; [done|]|].
    + by rewrite (Hfair _ _), (Hfair' _ _).
    + apply mutations_Permutation, Permutation_flat_map. exact Hks.
Qed.

Lemma fair_creating_then_reversed : fair creating_then_reversed.
Proof.
  intros [] m; unfold creating_then_reversed, key_order; [done|].
  symmetry. apply Permutation_rev.
Qed.

(** X18.  Whenever an organization is marked default, the standalone
    script and [SyncGroups] change the deployment alike, whatever order
    each [range] statement of each program takes: one ends normally
    exactly when the other does, they ask for the same groups to be
    created, and when they end normally they have sent the same
    requests, up to their order.  Run with the same orders they send the
    same requests in the same order and leave the same groups on the
    server.  The script returns no error: where [SyncGroups] returns
    one, the script ends the process. *)
Theorem script_main_sends_what_SyncGroups_sends
    (domain : string) (w : World) (defaultOrg : Organization) :
  List.find Organization_IsDefault (organizations w) = Some defaultOrg ->
  (forall range_order range_order' : RangeOrder,
     fair range_order -> fair range_order' ->
     let rS := SyncGroups range_order {| EmailDomain := domain |} w in
     let rM := script.main range_order' domain w in
     (rM.1 = Ok tt <-> rS.1 = Ok tt)
     /\ (forall e, rM.1 <> Err e)
     /\ (forall org req,
           CallCreateGroup org req ∈ trace rM.2
           <-> CallCreateGroup org req ∈ trace rS.2)
     /\ (rS.1 = Ok tt ->
         mutations (trace rM.2) ≡ₚ mutations (trace rS.2)))
  /\ (forall range_order : RangeOrder,
        fair range_order ->
        let rS := SyncGroups range_order {| EmailDomain := domain |} w in
        let rM := script.main range_order domain w in
        mutations (trace rM.2) = mutations (trace rS.2)
        /\ groups rM.2 = groups rS.2).
Proof.
  intros Hd. split.
  - intros range_order range_order' Hfair Hfair' rS rM.
    destruct (script_main_agrees range_order' domain w defaultOrg Hfair' Hd)
      as (Hm & _ & Hok & Herr).
    destruct (SyncGroups_order_independent range_order range_order'
                {| EmailDomain := domain |} w Hfair Hfair')
      as (Hok' & Hcr & Hperm).
    fold rM in Hm, Hok, Herr. fold rS in Hok', Hcr, Hperm.
    split; [by rewrite Hok|]. split; [done|]. split.
    + intros org req. rewrite <- Hcr.
      transitivity (CallCreateGroup org req ∈ mutations (trace rM.2)).
      { rewrite elem_of_mutations. by split; [|intros [? _]]. }
      rewrite Hm, elem_of_mutations. by split; [intros [? _]|].
    + intros Hr. rewrite Hm. by apply Hperm.
  - intros range_order Hfair rS rM.
    destruct (script_main_agrees range_order domain w defaultOrg Hfair Hd)
      as (Hm & Hg & _).
    done.
Qed.

End Properties.

(* ===================================================================== *)
(** * Part V: the theorems at work on the example deployments             *)
(* ===================================================================== *)

#[local] Existing Instance latin1_tables.

(** The name "ÉCOLE Des Arts", the UTF-8 text of its fourteen runes,
    under the case tables of Latin-1. *)
Lemma ExpectedCoderGroups_normalizes_witness :
  text [201; 67; 79; 76; 69; 32; 68; 101; 115; 32; 65; 114; 116; 115]%Z
  = ecole_des_arts
  /\ normalize ecole_des_arts
     = text [233; 99; 111; 108; 101; 100; 101; 115; 97; 114; 116; 115]%Z
  /\ ExpectedCoderGroups
       [{| admin.Group_Name := ecole_des_arts;
           admin.Group_Email := "arts@example.com" |}] world_readme
     = (Ok [String "195" (String "169" "coledesarts")], world_readme).
Proof.
  destruct (ExpectedCoderGroups_normalizes
              [{| admin.Group_Name := ecole_des_arts;
                  admin.Group_Email := "arts@example.com" |}] world_readme)
    as (Hrun & _ & _ & _ & _ & _ & Hname & Htext & _).
  split; [reflexivity|]. split.
  - change ecole_des_arts
      with (text [201; 67; 79; 76; 69; 32; 68; 101; 115; 32; 65; 114;
                  116; 115]%Z).
    rewrite Htext.
    + reflexivity.
    + intros r Hr. unfold unicode.To_LowerCase, latin1_tables, scalar in *.
      destruct ((192 <=? r) && (r <=? 222) && negb (r =? 215))%Z eqn:E;
        [|done].
      apply andb_true_iff in E as [E _].
      apply andb_true_iff in E as [E1 E2].
      apply Z.leb_le in E1. apply Z.leb_le in E2. lia.
    + repeat constructor; unfold scalar; lia.
  - rewrite Hrun. cbn [filter]. rewrite <- (Hname eq_refl). reflexivity.
Defined.

Lemma ineligible_user_skipped_witness :
  (User_LoginType bob <> LoginTypeOIDC
   /\ user_step sync_example org_default state0 bob world_readme
      = (Ok (after_skipped state0 bob), world_readme))
  /\ (Strings.HasSuffix (User_Email carol) ("@" +:+ EmailDomain sync_example)
      = false
      /\ user_step sync_example org_default state0 carol world_readme
         = (Ok (after_skipped state0 carol), world_readme)).
Proof.
  split; split.
  - discriminate.
  - apply (ineligible_user_skipped sync_example org_default state0 bob
             world_readme).
    left. discriminate.
  - reflexivity.
  - apply (ineligible_user_skipped sync_example org_default state0 carol
             world_readme).
    right. reflexivity.
Defined.

Lemma creation_failure_isolated_witness :
  exists coderGroups' changes' w',
    createMissingGroups key_order "org-default" snapshot_example
      changes_example world_refusing
    = (Ok (coderGroups', changes'), w')
    /\ changes' !! "doglovers" = None
    /\ changes' !! "catlovers" = changes_example !! "catlovers"
    /\ (let r := applyGroupChanges key_order "org-default" ∅
                   coderGroups' changes' w' in
        r.1 = Ok tt
        /\ CallPatchGroup "id-catlovers"
             {| AddUsers := []; RemoveUsers := ["id-alice"] |} ∈ trace r.2
        /\ groups r.2
           = foldl (patch_step coderGroups' changes') (groups w')
                   (key_order InApplyGroupChanges changes')).
Proof.
  destruct (creation_failure_isolated key_order "org-default" ∅
              snapshot_example changes_example world_refusing "doglovers")
    as (cg' & ch' & w' & Hrun & HX & _ & _ & _ & Hother & _ & Happly).
  - apply fair_key_order.
  - vm_compute. eauto.
  - reflexivity.
  - reflexivity.
  - assert (Hrun0 :
      createMissingGroups key_order "org-default" snapshot_example
        changes_example world_refusing
      = (Ok (snapshot_example, delete "doglovers" changes_example),
         emits [CallCreateGroup "org-default" (create_request "doglovers");
                Log (LogCreateFailed "doglovers" (ApiError "CreateGroup"))]
               world_refusing))
      by (vm_compute; reflexivity).
    rewrite Hrun0 in Hrun. injection Hrun as <- <- <-.
    eexists _, _, _. split; [exact Hrun0|].
    split; [exact HX|]. split.
    { apply Hother. intros [H _]. vm_compute in H. discriminate. }
    destruct Happly as (_ & _ & Hsent & _ & Hres & _).
    split; [vm_compute; reflexivity|]. split.
    + destruct (Hsent ltac:(vm_compute; reflexivity) "catlovers"
                  {| AddUsers := []; RemoveUsers := ["id-alice"] |})
        as (G & HG & Hin); [vm_compute; reflexivity|].
      vm_compute in HG. injection HG as <-. exact Hin.
    + apply Hres. vm_compute. reflexivity.
Defined.

Lemma SyncGroups_fails_without_default_organization_witness :
  exists e,
    SyncGroups key_order sync_example world_no_default
    = (Err e, emit CallOrganizations world_no_default)
    /\ (organizations_err world_no_default = false ->
        e = Errorf "default organization not found").
Proof.
  apply (SyncGroups_fails_without_default_organization key_order
           sync_example world_no_default).
  intros org Horg. vm_compute in Horg.
  apply list_elem_of_singleton in Horg. subst org. reflexivity.
Defined.

Lemma SyncGroups_reports_no_changes_witness :
  SyncGroups key_order sync_example world_steady
  = (Ok tt,
     emit (Log (LogNoChanges
                  (length (List.filter (eligible sync_example)
                                       (users world_steady)))))
          (emits (read_events sync_example org_default world_steady)
                 world_steady)).
Proof.
  apply (SyncGroups_reports_no_changes key_order sync_example org_default
           world_steady).
  - apply fair_key_order.
  - repeat split; try reflexivity.
    simpl. unfold directory_dogs.
    destruct (String.eqb (User_Email u) _); eauto.
  - vm_compute. reflexivity.
Defined.

Lemma second_run_converged_witness :
  loop_changes sync_example org_default
    (SyncGroups key_order sync_example world_readme).2 = ∅.
Proof.
  apply (second_run_converged sync_example org_default world_readme
           well_formed_world_readme key_order fair_key_order).
  vm_compute. reflexivity.
Defined.

Lemma SyncGroups_mutations_in_default_organization_witness :
  CallPatchGroup "id-catlovers"
    {| AddUsers := []; RemoveUsers := ["id-alice"] |} ∈ trace world_readme
  \/ (exists Y,
        is_Some (loop_changes sync_example org_default world_readme !! Y)
        /\ CallPatchGroup "id-catlovers"
             {| AddUsers := []; RemoveUsers := ["id-alice"] |}
           = CallCreateGroup (Organization_ID org_default) (create_request Y))
  \/ (exists Y req G,
        loop_changes sync_example org_default world_readme !! Y = Some req
        /\ CallPatchGroup "id-catlovers"
             {| AddUsers := []; RemoveUsers := ["id-alice"] |}
           = CallPatchGroup (Group_ID G) req
        /\ Group_Name G = Y
        /\ (G ∈ org_groups world_readme (Organization_ID org_default)
            \/ exists id,
                 G = created_group (Organization_ID org_default) Y id)).
Proof.
  apply (SyncGroups_mutations_in_default_organization key_order
           sync_example org_default world_readme).
  - apply fair_key_order.
  - repeat split; try reflexivity.
    simpl. unfold directory_dogs.
    destruct (String.eqb (User_Email u) _); eauto.
  - vm_compute. do 7 apply list_elem_of_further. apply list_elem_of_here.
  - reflexivity.
Defined.

Lemma GoogleGroups_does_not_end_witness :
  directory.GoogleGroups service_looping 1000 "alice@example.com" = None.
Proof.
  apply (GoogleGroups_does_not_end service_looping "alice@example.com").
  intros t. eexists. split; [reflexivity|]. discriminate.
Defined.

Lemma blank_name_not_skipped_witness :
  exists w',
    ExpectedCoderGroups
      ([] ++ {| admin.Group_Name := "  ";
                admin.Group_Email := "blank@example.com" |} :: [])
      world_readme
    = (Ok (expected_names [] ++ "" :: expected_names []), w')
    /\ forall email,
         Log (LogNoGroupName email) ∈ trace w' ->
         Log (LogNoGroupName email) ∈ trace world_readme
         \/ exists g, g ∈ [] ++ []
                      /\ admin.Group_Name g = ""
                      /\ admin.Group_Email g = email.
Proof.
  apply (blank_name_not_skipped [] []
           {| admin.Group_Name := "  ";
              admin.Group_Email := "blank@example.com" |} world_readme).
  - done.
  - intros c Hc. simpl in Hc.
    apply elem_of_cons in Hc as [->|Hc]; [done|].
    apply elem_of_cons in Hc as [->|Hc]; [done|].
    by apply elem_of_nil in Hc.
Defined.

Lemma change_set_after_users_loop_witness :
  exists st,
    (users_loop sync_example org_default (users world_readme)
       world_readme).1 = Ok st
    /\ forall group req,
         coderGroupChanges st !! group = Some req ->
         AddUsers req <> [] \/ RemoveUsers req <> [].
Proof.
  eexists. split; [vm_compute; reflexivity|].
  intros group req Hreq.
  eapply (change_set_after_users_loop sync_example org_default
            (users world_readme) world_readme);
    [vm_compute; reflexivity|exact Hreq].
Defined.

Lemma createMissingGroups_creates_each_missing_group_witness :
  exists coderGroups' changes' w',
    createMissingGroups key_order "org-default" snapshot_example
      changes_example world_refusing
    = (Ok (coderGroups', changes'), w')
    /\ forall group,
         is_Some (changes' !! group) -> is_Some (coderGroups' !! group).
Proof.
  destruct (createMissingGroups_creates_each_missing_group key_order
              "org-default" snapshot_example changes_example world_refusing
              fair_key_order)
    as (cg' & ch' & w' & Hrun & _ & _ & _ & _ & Hdom & _).
  exists cg', ch', w'. split; [exact Hrun|exact Hdom].
Defined.

Lemma SyncGroups_outcomes_witness :
  groups (SyncGroups key_order sync_example world_no_default).2
  = groups world_no_default
  /\ mutations (trace (SyncGroups key_order sync_example world_no_default).2)
     = mutations (trace world_no_default).
Proof.
  destruct (SyncGroups_outcomes key_order sync_example world_no_default
              fair_key_order) as [_ H].
  apply H.
  - intros E. vm_compute in E. discriminate E.
  - intros e E. vm_compute in E. discriminate E.
Defined.

Lemma SyncGroups_reads_before_it_writes_witness :
  exists reads creations applications,
    trace (SyncGroups key_order sync_example world_readme).2
    = trace world_readme ++ reads ++ creations ++ applications
    /\ (forall e, e ∈ reads -> is_read e = true)
    /\ (forall e, e ∈ creations -> is_creation e = true)
    /\ (forall e, e ∈ applications ->
          is_application e = true \/ exists n, e = Log (LogNoChanges n)).
Proof.
  exact (SyncGroups_reads_before_it_writes key_order sync_example
           world_readme fair_key_order).
Defined.

Lemma first_run_reaches_expected_witness :
  User_ID alice ∈ Group_Members group_doglovers
  <-> Group_Name group_doglovers
        ∈ Expected org_default (cGroups_of world_readme alice)
            (source_groups world_readme alice).
Proof.
  destruct (first_run_reaches_expected key_order sync_example org_default
              world_readme fair_key_order well_formed_world_readme)
    as (Helig & _).
  { vm_compute. reflexivity. }
  apply (Helig alice).
  - vm_compute. apply list_elem_of_here.
  - vm_compute. reflexivity.
  - vm_compute. do 2 apply list_elem_of_further. apply list_elem_of_here.
Defined.

Lemma script_main_sends_what_SyncGroups_sends_witness :
  mutations
    (trace (script.main creating_then_reversed "example.com"
              world_readme).2)
  ≡ₚ mutations (trace (SyncGroups key_order sync_example world_readme).2).
Proof.
  destruct (script_main_sends_what_SyncGroups_sends "example.com"
              world_readme org_default eq_refl) as [Hany _].
  destruct (Hany key_order creating_then_reversed fair_key_order
              fair_creating_then_reversed) as (_ & _ & _ & Hperm).
  apply Hperm. vm_compute. reflexivity.
Defined.
